(** * TOC-anchored report parser: [parse_pdf_text_by_toc] of MML_get.py

    A shallow embedding of the core function of the repository. Python
    strings are sequences of Unicode code points, so a character is a code
    point ([N]) and a string a list of them. The [re] patterns of the source
    are transcribed one by one as values of a small regular-expression type
    and run by a backtracking matcher that follows the priority rules of
    Python's engine (leftmost match, greedy and lazy repetition, ordered
    alternation, atomic look-ahead). *)

From Stdlib Require Import NArith Ascii String.
From stdpp Require Import base numbers option list gmap.

Local Open Scope N_scope.

(** ** Characters and strings *)

Definition char := N.
Definition str := list char.

(** An ASCII literal of the source as a list of code points. *)
Definition lit (s : string) : str :=
  List.map N_of_ascii (list_ascii_of_string s).

Definition LF : char := 10.
Definition SP : char := 32.
Definition DOT : char := 46.
Definition HYPHEN : char := 45.
(** U+2022, the bullet of the table-of-contents pattern. *)
Definition BULLET : char := 8226.

(** [\s] on [str] patterns and [str.strip()]: the code points for which
    [str.isspace()] holds. *)
Definition space_chars : list char :=
  [9; 10; 11; 12; 13; 28; 29; 30; 31; 32; 133; 160; 5760;
   8192; 8193; 8194; 8195; 8196; 8197; 8198; 8199; 8200; 8201; 8202;
   8232; 8233; 8239; 8287; 12288].

Definition is_space (c : char) : bool := existsb (N.eqb c) space_chars.

(** [\d] on [str] patterns: Unicode category Nd, as ranges (Unicode 14,
    the table of CPython 3.11). *)
Definition digit_ranges : list (char * char) :=
  [(48, 57); (1632, 1641); (1776, 1785); (1984, 1993); (2406, 2415);
   (2534, 2543); (2662, 2671); (2790, 2799); (2918, 2927); (3046, 3055);
   (3174, 3183); (3302, 3311); (3430, 3439); (3558, 3567); (3664, 3673);
   (3792, 3801); (3872, 3881); (4160, 4169); (4240, 4249); (6112, 6121);
   (6160, 6169); (6470, 6479); (6608, 6617); (6784, 6793); (6800, 6809);
   (6992, 7001); (7088, 7097); (7232, 7241); (7248, 7257); (42528, 42537);
   (43216, 43225); (43264, 43273); (43472, 43481); (43504, 43513);
   (43600, 43609); (44016, 44025); (65296, 65305); (66720, 66729);
   (68912, 68921); (69734, 69743); (69872, 69881); (69942, 69951);
   (70096, 70105); (70384, 70393); (70736, 70745); (70864, 70873);
   (71248, 71257); (71360, 71369); (71472, 71481); (71904, 71913);
   (72016, 72025); (72784, 72793); (73040, 73049); (73120, 73129);
   (92768, 92777); (92864, 92873); (93008, 93017); (120782, 120831);
   (123200, 123209); (123632, 123641); (125264, 125273); (130032, 130041)].

Definition is_digit (c : char) : bool :=
  existsb (fun r => (fst r <=? c) && (c <=? snd r)) digit_ranges.

(** ** Regular expressions *)

Inductive regex : Type :=
  | Eps
  | Chr (p : char -> bool)
  | Seq (a b : regex)
  | Alt (a b : regex)
  | Star (greedy : bool) (a : regex)
  | Group (n : nat) (a : regex)
  | Ahead (a : regex)
  | Eos.

(** Captured groups, most recent first. *)
Definition caps := list (nat * str).

Fixpoint group (n : nat) (c : caps) : option str :=
  match c with
  | [] => None
  | (m, g) :: c' => if Nat.eqb n m then Some g else group n c'
  end.

(** The text consumed between [s] and its suffix [s']. *)
Definition consumed (s s' : str) : str := take (length s - length s') s.

(** [$] without [re.MULTILINE]: at the end of the string, or just before a
    newline that ends it. *)
Definition at_end (s : str) : bool :=
  match s with
  | [] => true
  | [c] => N.eqb c LF
  | _ => false
  end.

(** Repetition. Every round has to consume a character, as in the engine of
    [re]; [n] bounds the rounds and is the length of the text at the start,
    which no run of consuming rounds exceeds. *)
Fixpoint star_loop {R : Type} (greedy : bool)
    (body : str -> caps -> (str -> caps -> option R) -> option R)
    (n : nat) (s : str) (c : caps) (k : str -> caps -> option R) : option R :=
  match n with
  | O => k s c
  | S n' =>
      let again s' c' :=
        if Nat.ltb (length s') (length s)
        then star_loop greedy body n' s' c' k else None in
      if greedy then
        match body s c again with
        | Some x => Some x
        | None => k s c
        end
      else
        match k s c with
        | Some x => Some x
        | None => body s c again
        end
  end.

(** The backtracking matcher, in continuation-passing style: [go r s c k]
    matches [r] at the start of [s] and hands the rest of the text and the
    groups to [k]; when [k] refuses, the next alternative is tried. *)
Fixpoint go {R : Type} (r : regex) (s : str) (c : caps)
    (k : str -> caps -> option R) {struct r} : option R :=
  match r with
  | Eps => k s c
  | Chr p =>
      match s with
      | x :: s' => if p x then k s' c else None
      | [] => None
      end
  | Seq a b => go a s c (fun s' c' => go b s' c' k)
  | Alt a b =>
      match go a s c k with
      | Some x => Some x
      | None => go b s c k
      end
  | Star greedy a => star_loop greedy (go a) (length s) s c k
  | Group n a => go a s c (fun s' c' => k s' ((n, consumed s s') :: c'))
  | Ahead a =>
      match go a s c (fun _ c' => Some c') with
      | Some c' => k s c'
      | None => None
      end
  | Eos => if at_end s then k s c else None
  end.

(** [pattern.match]: a match that starts at the start of [s]; the result is
    the text after the match and the groups. *)
Definition match_at (r : regex) (s : str) : option (str * caps) :=
  go r s [] (fun s' c => Some (s', c)).

(** [re.search]: the leftmost match; the result is the offset of the match,
    the text after it and the groups. *)
Fixpoint search (r : regex) (s : str) : option (nat * str * caps) :=
  match match_at r s with
  | Some (s', c) => Some (O, s', c)
  | None =>
      match s with
      | [] => None
      | _ :: t =>
          match search r t with
          | Some (i, s', c) => Some (S i, s', c)
          | None => None
          end
      end
  end.

(** [re.sub] with a replacement that has no group reference: the text is
    scanned from left to right; [skip] counts the characters of the current
    match still to pass over. An empty match is replaced and the scan moves on
    by one character (the patterns of this program match no empty text). *)
Fixpoint sub_from (r : regex) (repl : str) (skip : nat) (s : str) : str :=
  match skip with
  | S n =>
      match s with
      | [] => []
      | _ :: t => sub_from r repl n t
      end
  | O =>
      match match_at r s with
      | Some (s', _) =>
          repl ++
          match s with
          | [] => []
          | x :: t =>
              match (length s - length s')%nat with
              | O => x :: sub_from r repl O t
              | S w => sub_from r repl w t
              end
          end
      | None =>
          match s with
          | [] => []
          | x :: t => x :: sub_from r repl O t
          end
      end
  end.

Definition sub (r : regex) (repl s : str) : str := sub_from r repl O s.

(** [re.findall]: the groups of every match, from left to right. *)
Fixpoint findall_from (r : regex) (skip : nat) (s : str) : list caps :=
  match skip with
  | S n =>
      match s with
      | [] => []
      | _ :: t => findall_from r n t
      end
  | O =>
      match match_at r s with
      | Some (s', c) =>
          c ::
          match s with
          | [] => []
          | _ :: t => findall_from r (pred (length s - length s')) t
          end
      | None =>
          match s with
          | [] => []
          | _ :: t => findall_from r O t
          end
      end
  end.

Definition findall (r : regex) (s : str) : list caps := findall_from r O s.

Local Close Scope N_scope.

(** ** String methods of the source *)

(** [str.strip()] *)
Fixpoint lstrip (s : str) : str :=
  match s with
  | [] => []
  | x :: t => if is_space x then lstrip t else s
  end.
Definition rstrip (s : str) : str := reverse (lstrip (reverse s)).
Definition strip (s : str) : str := rstrip (lstrip s).

(** Is [p] a prefix of [s]? *)
Fixpoint starts_with (p s : str) : bool :=
  match p, s with
  | [], _ => true
  | x :: p', y :: s' => N.eqb x y && starts_with p' s'
  | _ :: _, [] => false
  end.

(** The first offset at which [p] occurs in [s]. *)
Fixpoint find_in (p s : str) : option nat :=
  if starts_with p s then Some 0
  else
    match s with
    | [] => None
    | _ :: t => S <$> find_in p t
    end.

(** [s.find(p, start)], with [None] for the -1 of Python. *)
Definition find (s p : str) (start : nat) : option nat :=
  if Nat.leb start (length s)
  then Nat.add start <$> find_in p (drop start s)
  else None.

(** [s[i:j]] for offsets [0 <= i], [0 <= j]. *)
Definition slice (s : str) (i j : nat) : str := take (j - i) (drop i s).

(** [s.split(sep)] for a separator of one character. *)
Fixpoint split_on (sep : char) (s : str) : list str :=
  match s with
  | [] => [[]]
  | x :: t =>
      if N.eqb x sep then [] :: split_on sep t
      else
        match split_on sep t with
        | [] => [[x]]
        | w :: ws => (x :: w) :: ws
        end
  end.

(** [str.upper()] on the code points that the case-insensitive status
    pattern can capture: the ASCII letters, U+0130, U+0131, U+017F and
    U+212A. Of these the small ASCII letters, the dotless i and the long s
    change. *)
Definition upper_char (c : char) : char :=
  if (97 <=? c)%N && (c <=? 122)%N then (c - 32)%N
  else if N.eqb c 305 then 73%N
  else if N.eqb c 383 then 83%N
  else c.

Definition upper (s : str) : str := List.map upper_char s.

(** ** The patterns of the source *)

Definition plus (greedy : bool) (a : regex) : regex := Seq a (Star greedy a).

(** [a{n,}] *)
Fixpoint at_least (n : nat) (a : regex) : regex :=
  match n with
  | O => Star true a
  | S n' => Seq a (at_least n' a)
  end.

(** A literal text. *)
Fixpoint text (s : str) : regex :=
  match s with
  | [] => Eps
  | x :: s' => Seq (Chr (N.eqb x)) (text s')
  end.

(** A literal character under [re.IGNORECASE], for a pattern character that
    is an ASCII letter or has no case: the text character matches when its
    lower case is the pattern's, and the engine adds the dotless i to [i] and
    the long s to [s]; U+0130 has the lower case [i] and U+212A the lower
    case [k]. *)
Definition lower_ascii (c : char) : char :=
  if (65 <=? c)%N && (c <=? 90)%N then (c + 32)%N else c.

Definition ignorecase (p x : char) : bool :=
  let l := lower_ascii p in
  N.eqb (lower_ascii x) l
  || (N.eqb l 105 && (N.eqb x 304 || N.eqb x 305))
  || (N.eqb l 115 && N.eqb x 383)
  || (N.eqb l 107 && N.eqb x 8490).

Fixpoint text_i (s : str) : regex :=
  match s with
  | [] => Eps
  | x :: s' => Seq (Chr (ignorecase x)) (text_i s')
  end.

Definition any_char : regex := Chr (fun _ => true).
Definition not_newline : regex := Chr (fun x => negb (N.eqb x LF)).
Definition spaces : regex := Star true (Chr is_space).
Definition digits : regex := plus true (Chr is_digit).
Definition newline : regex := Chr (N.eqb LF).
Definition dots3 : regex := at_least 3 (Chr (N.eqb DOT)).

(** [\s*\n\s*\.\s*] *)
Definition re_dot_break : regex :=
  Seq spaces (Seq newline (Seq spaces (Seq (Chr (N.eqb DOT)) spaces))).

(** [-\s*\n\s*] *)
Definition re_hyphen_break : regex :=
  Seq (Chr (N.eqb HYPHEN)) (Seq spaces (Seq newline spaces)).

(** [\s*\n\s*] *)
Definition re_line_break : regex := Seq spaces (Seq newline spaces).

(** [\s+] *)
Definition re_spaces : regex := plus true (Chr is_space).

(** [\d+(?:\.\d+)+]: the numeral path of an entry line. *)
Definition re_numeral : regex :=
  Seq digits (plus true (Seq (Chr (N.eqb DOT)) digits)).

(** [\s*\.{3,}\s*\d+]: the leader dots and the page number. *)
Definition re_leader : regex := Seq spaces (Seq dots3 (Seq spaces digits)).

(** [(\d+(?:\.\d+)+)\s+([^\n]+?)\s*\.{3,}\s*\d+]; the flags
    [re.IGNORECASE | re.DOTALL] change nothing in it: it has no letter and
    no unescaped dot. *)
Definition re_toc_plain : regex :=
  Seq (Group 1 re_numeral)
  (Seq (plus true (Chr is_space))
  (Seq (Group 2 (plus false not_newline)) re_leader)).

(** The part of it behind the numeral path: [\s+([^\n]+?)\s*\.{3,}\s*\d+]. *)
Definition re_toc_tail : regex :=
  Seq (plus true (Chr is_space))
  (Seq (Group 2 (plus false not_newline)) re_leader).

(** The same behind [•\s*]. *)
Definition re_toc_bullet : regex :=
  Seq (Chr (N.eqb BULLET)) (Seq spaces re_toc_plain).

(** [\.{3,}\s*\d+] *)
Definition re_page_suffix : regex := Seq dots3 (Seq spaces digits).

Definition FAILED : str := lit "FAILED".
Definition PASSED : str := lit "PASSED".
Definition SKIPPED : str := lit "SKIPPED".
Definition NA : str := lit "N/A".

(** [\*\* (FAILED|PASSED|SKIPPED) \*\*] *)
Definition re_status : regex :=
  Seq (text (lit "** "))
  (Seq (Group 1 (Alt (text FAILED) (Alt (text PASSED) (text SKIPPED))))
       (text (lit " **"))).

(** [Policy Value\s*\n\s*(FAILED|PASSED|SKIPPED)] with [re.IGNORECASE] *)
Definition re_status_policy : regex :=
  Seq (text_i (lit "Policy Value"))
  (Seq spaces (Seq newline (Seq spaces
    (Group 1 (Alt (text_i FAILED) (Alt (text_i PASSED) (text_i SKIPPED))))))).

(** [label\s*(.*?)(?=\s*stop1|...|\s*$)] with [re.DOTALL]: the shape of the
    five field patterns. *)
Fixpoint stops (labels : list str) : regex :=
  match labels with
  | [] => Seq spaces Eos
  | l :: ls => Alt (Seq spaces (text l)) (stops ls)
  end.

Definition re_field (label : str) (labels : list str) : regex :=
  Seq (text label)
  (Seq spaces (Seq (Group 1 (Star false any_char)) (Ahead (stops labels)))).

(** [Info\s*(.*?)(?=\s*Solution|\s*$)] *)
Definition re_info : regex := re_field (lit "Info") [lit "Solution"].
(** [Solution\s*(.*?)(?=\s*See Also|\s*References|\s*$)] *)
Definition re_solution : regex :=
  re_field (lit "Solution") [lit "See Also"; lit "References"].
(** [References\s*(.*?)(?=\s*Audit File|\s*$)] *)
Definition re_references : regex :=
  re_field (lit "References") [lit "Audit File"].
(** [Audit File\s*(.*?)(?=\s*Policy Value|\s*$)] *)
Definition re_audit_file : regex :=
  re_field (lit "Audit File") [lit "Policy Value"].
(** [Policy Value\s*(.*?)(?=\s*Hosts|\s*$)] *)
Definition re_policy_value : regex :=
  re_field (lit "Policy Value") [lit "Hosts"].

(** ** The program *)

(** An entry of the table of contents. *)
Record toc_entry : Type := {
  number : str;
  description : str
}.

(** An element of the result list. *)
Record record : Type := {
  rec_number : str;
  rec_description : str;
  type_ : str;
  info : str;
  solution : str;
  references : list str;
  auditFile : str;
  policyValue : str
}.

(** [m.group(n)] of a match in which group [n] took part. *)
Definition group_text (n : nat) (m : caps) : str := default [] (group n m).

(** Step 1 of the source: the four substitutions and the final [strip]. *)
Definition normalize (full_text : str) : str :=
  let full_text := sub re_dot_break [DOT] full_text in
  let full_text := sub re_hyphen_break [] full_text in
  let full_text := sub re_line_break [SP] full_text in
  strip (sub re_spaces [SP] full_text).

(** Step 2: the lines of the table of contents, with the pattern that has
    no bullet as the fallback when the first finds nothing. *)
Definition toc_lines (toc_text : str) : list caps :=
  match findall re_toc_bullet toc_text with
  | [] => findall re_toc_plain toc_text
  | toc_lines => toc_lines
  end.

Definition toc_entry_of (line : caps) : toc_entry :=
  let number := group_text 1 line in
  let description := group_text 2 line in
  let clean_description := strip (sub re_page_suffix [] description) in
  {| number := strip number; description := clean_description |}.

Definition parse_toc (toc_text : str) : list toc_entry :=
  toc_entry_of <$> toc_lines toc_text.

(** The anchor of an entry: [f"{number} {description}"]. *)
Definition start_string (e : toc_entry) : str :=
  number e ++ [SP] ++ description e.

(** Step 4: the fields of one section. *)
Definition field (r : regex) (section_content : str) : option str :=
  match search r section_content with
  | Some (_, _, m) => Some (strip (group_text 1 m))
  | None => None
  end.

Definition status_type (section_content : str) : str :=
  let status_match :=
    match search re_status section_content with
    | Some m => Some m
    | None => search re_status_policy section_content
    end in
  match status_match with
  | Some (_, _, m) => upper (group_text 1 m)
  | None => NA
  end.

Definition extract (current_entry : toc_entry) (section_content : str)
    : record :=
  let type_ := status_type section_content in
  let info_match := field re_info section_content in
  let solution_match := field re_solution section_content in
  let references_match := field re_references section_content in
  let audit_file_match := field re_audit_file section_content in
  let policy_value_match := field re_policy_value section_content in
  {| rec_number := number current_entry;
     rec_description := description current_entry;
     type_ := type_;
     info := default NA info_match;
     solution := default NA solution_match;
     references :=
       match references_match with
       | Some g => split_on LF g
       | None => [NA]
       end;
     auditFile := default NA audit_file_match;
     policyValue := default NA policy_value_match |}.

(** ** Standard output

    The warning of step 3 is written with [print] to [sys.stdout], a text
    stream that encodes what it is given; with the strict error handler a
    character the stream cannot encode raises [UnicodeEncodeError], which
    nothing in the function catches. The stream is a parameter of the model:
    [stdout c] tells whether the character [c] can be written. (A stream
    that replaces or escapes what it cannot encode takes every character.
    What else can go wrong with a stream, that it is closed for one, does not
    depend on the text and is not part of the model.) *)
Definition stream := char -> bool.

(** A UTF-8 stream takes every code point but the surrogates
    U+D800 to U+DFFF. *)
Definition utf8 : stream :=
  fun c => negb (N.leb 55296 c && N.leb c 57343).

Inductive exception : Type :=
  | UnicodeEncodeError.

(** [print(line)]: the line and the newline behind it are written, or the
    exception is raised. *)
Definition print (stdout : stream) (line : str) : option exception :=
  if forallb stdout (line ++ [LF]) then None else Some UnicodeEncodeError.

(** The text in front of the anchor in the warning of line 54 (the code
    points of its seventeen characters). *)
Definition warning_head : str :=
  [35686; 21578; 65306; 26080; 27861; 22312; 80; 68; 70; 25991; 26412;
   20013; 25214; 21040; 26465; 30446; 65306]%N.

(** The f-string of the warning. *)
Definition warning (start_string : str) : str := warning_head ++ start_string.

(** What one round of the loop of step 3 does: it appends a record, or it
    prints the warning for the anchor it did not find and goes on, or the
    [print] raises. *)
Inductive outcome : Type :=
  | Appended (r : record)
  | Warned (line : str)
  | Raised (e : exception).

(** The end of the section of an entry found at [start_index]: the place of
    the anchor of the next entry of the list after the anchor of this one,
    when there is a next entry and its anchor is found there; the end of the
    text otherwise. *)
Definition section_end (full_text : str) (next : option toc_entry)
    (current_entry : toc_entry) (start_index : nat) : nat :=
  match next with
  | Some next_entry =>
      match find full_text (start_string next_entry)
                 (start_index + length (start_string current_entry)) with
      | Some next_index => next_index
      | None => length full_text
      end
  | None => length full_text
  end.

Definition loop_body (stdout : stream) (full_text : str)
    (toc_entries : list toc_entry) (i : nat) (current_entry : toc_entry)
    : outcome :=
  match find full_text (start_string current_entry) 0 with
  | None =>
      match print stdout (warning (start_string current_entry)) with
      | Some e => Raised e
      | None => Warned (warning (start_string current_entry))
      end
  | Some start_index =>
      let end_index :=
        section_end full_text (toc_entries !! (i + 1)%nat)
                    current_entry start_index in
      let section_content := slice full_text start_index end_index in
      Appended (extract current_entry section_content)
  end.

(** How a call ends: it returns the list [data], or an exception leaves
    it. *)
Inductive result : Type :=
  | Returned (data : list record)
  | Raise (e : exception).

(** The loop of step 3 from round [i] on, over the entries still to do, with
    the records appended and the lines printed so far. A round that raises
    ends the call. The lines printed come with the result. *)
Fixpoint for_loop (stdout : stream) (full_text : str)
    (toc_entries : list toc_entry) (i : nat) (todo : list toc_entry)
    (data : list record) (printed : list str) : list str * result :=
  match todo with
  | [] => (printed, Returned data)
  | current_entry :: todo =>
      match loop_body stdout full_text toc_entries i current_entry with
      | Appended r =>
          for_loop stdout full_text toc_entries (S i) todo (data ++ [r]) printed
      | Warned line =>
          for_loop stdout full_text toc_entries (S i) todo data
                   (printed ++ [line])
      | Raised e => (printed, Raise e)
      end
  end.

(** The function of the source: the lines it prints and how it ends. *)
Definition parse_pdf_text_by_toc (stdout : stream) (toc_text full_text : str)
    : list str * result :=
  let full_text := normalize full_text in
  let toc_entries := parse_toc toc_text in
  for_loop stdout full_text toc_entries 0 toc_entries [] [].

(** ** Example inputs *)

(** The end-to-end example of the specification. *)
Definition ex_toc : str := BULLET :: lit " 1.1 Ensure Test Item ...... 5".
Definition ex_body : str :=
  lit "1.1 Ensure Test Item ** FAILED ** Info Do X. Solution Do Y. References http://a References Audit File cmd --check Policy Value true Hosts host1".

Definition entry_a : toc_entry := {| number := lit "1.1"; description := lit "A" |}.
Definition entry_b : toc_entry := {| number := lit "1.2"; description := lit "B" |}.
Definition entry_c : toc_entry := {| number := lit "1.3"; description := lit "C" |}.

(** A table of contents with the entries 1.1 A and 1.2 B, and a text in which
    the anchor of 1.2 B also stands before the anchor of 1.1 A. *)
Definition toc_ab : str :=
  BULLET :: lit " 1.1 A ... 1" ++ LF :: BULLET :: lit " 1.2 B ... 2".
Definition body_b_twice : str :=
  lit "1.2 B Info early 1.1 A Info first 1.2 B Info second".

(** A table of contents with the entries 1.1 A, 1.2 B and 1.3 C, the same
    without 1.2 B, and two texts that have no anchor of 1.2 B and differ
    only after the anchor of 1.3 C. *)
Definition toc_abc : str :=
  BULLET :: lit " 1.1 A ... 1" ++ LF :: BULLET :: lit " 1.2 B ... 2"
    ++ LF :: BULLET :: lit " 1.3 C ... 3".
Definition toc_ac : str :=
  BULLET :: lit " 1.1 A ... 1" ++ LF :: BULLET :: lit " 1.3 C ... 3".
Definition body_ac : str := lit "1.1 A Info a 1.3 C Info c".
Definition body_ac' : str := lit "1.1 A Info a 1.3 C Info d".

(** The record the specification states for the end-to-end example, and the
    record the function returns. *)
Definition ex_stated : record :=
  {| rec_number := lit "1.1";
     rec_description := lit "Ensure Test Item";
     type_ := lit "FAILED";
     info := lit "Do X.";
     solution := lit "Do Y.";
     references := [lit "http://a"];
     auditFile := lit "cmd --check";
     policyValue := lit "true" |}.

Definition ex_returned : record :=
  {| rec_number := lit "1.1";
     rec_description := lit "Ensure Test Item";
     type_ := lit "FAILED";
     info := lit "Do X.";
     solution := lit "Do Y.";
     references := [lit "http://a References"];
     auditFile := lit "cmd --check";
     policyValue := lit "true" |}.

(** The entry a record was made for. *)
Definition entry_of (r : record) : toc_entry :=
  {| number := rec_number r; description := rec_description r |}.

(** A one-line table of contents without a bullet, whose title holds dots
    and a page number of its own. *)
Definition toc_line : str := lit "1.1 A ... 5 2.2 B ... 6".


(** An entry whose title holds two spaces in a row, and a text that holds
    the line as it is. *)
Definition toc_wide : str :=
  BULLET :: lit " 1.1 Ensure  Test Item ...... 5".
Definition entry_wide : toc_entry :=
  {| number := lit "1.1"; description := lit "Ensure  Test Item" |}.
Definition body_wide : str := lit "1.1 Ensure  Test Item ** FAILED **".

(** ** The declarative reading of the matcher *)

(** [matches r s c s' c']: [r] matches at the start of [s], leaves [s'] and
    turns the groups [c] into [c']. The relation lists every way the matcher
    can take; which of them it takes first is the matcher's business. A
    look-ahead is atomic, so its groups are those the matcher finds. *)
Inductive matches : regex -> str -> caps -> str -> caps -> Prop :=
  | m_eps s c : matches Eps s c s c
  | m_chr (p : char -> bool) x s c :
      p x = true -> matches (Chr p) (x :: s) c s c
  | m_seq a b s c s1 c1 s2 c2 :
      matches a s c s1 c1 -> matches b s1 c1 s2 c2 ->
      matches (Seq a b) s c s2 c2
  | m_alt_l a b s c s' c' :
      matches a s c s' c' -> matches (Alt a b) s c s' c'
  | m_alt_r a b s c s' c' :
      matches b s c s' c' -> matches (Alt a b) s c s' c'
  | m_star_stop g a s c : matches (Star g a) s c s c
  | m_star_step g a s c s1 c1 s2 c2 :
      matches a s c s1 c1 -> length s1 < length s ->
      matches (Star g a) s1 c1 s2 c2 ->
      matches (Star g a) s c s2 c2
  | m_group n a s c s' c' :
      matches a s c s' c' ->
      matches (Group n a) s c s' ((n, consumed s s') :: c')
  | m_ahead a s c c' :
      go a s c (fun _ c1 => Some c1) = Some c' ->
      matches (Ahead a) s c s c'
  | m_eos s c : at_end s = true -> matches Eos s c s c.


(** ** Auxiliary definitions for the proofs *)

(** What a greedy repetition of a character class does: it takes the longest
    run first and gives characters back one at a time. *)
Fixpoint greedy_run {R : Type} (p : char -> bool) (s : str) (c : caps)
    (k : str -> caps -> option R) : option R :=
  match s with
  | x :: t =>
      if p x then
        match greedy_run p t c k with
        | Some r => Some r
        | None => k s c
        end
      else k s c
  | [] => k s c
  end.

(** What a lazy repetition of a character class does: it tries the shortest
    run first and takes one more character at a time. *)
Fixpoint lazy_run {R : Type} (p : char -> bool) (s : str) (c : caps)
    (k : str -> caps -> option R) : option R :=
  match k s c with
  | Some r => Some r
  | None =>
      match s with
      | x :: t => if p x then lazy_run p t c k else None
      | [] => None
      end
  end.

(** Every whitespace character of [s] is a space that is followed by a
    character that is not whitespace, or by the end of [s]. *)
Fixpoint well_spaced (s : str) : bool :=
  match s with
  | [] => true
  | x :: t =>
      (if is_space x
       then N.eqb x SP && match t with
                          | y :: _ => negb (is_space y)
                          | [] => true
                          end
       else true)
      && well_spaced t
  end.

(** The normal form of the normalization: single spaces between words, and
    no whitespace at either end. *)
Definition normalized (s : str) : Prop :=
  well_spaced s = true /\ strip s = s.

(** Every captured group is made of characters of [S]. *)
Definition caps_in (S : str) (c : caps) : Prop :=
  forall n g, (n, g) ∈ c -> g ⊆ S.

(** The label does not stand anywhere in the section. *)
Definition label_absent (label section : str) : Prop :=
  forall j, starts_with label (drop j section) = false.

(** Does [s] start with [label], read without regard to case? *)
Fixpoint starts_with_i (label s : str) : bool :=
  match label, s with
  | [], _ => true
  | p :: label', x :: s' => ignorecase p x && starts_with_i label' s'
  | _ :: _, [] => false
  end.

(** The three status words. *)
Definition status_words : list str := [FAILED; PASSED; SKIPPED].

(** The bracketed status marker of a status word. *)
Definition marker (w : str) : str := lit "** " ++ w ++ lit " **".

(** A string of one or more decimal digits. *)
Definition digit_string (d : str) : Prop :=
  d <> [] /\ Forall (fun x => is_digit x = true) d.

(** The numeral path [first.more1.more2...]. *)
Definition numeral_path (first : str) (more : list str) : str :=
  first ++ concat ((fun d => DOT :: d) <$> more).

(** A digit or a dot: the characters of a numeral path. *)
Definition path_char (x : char) : Prop := is_digit x = true \/ x = DOT.

(** [r] has no group, and consumes only characters of [P]. *)
Definition keeps (P : char -> Prop) (r : regex) : Prop :=
  forall s c s' c', matches r s c s' c' ->
    exists m, s = m ++ s' /\ Forall P m /\ c' = c.

(** Does every match of [r] set group [n]? (A sufficient test.) *)
Fixpoint sets_group (n : nat) (r : regex) : bool :=
  match r with
  | Seq a b => sets_group n a || sets_group n b
  | Alt a b => sets_group n a && sets_group n b
  | Group m a => Nat.eqb n m || sets_group n a
  | Ahead a => sets_group n a
  | _ => false
  end.

(** The patterns of the source with the groups the source reads from their
    matches. *)
Definition groups_read : list (regex * nat) :=
  [ (re_toc_bullet, 1); (re_toc_bullet, 2); (re_toc_plain, 1);
    (re_toc_plain, 2); (re_status, 1); (re_status_policy, 1);
    (re_info, 1); (re_solution, 1); (re_references, 1);
    (re_audit_file, 1); (re_policy_value, 1) ].

(** Does every match of [r] consume a character? (A sufficient test.) *)
Fixpoint takes_char (r : regex) : bool :=
  match r with
  | Chr _ => true
  | Seq a b => takes_char a || takes_char b
  | Alt a b => takes_char a && takes_char b
  | Group _ a => takes_char a
  | _ => false
  end.

(** The patterns the source gives to [re.sub] and [re.findall]. *)
Definition scanned : list regex :=
  [ re_dot_break; re_hyphen_break; re_line_break; re_spaces;
    re_toc_bullet; re_toc_plain; re_page_suffix ].

(** ** The rounds of the loop as a list *)

Definition appended (o : outcome) : option record :=
  match o with
  | Appended r => Some r
  | _ => None
  end.

Definition warned (o : outcome) : option str :=
  match o with
  | Warned line => Some line
  | _ => None
  end.

Definition raised (o : outcome) : option exception :=
  match o with
  | Raised e => Some e
  | _ => None
  end.

(** What each round does when the loop gets to it. *)
Definition run_loop (stdout : stream) (full_text : str)
    (toc_entries : list toc_entry) : list outcome :=
  imap (loop_body stdout full_text toc_entries) toc_entries.

(** The records of the rounds that append one. *)
Definition extract_sections (stdout : stream) (full_text : str)
    (toc_entries : list toc_entry) : list record :=
  omap appended (run_loop stdout full_text toc_entries).

(** A loop over rounds whose outcomes are given: it stops at the first that
    raises. *)
Fixpoint settle (rounds : list outcome) (data : list record)
    (printed : list str) : list str * result :=
  match rounds with
  | [] => (printed, Returned data)
  | Appended r :: rounds => settle rounds (data ++ [r]) printed
  | Warned line :: rounds => settle rounds data (printed ++ [line])
  | Raised e :: _ => (printed, Raise e)
  end.

(** The warning of an entry can be written. *)
Definition printable (stdout : stream) (e : toc_entry) : Prop :=
  print stdout (warning (start_string e)) = None.

#[global] Instance printable_dec stdout e : Decision (printable stdout e).
Proof. unfold printable. apply _. Defined.

(** ** Further definitions *)

(** Does the anchor stand somewhere in the text? *)
Definition occurs (anchor text : str) : Prop :=
  exists before after, text = before ++ anchor ++ after.

(** The anchor of the entry is found in the text. *)
Definition located (text : str) (e : toc_entry) : Prop :=
  is_Some (find text (start_string e) 0).

#[global] Instance located_dec text e : Decision (located text e).
Proof. unfold located. apply _. Defined.

(** What the round of the entry [e] does, by cases on the entry: found, not
    found with a warning that can be written, not found with one that
    cannot. *)
Definition round_of (stdout : stream) (text : str) (e : toc_entry)
    (o : outcome) : Prop :=
  (located text e /\ exists r, o = Appended r /\ entry_of r = e) \/
  (~ located text e /\ printable stdout e /\
   o = Warned (warning (start_string e))) \/
  (~ located text e /\ exists exc,
     print stdout (warning (start_string e)) = Some exc /\ o = Raised exc).

(** The entries whose anchor is not in the text. *)
Definition missing (text : str) (es : list toc_entry) : list toc_entry :=
  filter (fun e => ~ located text e) es.

(** The warning of an entry. *)
Definition warning_of (e : toc_entry) : str := warning (start_string e).


(** What the look-ahead of a field pattern asks of the text [t] in front of
    it: only whitespace is left, or whitespace and then one of the stop
    labels follow. *)
Definition stop_follows (labels : list str) (t : str) : Prop :=
  Forall (fun x => is_space x = true) t \/
  exists ws l rest,
    t = ws ++ l ++ rest /\ Forall (fun x => is_space x = true) ws /\
    l ∈ labels.

(** The four text fields of a record as the source extracts them: the label,
    the stop labels of the look-ahead, and the field. *)
Definition text_fields : list (str * list str * (record -> str)) :=
  [ (lit "Info", [lit "Solution"], info);
    (lit "Solution", [lit "See Also"; lit "References"], solution);
    (lit "Audit File", [lit "Policy Value"], auditFile);
    (lit "Policy Value", [lit "Hosts"], policyValue) ].

(** A character that normalization never touches: neither whitespace nor
    the hyphen. *)
Definition solid (x : char) : Prop := is_space x = false /\ x <> HYPHEN.

#[global] Instance solid_dec x : Decision (solid x).
Proof. unfold solid. apply _. Defined.

(** ** The handler: [process_pdf]

    The route of the source that wraps the parser. [request.get_json()]
    gives the decoded body: a JSON object, read by the handler as a dict, or
    a value of another kind (null, a number, a string, an array), on which
    [data.get] raises; a body that is not JSON raises in [get_json] itself.
    Of a value in the object the handler looks at two things only: whether it
    is a string, and its truth value. *)

Inductive json_value : Type :=
  | JString (s : str)
  | JOther (truthy : bool).   (* null, a number, a boolean, an array, an object *)

(** Python's truth value: a string is true when it is not empty. *)
Definition truth (v : json_value) : bool :=
  match v with
  | JString s => bool_decide (s <> [])
  | JOther b => b
  end.

Inductive request_json : Type :=
  | JObject (data : gmap str json_value)
  | NotAnObject.

(** The body of the response: [{'results': ...}] or [{'error': ...}], the
    error being the fixed message of the empty input or the text of the
    exception that was caught. *)
Inductive response_json : Type :=
  | Results (results : list record)
  | ErrorEmpty
  | ErrorRaised.

(** [data.get(key, '')] *)
Definition get (data : gmap str json_value) (key : str) : json_value :=
  default (JString []) (data !! key).

(** The handler gives the body and the status of the response; the lines the
    parser prints meanwhile come with them. Whatever is raised inside the
    [try] is caught, and answered with status 500. *)
Definition process_pdf (stdout : stream) (request : request_json)
    : list str * (response_json * N) :=
  match request with
  | NotAnObject => ([], (ErrorRaised, 500%N))
  | JObject data =>
      let toc_text := get data (lit "toc_text") in
      let pdf_text := get data (lit "pdf_text") in
      if negb (truth toc_text) || negb (truth pdf_text)
      then ([], (ErrorEmpty, 400%N))
      else
        match toc_text, pdf_text with
        | JString toc_text, JString pdf_text =>
            match parse_pdf_text_by_toc stdout toc_text pdf_text with
            | (printed, Returned results) => (printed, (Results results, 200%N))
            | (printed, Raise _) => (printed, (ErrorRaised, 500%N))
            end
        | _, _ => ([], (ErrorRaised, 500%N))   (* [re] raises TypeError on a value that is no string *)
        end
  end.

(** What the handler makes of the way the parser ends. *)
Definition answer (run : list str * result) : list str * (response_json * N) :=
  match run with
  | (printed, Returned results) => (printed, (Results results, 200%N))
  | (printed, Raise _) => (printed, (ErrorRaised, 500%N))
  end.

(** A request the handler passes to the parser: an object whose two fields
    are strings that are not empty. *)
Definition valid (request : request_json) (toc_text pdf_text : str) : Prop :=
  exists data, request = JObject data /\
    data !! lit "toc_text" = Some (JString toc_text) /\
    data !! lit "pdf_text" = Some (JString pdf_text) /\
    toc_text <> [] /\ pdf_text <> [].

(** A field that is missing, or whose value is false in Python: null, the
    empty string, zero, [false], an empty array or object. *)
Definition falsy (data : gmap str json_value) (key : str) : Prop :=
  truth (get data key) = false.

(** Every captured group is a piece of [S]: it stands in it as it is. *)
Definition caps_occur (S : str) (c : caps) : Prop :=
  forall n g, (n, g) ∈ c -> occurs g S.

(** ** The lines of a table of contents

    A line of the table of contents in the parts the pattern of the source
    names: the numeral path, whitespace, the title, optional whitespace,
    three or more dots, optional whitespace and the page number. With them
    go the whitespace that stands between the bullet and the numeral path
    where the line has a bullet, and whatever follows the page number up to
    the next line. *)
Record toc_row : Type := {
  row_indent : str;
  row_first : str;
  row_more : list str;
  row_gap : str;
  row_title : str;
  row_fill : str;
  row_dots : nat;
  row_page_gap : str;
  row_page : str;
  row_after : str
}.

Definition row_number (r : toc_row) : str :=
  numeral_path (row_first r) (row_more r).

Definition row_line (r : toc_row) : str :=
  row_number r ++ row_gap r ++ row_title r ++ row_fill r
    ++ replicate (row_dots r) DOT ++ row_page_gap r ++ row_page r.

(** The line behind a bullet, and the line as it is. *)
Definition bulleted (r : toc_row) : str :=
  BULLET :: row_indent r ++ row_line r ++ row_after r.
Definition plain (r : toc_row) : str := row_line r ++ row_after r.

(** A table of contents: some text [pre], then the lines. *)
Definition bulleted_text (pre : str) (rows : list toc_row) : str :=
  pre ++ concat (bulleted <$> rows).
Definition plain_text (pre : str) (rows : list toc_row) : str :=
  pre ++ concat (plain <$> rows).

(** The entry of a line. *)
Definition row_entry (r : toc_row) : toc_entry :=
  {| number := row_number r; description := row_title r |}.

Definition blank (s : str) : Prop := Forall (fun x => is_space x = true) s.

(** The parts of the line are what the pattern names: the numeral path has
    at least one dot, the title is not empty, has no newline and starts with
    a character that is no whitespace. *)
Definition row_shape (r : toc_row) : Prop :=
  blank (row_indent r) /\
  digit_string (row_first r) /\ row_more r <> [] /\
  Forall digit_string (row_more r) /\
  row_gap r <> [] /\ blank (row_gap r) /\
  row_title r <> [] /\ (LF ∉ row_title r) /\
  lstrip (row_title r) = row_title r /\
  blank (row_fill r) /\ 3 <= row_dots r /\
  blank (row_page_gap r) /\ digit_string (row_page r).

(** A title in which the leader dots cannot start: it has no three dots in a
    row and ends with neither whitespace nor a dot. *)
Definition clean (title : str) : Prop :=
  rstrip title = title /\ ~ occurs [DOT; DOT; DOT] title /\
  last title <> Some DOT.

Definition no_digit (s : str) : Prop := Forall (fun x => is_digit x = false) s.

(** The head of [s], when it has one, is no digit. *)
Definition stops_digits (s : str) : Prop :=
  match s with y :: _ => is_digit y = false | [] => True end.

(** What the parser makes of a line: an entry with the numeral path of the
    line as number and, where the title is clean, with the title as
    description. *)
Definition row_parsed (r : toc_row) (e : toc_entry) : Prop :=
  number e = row_number r /\
  (clean (row_title r) -> description e = row_title r).

(** Between two lines stands at least one character. *)
Fixpoint separated (rows : list toc_row) : Prop :=
  match rows with
  | r :: (_ :: _) as rest => row_after r <> [] /\ separated rest
  | _ => True
  end.

(** Two lines: "1.1 Ensure Test Item ...... 5" with a newline behind it,
    and "1.2 Use TLS 1.2 or later ...12". *)
Definition ex_rows : list toc_row :=
  [ {| row_indent := [SP]; row_first := lit "1"; row_more := [lit "1"];
       row_gap := [SP]; row_title := lit "Ensure Test Item";
       row_fill := [SP]; row_dots := 6; row_page_gap := [SP];
       row_page := lit "5"; row_after := [LF] |};
    {| row_indent := [SP]; row_first := lit "1"; row_more := [lit "2"];
       row_gap := [SP]; row_title := lit "Use TLS 1.2 or later";
       row_fill := [SP]; row_dots := 3; row_page_gap := [];
       row_page := lit "12"; row_after := [] |} ].

(** Two lines with nothing between them: "1.1 A ...5" and "1.2 B ...6". *)
Definition adjacent_rows : list toc_row :=
  [ {| row_indent := []; row_first := lit "1"; row_more := [lit "1"];
       row_gap := [SP]; row_title := lit "A";
       row_fill := [SP]; row_dots := 3; row_page_gap := [];
       row_page := lit "5"; row_after := [] |};
    {| row_indent := []; row_first := lit "1"; row_more := [lit "2"];
       row_gap := [SP]; row_title := lit "B";
       row_fill := [SP]; row_dots := 3; row_page_gap := [];
       row_page := lit "6"; row_after := [] |} ].
(** * The matcher and its declarative reading *)

Section Matcher.

Lemma star_loop_sound {R} g (body : str -> caps -> (str -> caps -> option R) -> option R) a :
  (forall s c k res, body s c k = Some res ->
     exists s' c', matches a s c s' c' /\ k s' c' = Some res) ->
  forall n s c k res, star_loop g body n s c k = Some res ->
    exists s' c', matches (Star g a) s c s' c' /\ k s' c' = Some res.
Proof.
  intros Hbody. induction n as [|n IH]; intros s c k res H; simpl in H.
  - exists s, c. split; [constructor | done].
  - assert (Hstep : body s c (fun s' c' =>
        if Nat.ltb (length s') (length s)
        then star_loop g body n s' c' k else None) = Some res ->
      exists s' c', matches (Star g a) s c s' c' /\ k s' c' = Some res).
    { intros Hb. apply Hbody in Hb as (s1 & c1 & Ha & Hk).
      destruct (Nat.ltb_spec (length s1) (length s)) as [Hlt|]; [|done].
      apply IH in Hk as (s2 & c2 & Hs & Hk).
      exists s2, c2. split; [|done]. by eapply m_star_step. }
    assert (Hstop : k s c = Some res ->
      exists s' c', matches (Star g a) s c s' c' /\ k s' c' = Some res).
    { intros Hk. exists s, c. split; [constructor | done]. }
    destruct g.
    + destruct (body s c _) as [x|] eqn:Hb.
      * inversion H; subst. by apply Hstep.
      * by apply Hstop.
    + destruct (k s c) as [x|] eqn:Hk.
      * inversion H; subst. by apply Hstop.
      * by apply Hstep.
Qed.

(** Whatever the matcher returns comes from a match the continuation
    accepted. *)
Lemma go_sound r : forall {R} s c (k : str -> caps -> option R) res,
  go r s c k = Some res ->
  exists s' c', matches r s c s' c' /\ k s' c' = Some res.
Proof.
  induction r as [|p|a IHa b IHb|a IHa b IHb|g a IHa|n a IHa|a IHa|];
    intros R s c k res H; simpl in H.
  - exists s, c. split; [constructor | done].
  - destruct s as [|x s]; [done|]. destruct (p x) eqn:Hp; [|done].
    exists s, c. split; [by constructor | done].
  - apply IHa in H as (s1 & c1 & Ha & H).
    apply IHb in H as (s2 & c2 & Hb & H).
    exists s2, c2. split; [by econstructor | done].
  - destruct (go a s c k) as [x|] eqn:Ha.
    + inversion H; subst. apply IHa in Ha as (s' & c' & Hm & Hk).
      exists s', c'. split; [by apply m_alt_l | done].
    + apply IHb in H as (s' & c' & Hm & Hk).
      exists s', c'. split; [by apply m_alt_r | done].
  - eapply star_loop_sound; [|exact H]. intros; by apply IHa.
  - apply IHa in H as (s' & c' & Hm & Hk).
    eexists _, _. split; [by constructor | done].
  - destruct (go a s c _) as [c'|] eqn:Ha; [|done].
    exists s, c'. split; [by constructor | done].
  - destruct (at_end s) eqn:He; [|done].
    exists s, c. split; [by constructor | done].
Qed.

(** A match that the continuation accepts makes the matcher succeed. *)
Lemma go_complete r : forall s c s' c', matches r s c s' c' ->
  forall {R} (k : str -> caps -> option R) res,
    k s' c' = Some res -> is_Some (go r s c k).
Proof.
  induction r as [|p|a IHa b IHb|a IHa b IHb|g a IHa|n a IHa|a IHa|];
    intros s c s' c' Hm R k res Hk.
  - inversion Hm; subst. simpl. by rewrite Hk.
  - inversion Hm; subst. simpl.
    match goal with H : p _ = true |- _ => rewrite H end. by rewrite Hk.
  - inversion Hm; subst. simpl.
    match goal with
    | Ha : matches a _ _ ?s1 ?c1, Hb : matches b ?s1 ?c1 _ _ |- _ =>
        destruct (IHb _ _ _ _ Hb _ k res Hk) as [x Hx];
        by eapply (IHa _ _ _ _ Ha)
    end.
  - simpl. destruct (go a s c k) eqn:Ha; [done|].
    inversion Hm; subst.
    + match goal with
      | H : matches a _ _ _ _ |- _ =>
          destruct (IHa _ _ _ _ H _ k res Hk) as [x Hx]; congruence
      end.
    + by eapply IHb.
  - simpl.
    assert (Hgen : forall s c s' c', matches (Star g a) s c s' c' ->
      forall n, length s <= n -> k s' c' = Some res ->
        is_Some (star_loop g (go a) n s c k)).
    { clear s c s' c' Hm Hk. intros s c s' c' Hm.
      remember (Star g a) as r eqn:Hr.
      induction Hm as [| | | | |g' a' s c|g' a' s c s1 c1 s2 c2 Ha _ Hlt Hs IH| | |];
        try discriminate; inversion Hr; subst; intros n Hn Hk.
      - destruct n as [|n]; simpl; [by rewrite Hk|].
        destruct g.
        + by destruct (go a s c _).
        + by rewrite Hk.
      - destruct n as [|n]; [lia|]. simpl.
        match goal with
        | |- context [go a s c ?f] => assert (Hb : is_Some (go a s c f))
        end.
        { destruct (IH eq_refl n ltac:(lia) Hk) as [x Hx].
          eapply (IHa _ _ _ _ Ha).
          destruct (Nat.ltb_spec (length s1) (length s)); [exact Hx | lia]. }
        destruct Hb as [x Hx]. destruct g.
        + by rewrite Hx.
        + destruct (k s c); [done|]. by rewrite Hx. }
    by eapply Hgen.
  - inversion Hm; subst. simpl. by eapply IHa.
  - inversion Hm; subst. simpl.
    match goal with H : go a _ _ _ = Some _ |- _ => rewrite H end.
    by rewrite Hk.
  - inversion Hm; subst. simpl.
    match goal with H : at_end _ = true |- _ => rewrite H end.
    by rewrite Hk.
Qed.

End Matcher.

(** * Searching a text for an anchor *)

Section Find.

Lemma starts_with_app p t : starts_with p (p ++ t) = true.
Proof. induction p as [|x p IH]; simpl; [done|]. by rewrite N.eqb_refl. Qed.

Lemma starts_with_prefix p s : starts_with p s = true -> exists t, s = p ++ t.
Proof.
  revert s. induction p as [|x p IH]; intros s H; simpl in *.
  - by exists s.
  - destruct s as [|y s]; [done|].
    apply andb_prop in H as [Hxy H]. apply N.eqb_eq in Hxy as ->.
    destruct (IH _ H) as [t ->]. by exists t.
Qed.

(** [find_in] returns the first offset at which the anchor stands. *)
Lemma find_in_Some p s i :
  find_in p s = Some i ->
  starts_with p (drop i s) = true /\
  forall j, j < i -> starts_with p (drop j s) = false.
Proof.
  revert i. induction s as [|x s IH]; intros i H; simpl in H.
  - destruct (starts_with p []) eqn:Hp; [|done].
    inversion H; subst. split; [exact Hp | lia].
  - destruct (starts_with p (x :: s)) eqn:Hp.
    + inversion H; subst. split; [exact Hp | lia].
    + destruct (find_in p s) as [i'|] eqn:Hf; [|done].
      inversion H; subst. destruct (IH _ eq_refl) as [H1 H2].
      split; [done|]. intros [|j] Hj; [done|]. simpl. apply H2. lia.
Qed.

Lemma find_in_None p s j : find_in p s = None -> starts_with p (drop j s) = false.
Proof.
  revert j. induction s as [|x s IH]; intros j H; simpl in H.
  - destruct (starts_with p []) eqn:Hp; [done|]. by destruct j.
  - destruct (starts_with p (x :: s)) eqn:Hp; [done|].
    destruct (find_in p s) eqn:Hf; [done|].
    destruct j as [|j]; [done|]. simpl. by apply IH.
Qed.

Lemma find_0 s p : find s p 0 = find_in p s.
Proof. unfold find. simpl. rewrite drop_0. by destruct (find_in p s). Qed.

Lemma find_None_from s p n : find s p 0 = None -> find s p n = None.
Proof.
  rewrite find_0. intros H. unfold find.
  destruct (Nat.leb n (length s)); [|done].
  destruct (find_in p (drop n s)) as [i|] eqn:Hf; [|done].
  apply find_in_Some in Hf as [Hf _]. rewrite drop_drop in Hf.
  by rewrite (find_in_None _ _ _ H) in Hf.
Qed.

End Find.

(** * The loop over the table of contents *)

Section Loop.

Lemma loop_body_next stdout text es es' i i' e :
  es !! (i + 1) = es' !! (i' + 1) ->
  loop_body stdout text es i e = loop_body stdout text es' i' e.
Proof. intros H. unfold loop_body. by rewrite H. Qed.

Lemma run_loop_app stdout text pre es :
  run_loop stdout text (pre ++ es) =
  imap (loop_body stdout text (pre ++ es)) pre ++ run_loop stdout text es.
Proof.
  unfold run_loop. rewrite imap_app. f_equal.
  apply imap_ext. intros i e _. simpl.
  apply loop_body_next.
  rewrite lookup_app_r by lia. f_equal. lia.
Qed.

Lemma run_loop_cons stdout text e es :
  run_loop stdout text (e :: es) = loop_body stdout text (e :: es) 0 e :: run_loop stdout text es.
Proof. apply (run_loop_app stdout text [e] es). Qed.

(** The rounds of the entries before [p] do not depend on what follows [p]. *)
Lemma imap_loop_body_before stdout text pre p post post' :
  imap (loop_body stdout text (pre ++ p :: post)) pre =
  imap (loop_body stdout text (pre ++ p :: post')) pre.
Proof.
  apply imap_ext. intros i e Hi. apply loop_body_next.
  apply lookup_lt_Some in Hi.
  destruct (decide (i + 1 < length pre)) as [Hlt|Hge].
  - by rewrite !lookup_app_l by lia.
  - rewrite !lookup_app_r by lia.
    by replace (i + 1 - length pre) with 0 by lia.
Qed.

Lemma extract_sections_app stdout text pre es :
  extract_sections stdout text (pre ++ es) =
  omap appended (imap (loop_body stdout text (pre ++ es)) pre) ++
  extract_sections stdout text es.
Proof. unfold extract_sections. by rewrite run_loop_app, omap_app. Qed.

Lemma extract_sections_cons stdout text e es :
  extract_sections stdout text (e :: es) =
  option_list (appended (loop_body stdout text (e :: es) 0 e)) ++
  extract_sections stdout text es.
Proof.
  unfold extract_sections. rewrite run_loop_cons. simpl.
  by destruct (appended (loop_body stdout text (e :: es) 0 e)).
Qed.

Lemma loop_body_not_found stdout text es i e :
  find text (start_string e) 0 = None ->
  print stdout (warning (start_string e)) = None ->
  loop_body stdout text es i e = Warned (warning (start_string e)).
Proof. intros H Hp. unfold loop_body. by rewrite H, Hp. Qed.

Lemma loop_body_raises stdout text es i e exc :
  find text (start_string e) 0 = None ->
  print stdout (warning (start_string e)) = Some exc ->
  loop_body stdout text es i e = Raised exc.
Proof. intros H Hp. unfold loop_body. by rewrite H, Hp. Qed.

Lemma appended_not_found stdout text es i e :
  find text (start_string e) 0 = None ->
  appended (loop_body stdout text es i e) = None.
Proof.
  intros H. unfold loop_body. rewrite H.
  by destruct (print stdout (warning (start_string e))).
Qed.

(** The loop of the source is the loop over the outcomes of its rounds. *)
Lemma for_loop_settle stdout text es i todo data printed :
  for_loop stdout text es i todo data printed
  = settle (imap (fun j => loop_body stdout text es (i + j)) todo) data printed.
Proof.
  revert i data printed.
  induction todo as [|e todo IH]; intros i data printed; [done|].
  cbn [for_loop]. rewrite imap_cons. cbn [settle].
  rewrite Nat.add_0_r.
  assert (Heq : imap ((fun j => loop_body stdout text es (i + j)) ∘ S) todo
                = imap (fun j => loop_body stdout text es (S i + j)) todo).
  { apply imap_ext. intros j x _. simpl. f_equal. lia. }
  rewrite Heq.
  destruct (loop_body stdout text es i e); by rewrite ?IH.
Qed.

Lemma parse_settle stdout toc_text full_text :
  parse_pdf_text_by_toc stdout toc_text full_text
  = settle (run_loop stdout (normalize full_text) (parse_toc toc_text)) [] [].
Proof. unfold parse_pdf_text_by_toc. by rewrite for_loop_settle. Qed.

(** A loop that returns has run every round. *)
Lemma settle_returned rounds data0 printed0 printed data :
  settle rounds data0 printed0 = (printed, Returned data) ->
  data = data0 ++ omap appended rounds /\
  printed = printed0 ++ omap warned rounds /\
  omap raised rounds = [].
Proof.
  revert data0 printed0.
  induction rounds as [|o rounds IH]; intros data0 printed0 H.
  - simpl in H. inversion H; subst. by rewrite !app_nil_r.
  - destruct o as [r|line|exc]; cbn [settle] in H; [| |done].
    + apply IH in H as (-> & -> & Hr). by rewrite <- app_assoc.
    + apply IH in H as (-> & -> & Hr). by rewrite <- app_assoc.
Qed.

(** A loop that raises has run the rounds before the first that raises. *)
Lemma settle_raise rounds data0 printed0 printed exc :
  settle rounds data0 printed0 = (printed, Raise exc) ->
  exists before after,
    rounds = before ++ Raised exc :: after /\
    omap raised before = [] /\
    printed = printed0 ++ omap warned before.
Proof.
  revert data0 printed0.
  induction rounds as [|o rounds IH]; intros data0 printed0 H; [done|].
  destruct o as [r|line|e]; cbn [settle] in H.
  - apply IH in H as (before & after & -> & Hb & ->).
    by exists (Appended r :: before), after.
  - apply IH in H as (before & after & -> & Hb & ->).
    exists (Warned line :: before), after. by rewrite <- app_assoc.
  - inversion H; subst. exists [], rounds. by rewrite app_nil_r.
Qed.

(** What a call returns are the records of the rounds that append one. *)
Lemma parse_returned stdout toc_text full_text printed data :
  parse_pdf_text_by_toc stdout toc_text full_text = (printed, Returned data) ->
  data = extract_sections stdout (normalize full_text) (parse_toc toc_text) /\
  printed = omap warned
              (run_loop stdout (normalize full_text) (parse_toc toc_text)).
Proof.
  rewrite parse_settle. intros H.
  by apply settle_returned in H as (-> & -> & _).
Qed.

Lemma section_end_not_found text e p start :
  find text (start_string e) 0 = None ->
  section_end text (Some e) p start = length text.
Proof.
  intros H. unfold section_end. by rewrite (find_None_from _ _ _ H).
Qed.

End Loop.

Section Order.

Lemma appended_entry stdout text es i e r :
  appended (loop_body stdout text es i e) = Some r -> entry_of r = e.
Proof.
  unfold loop_body.
  destruct (find text (start_string e) 0);
    [|by destruct (print stdout (warning (start_string e)))].
  simpl. intros H. inversion H; subst. by destruct e.
Qed.

Lemma omap_imap_sublist (f : nat -> toc_entry -> outcome) es :
  (forall i e r, appended (f i e) = Some r -> entry_of r = e) ->
  sublist (entry_of <$> omap appended (imap f es)) es.
Proof.
  revert f. induction es as [|e es IH]; intros f Hf; simpl; [constructor|].
  destruct (appended (f 0 e)) as [r|] eqn:Hr; simpl.
  - rewrite (Hf _ _ _ Hr). apply sublist_skip, IH. intros i; apply Hf.
  - apply sublist_cons, IH. intros i; apply Hf.
Qed.

Lemma extract_sections_sublist stdout text es :
  sublist (entry_of <$> extract_sections stdout text es) es.
Proof. apply omap_imap_sublist. intros i e r. apply appended_entry. Qed.

End Order.

(** * Facts about the matcher *)

Section MatcherFacts.

Lemma matches_suffix r s c s' c' : matches r s c s' c' -> s' `suffix_of` s.
Proof.
  induction 1; try done.
  - by apply suffix_cons_r.
  - by etrans.
  - by etrans.
Qed.

Lemma consumed_app m s : consumed (m ++ s) s = m.
Proof.
  unfold consumed. rewrite length_app.
  replace (length m + length s - length s) with (length m) by lia.
  by rewrite take_app_length.
Qed.

Lemma consumed_subseteq s s' : consumed s s' ⊆ s.
Proof. unfold consumed. apply subseteq_take. Qed.

(** The matcher takes the only match its continuation accepts. *)
Lemma go_unique {R} r s c (k : str -> caps -> option R) s1 c1 :
  matches r s c s1 c1 ->
  (forall s' c', matches r s c s' c' -> (s', c') <> (s1, c1) -> k s' c' = None) ->
  go r s c k = k s1 c1.
Proof.
  intros Hm Hother. destruct (go r s c k) as [res|] eqn:Hgo.
  - apply go_sound in Hgo as (s' & c' & Hm' & Hk).
    destruct (decide ((s', c') = (s1, c1))) as [Heq|Hne].
    + inversion Heq; subst. done.
    + rewrite (Hother _ _ Hm' Hne) in Hk. done.
  - destruct (k s1 c1) as [res|] eqn:Hk; [|done].
    destruct (go_complete _ _ _ _ _ Hm _ _ Hk) as [x Hx]. congruence.
Qed.

Lemma go_None {R} r s c (k : str -> caps -> option R) :
  (forall s' c', matches r s c s' c' -> k s' c' = None) -> go r s c k = None.
Proof.
  intros H. destruct (go r s c k) as [res|] eqn:Hgo; [|done].
  apply go_sound in Hgo as (s' & c' & Hm & Hk). by rewrite (H _ _ Hm) in Hk.
Qed.

Lemma match_at_Some r s s' c :
  match_at r s = Some (s', c) -> matches r s [] s' c.
Proof.
  intros H. apply go_sound in H as (s1 & c1 & Hm & Hk). by inversion Hk; subst.
Qed.

Lemma match_at_None r s :
  (forall s' c, ~ matches r s [] s' c) -> match_at r s = None.
Proof.
  intros H. destruct (match_at r s) as [[s' c]|] eqn:Hm; [|done].
  apply match_at_Some in Hm. by apply H in Hm.
Qed.

(** ** Inversion of the matches of the building blocks *)

Lemma matches_chr p s c s' c' :
  matches (Chr p) s c s' c' -> exists x, s = x :: s' /\ p x = true /\ c' = c.
Proof. inversion 1; subst. eauto. Qed.

Lemma matches_class_star g p s c s' c' :
  matches (Star g (Chr p)) s c s' c' ->
  exists m, s = m ++ s' /\ Forall (fun x => p x = true) m /\ c' = c.
Proof.
  intros H. remember (Star g (Chr p)) as r eqn:Hr.
  induction H; try discriminate; inversion Hr; subst.
  - by exists [].
  - apply matches_chr in H as (x & -> & Hx & ->).
    destruct (IHmatches2 eq_refl) as (m & -> & Hm & ->).
    exists (x :: m). split; [done|]. split; [by constructor | done].
Qed.

Lemma matches_class_plus g p s c s' c' :
  matches (plus g (Chr p)) s c s' c' ->
  exists x m, s = x :: m ++ s' /\ p x = true /\
    Forall (fun x => p x = true) m /\ c' = c.
Proof.
  inversion 1; subst.
  match goal with
  | H1 : matches (Chr p) _ _ _ _, H2 : matches (Star g (Chr p)) _ _ _ _ |- _ =>
      apply matches_chr in H1 as (x & -> & Hx & ->);
      apply matches_class_star in H2 as (m & -> & Hm & ->)
  end.
  by exists x, m.
Qed.

Lemma matches_text w s c s' c' :
  matches (text w) s c s' c' -> s = w ++ s' /\ c' = c.
Proof.
  revert s c. induction w as [|x w IH]; intros s c H; simpl in H.
  - by inversion H; subst.
  - inversion H; subst.
    match goal with
    | H1 : matches (Chr _) _ _ _ _, H2 : matches (text w) _ _ _ _ |- _ =>
        apply matches_chr in H1 as (y & -> & Hy & ->);
        apply IH in H2 as [-> ->]
    end.
    apply N.eqb_eq in Hy as ->. done.
Qed.

(** ** Construction of matches *)

Lemma matches_class_star_intro g p m s c :
  Forall (fun x => p x = true) m -> matches (Star g (Chr p)) (m ++ s) c s c.
Proof.
  induction 1 as [|x m Hx Hm IH]; simpl; [constructor|].
  eapply m_star_step; [by constructor | simpl; lia | done].
Qed.

Lemma matches_class_plus_intro g p x m s c :
  p x = true -> Forall (fun x => p x = true) m ->
  matches (plus g (Chr p)) (x :: m ++ s) c s c.
Proof.
  intros Hx Hm. eapply m_seq; [by constructor|].
  by apply matches_class_star_intro.
Qed.

End MatcherFacts.

(** * Repetition of a character class, and the scans *)

Section Scans.

Local Ltac at_start H :=
  let H0 := fresh in
  (pose proof (H 0 ltac:(simpl; lia)) as H0 || pose proof (H 0) as H0);
  rewrite drop_0 in H0; simpl in H0; rewrite H0; clear H0.

Lemma star_greedy_class {R} p n s c (k : str -> caps -> option R) :
  length s <= n ->
  star_loop true (go (Chr p)) n s c k = greedy_run p s c k.
Proof.
  revert s. induction n as [|n IH]; intros s Hn.
  - destruct s; [done | simpl in Hn; lia].
  - destruct s as [|x t]; simpl; [done|].
    destruct (p x); [|done].
    destruct (Nat.ltb_spec (length t) (S (length t))); [|lia].
    rewrite IH by (simpl in Hn; lia). done.
Qed.

Lemma star_lazy_class {R} p n s c (k : str -> caps -> option R) :
  length s <= n ->
  star_loop false (go (Chr p)) n s c k = lazy_run p s c k.
Proof.
  revert s. induction n as [|n IH]; intros s Hn.
  - destruct s; [|simpl in Hn; lia]. simpl. by destruct (k [] c).
  - destruct s as [|x t]; simpl.
    + by destruct (k [] c).
    + destruct (k (x :: t) c); [done|].
      destruct (p x); [|done].
      destruct (Nat.ltb_spec (length t) (S (length t))); [|lia].
      rewrite IH by (simpl in Hn; lia). done.
Qed.

Lemma go_star_greedy_class {R} p s c (k : str -> caps -> option R) :
  go (Star true (Chr p)) s c k = greedy_run p s c k.
Proof. simpl. by apply star_greedy_class. Qed.

Lemma go_star_lazy_class {R} p s c (k : str -> caps -> option R) :
  go (Star false (Chr p)) s c k = lazy_run p s c k.
Proof. simpl. by apply star_lazy_class. Qed.

(** A greedy run whose longest choice the continuation accepts. *)
Lemma greedy_run_longest {R} p m s c (k : str -> caps -> option R) res :
  Forall (fun x => p x = true) m ->
  match s with x :: _ => p x = false | [] => True end ->
  k s c = Some res ->
  greedy_run p (m ++ s) c k = Some res.
Proof.
  intros Hm Hs Hk. induction Hm as [|x m Hx Hm IH]; simpl.
  - destruct s as [|y t]; [done|]. simpl. by rewrite Hs.
  - by rewrite Hx, IH.
Qed.

(** [re.search] finds a match at the offset it reports, and none before. *)
Lemma search_Some r s i s' c :
  search r s = Some (i, s', c) ->
  match_at r (drop i s) = Some (s', c) /\
  forall j, j < i -> match_at r (drop j s) = None.
Proof.
  revert i. induction s as [|x t IH]; intros i H; simpl in H.
  - destruct (match_at r []) as [[s1 c1]|] eqn:Hm; [|done].
    inversion H; subst. split; [done | lia].
  - destruct (match_at r (x :: t)) as [[s1 c1]|] eqn:Hm.
    + inversion H; subst. split; [done | lia].
    + destruct (search r t) as [[[i' s1] c1]|] eqn:Hs; [|done].
      inversion H; subst. destruct (IH _ eq_refl) as [H1 H2].
      split; [done|]. intros [|j] Hj; [done|]. apply H2. lia.
Qed.

Lemma search_None r s j : search r s = None -> match_at r (drop j s) = None.
Proof.
  revert j. induction s as [|x t IH]; intros j H; simpl in H.
  - destruct (match_at r []) as [[s1 c1]|] eqn:Hm; [done|]. by destruct j.
  - destruct (match_at r (x :: t)) as [[s1 c1]|] eqn:Hm; [done|].
    destruct (search r t) as [[[i' s1] c1]|] eqn:Hs; [done|].
    destruct j as [|j]; [done|]. by apply IH.
Qed.

Lemma search_no_match r s :
  (forall j, match_at r (drop j s) = None) -> search r s = None.
Proof.
  induction s as [|x t IH]; intros H; simpl.
  - by at_start H.
  - at_start H. rewrite IH; [done|]. intros j. apply (H (S j)).
Qed.

(** The search passes over a prefix in which no match starts. *)
Lemma search_skip r pre s :
  (forall j, j < length pre -> match_at r (drop j (pre ++ s)) = None) ->
  search r (pre ++ s) =
  match search r s with
  | Some (i, s', c) => Some (length pre + i, s', c)
  | None => None
  end.
Proof.
  induction pre as [|x pre IH]; intros H; simpl.
  - by destruct (search r s) as [[[i s'] c]|].
  - at_start H. rewrite IH.
    + by destruct (search r s) as [[[i s'] c]|].
    + intros j Hj. apply (H (S j)). simpl. lia.
Qed.

(** A substitution changes nothing in a text in which the pattern has no
    match. *)
Lemma sub_no_match r repl s :
  (forall j, match_at r (drop j s) = None) -> sub r repl s = s.
Proof.
  unfold sub. induction s as [|x t IH]; intros H; simpl.
  - by at_start H.
  - at_start H. f_equal. apply IH. intros j. apply (H (S j)).
Qed.

Lemma sub_from_skip r repl n s :
  n <= length s ->
  sub_from r repl n s = sub_from r repl 0 (drop n s).
Proof.
  revert s. induction n as [|n IH]; intros s Hn; [done|].
  destruct s as [|x t]; simpl in *; [lia|]. apply IH. lia.
Qed.

Lemma findall_from_skip r n s :
  n <= length s ->
  findall_from r n s = findall_from r 0 (drop n s).
Proof.
  revert s. induction n as [|n IH]; intros s Hn; [done|].
  destruct s as [|x t]; simpl in *; [lia|]. apply IH. lia.
Qed.

Lemma findall_no_match r s :
  (forall j, match_at r (drop j s) = None) -> findall r s = [].
Proof.
  unfold findall. induction s as [|x t IH]; intros H; simpl.
  - by at_start H.
  - at_start H. apply IH. intros j. apply (H (S j)).
Qed.

Lemma findall_skip r pre s :
  (forall j, j < length pre -> match_at r (drop j (pre ++ s)) = None) ->
  findall r (pre ++ s) = findall r s.
Proof.
  unfold findall. induction pre as [|x pre IH]; intros H; simpl; [done|].
  at_start H. apply IH.
  intros j Hj. apply (H (S j)). simpl. lia.
Qed.

End Scans.

(** * Whitespace: [strip] and the normal form *)

Section Whitespace.

Lemma lstrip_suffix s : lstrip s `suffix_of` s.
Proof.
  induction s as [|x t IH]; simpl; [done|].
  destruct (is_space x); [by apply suffix_cons_r | done].
Qed.

Lemma lstrip_head s :
  match lstrip s with x :: _ => is_space x = false | [] => True end.
Proof.
  induction s as [|x t IH]; simpl; [done|].
  destruct (is_space x) eqn:Hx; [done | by rewrite Hx].
Qed.

Lemma lstrip_fix s :
  match s with x :: _ => is_space x = false | [] => True end -> lstrip s = s.
Proof. destruct s as [|x t]; simpl; [done|]. by intros ->. Qed.

Lemma lstrip_idemp s : lstrip (lstrip s) = lstrip s.
Proof. apply lstrip_fix, lstrip_head. Qed.

Lemma lstrip_drop s : lstrip s = drop (length s - length (lstrip s)) s.
Proof.
  destruct (lstrip_suffix s) as [k Hk].
  remember (lstrip s) as l eqn:Hl. clear Hl. subst s.
  rewrite length_app.
  replace (length k + length l - length l) with (length k) by lia.
  by rewrite drop_app_length.
Qed.

Lemma rstrip_prefix s : rstrip s `prefix_of` s.
Proof.
  unfold rstrip. apply prefix_suffix_reverse.
  rewrite reverse_involutive. apply lstrip_suffix.
Qed.

Lemma rstrip_idemp s : rstrip (rstrip s) = rstrip s.
Proof. unfold rstrip. by rewrite reverse_involutive, lstrip_idemp. Qed.

Lemma lstrip_rstrip s :
  match s with x :: _ => is_space x = false | [] => True end ->
  lstrip (rstrip s) = rstrip s.
Proof.
  intros Hs. apply lstrip_fix.
  destruct (rstrip_prefix s) as [k Hk].
  destruct (rstrip s) as [|y r]; [done|].
  by subst s.
Qed.

Lemma strip_idemp s : strip (strip s) = strip s.
Proof.
  unfold strip. rewrite lstrip_rstrip by apply lstrip_head.
  apply rstrip_idemp.
Qed.

Lemma strip_subseteq s : strip s ⊆ s.
Proof.
  unfold strip. intros x Hx.
  eapply elem_of_suffix; [|apply lstrip_suffix].
  eapply elem_of_prefix; [exact Hx | apply rstrip_prefix].
Qed.

Lemma well_spaced_cons x t : well_spaced (x :: t) = true -> well_spaced t = true.
Proof. simpl. intros H. by apply andb_prop in H as [_ H]. Qed.

Lemma well_spaced_suffix s s' :
  s' `suffix_of` s -> well_spaced s = true -> well_spaced s' = true.
Proof.
  intros [k ->]. induction k as [|x k IH]; [done|].
  intros H. apply IH. by apply well_spaced_cons in H.
Qed.

Lemma well_spaced_prefix a b : well_spaced (a ++ b) = true -> well_spaced a = true.
Proof.
  induction a as [|x a IH]; [done|]. simpl.
  intros H. apply andb_prop in H as [Hx H]. rewrite (IH H), andb_true_r.
  destruct (is_space x); [|done].
  apply andb_prop in Hx as [-> Hx]. simpl.
  destruct a as [|y a]; [done|]. exact Hx.
Qed.

Lemma well_spaced_strip s : well_spaced s = true -> well_spaced (strip s) = true.
Proof.
  intros H. unfold strip.
  destruct (rstrip_prefix (lstrip s)) as [k Hk].
  apply (well_spaced_prefix _ k). rewrite <- Hk.
  apply (well_spaced_suffix s); [apply lstrip_suffix | done].
Qed.

Lemma well_spaced_space s x :
  well_spaced s = true -> x ∈ s -> is_space x = true -> x = SP.
Proof.
  induction s as [|y t IH]; intros H Hx Hs.
  - by apply elem_of_nil in Hx.
  - apply elem_of_cons in Hx as [->|Hx].
    + simpl in H. rewrite Hs in H.
      apply andb_prop in H as [H _]. apply andb_prop in H as [H _].
      by apply N.eqb_eq in H.
    + apply IH; [|done..]. by apply well_spaced_cons in H.
Qed.

Lemma well_spaced_no_newline s : well_spaced s = true -> LF ∉ s.
Proof.
  intros H Hin. by pose proof (well_spaced_space s LF H Hin eq_refl).
Qed.

(** ** The substitution of [\s+] by a space *)

Lemma greedy_run_spaces {R} s c (f : str -> caps -> R) :
  greedy_run is_space s c (fun s' c' => Some (f s' c')) = Some (f (lstrip s) c).
Proof.
  induction s as [|x t IH]; simpl; [done|].
  destruct (is_space x); [by rewrite IH | done].
Qed.

Lemma match_at_spaces s :
  match_at re_spaces s =
  match s with
  | x :: t => if is_space x then Some (lstrip t, []) else None
  | [] => None
  end.
Proof.
  unfold match_at, re_spaces, plus.
  destruct s as [|x t]; [done|].
  change (go (Seq (Chr is_space) (Star true (Chr is_space))) (x :: t) []
            (fun s' c => Some (s', c)))
    with (if is_space x
          then go (Star true (Chr is_space)) t [] (fun s' c => Some (s', c))
          else None).
  destruct (is_space x); [|done].
  rewrite go_star_greedy_class. apply greedy_run_spaces.
Qed.

Lemma sub_spaces_cons x t :
  sub re_spaces [SP] (x :: t) =
  if is_space x then SP :: sub re_spaces [SP] (lstrip t)
  else x :: sub re_spaces [SP] t.
Proof.
  unfold sub. cbn [sub_from]. rewrite match_at_spaces.
  destruct (is_space x); [|done].
  pose proof (suffix_length _ _ (lstrip_suffix t)) as Hlen.
  replace (length (x :: t) - length (lstrip t))
    with (S (length t - length (lstrip t))) by (simpl; lia).
  simpl. f_equal. rewrite sub_from_skip by lia. by rewrite <- lstrip_drop.
Qed.

Lemma sub_spaces_well_spaced s : well_spaced (sub re_spaces [SP] s) = true.
Proof.
  remember (length s) as n eqn:Hn. revert s Hn.
  induction n as [n IH] using lt_wf_ind. intros s Hn.
  destruct s as [|x t]; [done|]. rewrite sub_spaces_cons.
  destruct (is_space x) eqn:Hx.
  - pose proof (suffix_length _ _ (lstrip_suffix t)) as Hlen.
    pose proof (lstrip_head t) as Hhead.
    assert (Hrec : well_spaced (sub re_spaces [SP] (lstrip t)) = true).
    { apply (IH (length (lstrip t))); [simpl in Hn; lia | done]. }
    simpl. rewrite Hrec, andb_true_r.
    destruct (lstrip t) as [|y t']; [done|].
    rewrite sub_spaces_cons, Hhead. simpl. by rewrite Hhead.
  - simpl. rewrite Hx. simpl. apply (IH (length t)); [simpl in Hn; lia | done].
Qed.

Lemma sub_spaces_fix s : well_spaced s = true -> sub re_spaces [SP] s = s.
Proof.
  induction s as [|x t IH]; intros H; [done|].
  rewrite sub_spaces_cons. pose proof (well_spaced_cons _ _ H) as Ht.
  simpl in H. destruct (is_space x) eqn:Hx.
  - apply andb_prop in H as [H _]. apply andb_prop in H as [Hsp Hnext].
    apply N.eqb_eq in Hsp as ->. f_equal.
    rewrite lstrip_fix; [by apply IH|].
    destruct t as [|y t']; [done|]. by apply negb_true_iff in Hnext.
  - f_equal. by apply IH.
Qed.

End Whitespace.

(** * The normalization *)

Section Normalize.

Lemma matches_seq a b s c s' c' :
  matches (Seq a b) s c s' c' ->
  exists s1 c1, matches a s c s1 c1 /\ matches b s1 c1 s' c'.
Proof. inversion 1; subst. eauto. Qed.

Lemma matches_newline s c s' c' :
  matches newline s c s' c' -> s = LF :: s' /\ c' = c.
Proof.
  intros H. apply matches_chr in H as (x & -> & Hx & ->).
  by apply N.eqb_eq in Hx as <-.
Qed.

(** The three patterns of the line breaks match only where a newline is. *)
Lemma line_break_needs_newline s c s' c' :
  matches re_line_break s c s' c' -> LF ∈ s.
Proof.
  intros H. apply matches_seq in H as (s1 & c1 & H1 & H).
  apply matches_seq in H as (s2 & c2 & H2 & _).
  apply matches_newline in H2 as [-> _].
  eapply elem_of_suffix; [|exact (matches_suffix _ _ _ _ _ H1)].
  apply elem_of_cons. by left.
Qed.

Lemma dot_break_needs_newline s c s' c' :
  matches re_dot_break s c s' c' -> LF ∈ s.
Proof.
  intros H. apply matches_seq in H as (s1 & c1 & H1 & H).
  apply matches_seq in H as (s2 & c2 & H2 & _).
  apply matches_newline in H2 as [-> _].
  eapply elem_of_suffix; [|exact (matches_suffix _ _ _ _ _ H1)].
  apply elem_of_cons. by left.
Qed.

Lemma hyphen_break_needs_newline s c s' c' :
  matches re_hyphen_break s c s' c' -> LF ∈ s.
Proof.
  intros H. apply matches_seq in H as (s0 & c0 & H0 & H).
  apply matches_seq in H as (s1 & c1 & H1 & H).
  apply matches_seq in H as (s2 & c2 & H2 & _).
  apply matches_newline in H2 as [-> _].
  eapply elem_of_suffix; [|exact (matches_suffix _ _ _ _ _ H0)].
  eapply elem_of_suffix; [|exact (matches_suffix _ _ _ _ _ H1)].
  apply elem_of_cons. by left.
Qed.

Lemma sub_without_newline r repl s :
  (forall s0 c s' c', matches r s0 c s' c' -> LF ∈ s0) ->
  LF ∉ s -> sub r repl s = s.
Proof.
  intros Hr Hs. apply sub_no_match. intros j.
  apply match_at_None. intros s' c Hm. apply Hs.
  eapply elem_of_suffix; [exact (Hr _ _ _ _ Hm) | apply suffix_drop].
Qed.

Lemma normalize_normalized s : normalized (normalize s).
Proof.
  unfold normalize, normalized. split.
  - apply well_spaced_strip, sub_spaces_well_spaced.
  - apply strip_idemp.
Qed.

Lemma normalized_fix s : normalized s -> normalize s = s.
Proof.
  intros [Hw Hs]. pose proof (well_spaced_no_newline _ Hw) as Hnl.
  unfold normalize.
  rewrite (sub_without_newline re_dot_break) by eauto using dot_break_needs_newline.
  rewrite (sub_without_newline re_hyphen_break) by eauto using hyphen_break_needs_newline.
  rewrite (sub_without_newline re_line_break) by eauto using line_break_needs_newline.
  by rewrite sub_spaces_fix.
Qed.

Lemma normalize_no_newline s : LF ∉ normalize s.
Proof. apply well_spaced_no_newline, normalize_normalized. Qed.

End Normalize.

(** * What the groups of a match hold *)

Section Groups.

Lemma caps_in_nil S : caps_in S [].
Proof. intros n g H. by apply elem_of_nil in H. Qed.

Lemma star_caps_in g a :
  (forall s c s' c' S, matches a s c s' c' -> s ⊆ S -> caps_in S c -> caps_in S c') ->
  forall s c s' c' S, matches (Star g a) s c s' c' ->
    s ⊆ S -> caps_in S c -> caps_in S c'.
Proof.
  intros IHa s c s' c' S H. remember (Star g a) as r eqn:Hr.
  induction H; try discriminate; inversion Hr; subst; intros Hs Hc; [done|].
  apply IHmatches2; [done| |by eapply IHa].
  intros x Hx. apply Hs.
  eapply elem_of_suffix; [exact Hx | by eapply matches_suffix].
Qed.

(** The groups of a match are pieces of the matched text. *)
Lemma matches_caps_in r : forall s c s' c' S,
  matches r s c s' c' -> s ⊆ S -> caps_in S c -> caps_in S c'.
Proof.
  induction r as [|p|a IHa b IHb|a IHa b IHb|g a IHa|n a IHa|a IHa|];
    intros s c s' c' S Hm Hs Hc.
  - by inversion Hm; subst.
  - by inversion Hm; subst.
  - apply matches_seq in Hm as (s1 & c1 & H1 & H2).
    eapply IHb; [exact H2| |by eapply IHa].
    intros x Hx. apply Hs.
    eapply elem_of_suffix; [exact Hx | by eapply matches_suffix].
  - inversion Hm; subst; [by eapply IHa | by eapply IHb].
  - by eapply star_caps_in.
  - inversion Hm; subst. intros m g Hg.
    apply elem_of_cons in Hg as [Hg|Hg].
    + inversion Hg; subst. etrans; [apply consumed_subseteq | done].
    + match goal with
      | H : matches a _ _ _ _ |- _ => by apply (IHa _ _ _ _ S H Hs Hc m)
      end.
  - inversion Hm; subst.
    match goal with
    | H : go a _ _ _ = Some _ |- _ =>
        apply go_sound in H as (s1 & c1 & H1 & Hk)
    end.
    inversion Hk; subst. by eapply IHa.
  - by inversion Hm; subst.
Qed.

Lemma group_elem n c g : group n c = Some g -> (n, g) ∈ c.
Proof.
  induction c as [|[m h] c IH]; simpl; [done|].
  destruct (Nat.eqb_spec n m) as [->|Hne].
  - intros H. inversion H; subst. apply list_elem_of_here.
  - intros H. apply list_elem_of_further. by apply IH.
Qed.

Lemma group_text_subseteq n c S : caps_in S c -> group_text n c ⊆ S.
Proof.
  intros Hc. unfold group_text. destruct (group n c) as [g|] eqn:Hg; simpl.
  - by apply (Hc n), group_elem.
  - apply list_subseteq_nil.
Qed.

Lemma search_caps_in r s i s' m : search r s = Some (i, s', m) -> caps_in s m.
Proof.
  intros H. apply search_Some in H as [H _]. apply match_at_Some in H.
  eapply matches_caps_in; [exact H | apply subseteq_drop | apply caps_in_nil].
Qed.

Lemma field_subseteq r s g : field r s = Some g -> g ⊆ s.
Proof.
  unfold field. destruct (search r s) as [[[i s'] m]|] eqn:Hs; [|done].
  intros H. inversion H; subst. etrans; [apply strip_subseteq|].
  eapply group_text_subseteq, search_caps_in, Hs.
Qed.

Lemma split_on_absent sep g : sep ∉ g -> split_on sep g = [g].
Proof.
  induction g as [|x g IH]; intros H; simpl; [done|].
  apply not_elem_of_cons in H as [Hx Hg].
  destruct (N.eqb_spec x sep) as [->|_]; [done|]. by rewrite IH.
Qed.

(** A field pattern matches only where its label stands. *)
Lemma field_label_absent label labels s :
  label_absent label s -> field (re_field label labels) s = None.
Proof.
  intros Habs. unfold field. rewrite search_no_match; [done|].
  intros j. apply match_at_None. intros s' c Hm.
  apply matches_seq in Hm as (s1 & c1 & H1 & _).
  apply matches_text in H1 as [H1 _].
  specialize (Habs j). by rewrite H1, starts_with_app in Habs.
Qed.

Lemma slice_subseteq s i j : slice s i j ⊆ s.
Proof. unfold slice. etrans; [apply subseteq_take | apply subseteq_drop]. Qed.

(** Every returned record is made from an entry of the table of contents and
    a piece of the normalized text. *)
Lemma extract_sections_elem stdout text es r :
  r ∈ extract_sections stdout text es ->
  exists e i j, e ∈ es /\ r = extract e (slice text i j).
Proof.
  unfold extract_sections, run_loop. intros H.
  apply list_elem_of_omap in H as (o & Ho & Hr).
  apply elem_of_lookup_imap in Ho as (i & e & -> & He).
  unfold loop_body in Hr.
  destruct (find text (start_string e) 0) as [start|];
    [|by destruct (print stdout (warning (start_string e)))].
  simpl in Hr. inversion Hr; subst.
  eexists e, _, _. split; [|done]. by eapply list_elem_of_lookup_2.
Qed.

End Groups.

(** * The status of a section *)

Section Status.

Lemma matches_group n a s c s' c' :
  matches (Group n a) s c s' c' ->
  exists c1, matches a s c s' c1 /\ c' = (n, consumed s s') :: c1.
Proof. inversion 1; subst. eauto. Qed.

Lemma matches_alt a b s c s' c' :
  matches (Alt a b) s c s' c' -> matches a s c s' c' \/ matches b s c s' c'.
Proof. inversion 1; subst; auto. Qed.

Lemma ignorecase_refl x : ignorecase x x = true.
Proof. unfold ignorecase. by rewrite N.eqb_refl. Qed.

Lemma matches_text_i w s c s' c' :
  matches (text_i w) s c s' c' ->
  exists m, s = m ++ s' /\ Forall2 (fun p x => ignorecase p x = true) w m /\
    c' = c.
Proof.
  revert s c. induction w as [|p w IH]; intros s c H; simpl in H.
  - inversion H; subst. by exists [].
  - apply matches_seq in H as (s1 & c1 & H1 & H2).
    apply matches_chr in H1 as (x & -> & Hx & ->).
    apply IH in H2 as (m & -> & Hm & ->).
    exists (x :: m). split; [done|]. split; [by constructor | done].
Qed.

Lemma starts_with_i_app w m s :
  Forall2 (fun p x => ignorecase p x = true) w m ->
  starts_with_i w (m ++ s) = true.
Proof.
  induction 1 as [|p x w m Hpx _ IH]; simpl; [by destruct s|].
  by rewrite Hpx, IH.
Qed.

(** The bracketed marker pattern matches only where a marker stands. *)
Lemma status_needs_marker s c s' c' :
  matches re_status s c s' c' ->
  exists w, w ∈ status_words /\ starts_with (marker w) s = true.
Proof.
  intros H. apply matches_seq in H as (s1 & c1 & H1 & H).
  apply matches_seq in H as (s2 & c2 & H2 & H3).
  apply matches_text in H1 as [-> ->]. apply matches_text in H3 as [-> ->].
  apply matches_group in H2 as (c3 & H2 & ->).
  assert (Hw : exists w, w ∈ status_words /\ s1 = w ++ lit " **" ++ s').
  { apply matches_alt in H2 as [H2|H2]; [|apply matches_alt in H2 as [H2|H2]];
      apply matches_text in H2 as [-> _]; eexists; (split; [|reflexivity]);
      unfold status_words; repeat first [apply list_elem_of_here | apply list_elem_of_further]. }
  destruct Hw as (w & Hw & ->). exists w. split; [done|].
  replace (lit "** " ++ w ++ lit " **" ++ s') with (marker w ++ s').
  - apply starts_with_app.
  - unfold marker. by rewrite <- !app_assoc.
Qed.

(** The fallback pattern matches only where the label stands and a newline
    follows. *)
Lemma status_policy_needs_label s c s' c' :
  matches re_status_policy s c s' c' ->
  starts_with_i (lit "Policy Value") s = true /\ LF ∈ s.
Proof.
  intros H. apply matches_seq in H as (s1 & c1 & H1 & H).
  apply matches_seq in H as (s2 & c2 & H2 & H).
  apply matches_seq in H as (s3 & c3 & H3 & _).
  pose proof (matches_suffix _ _ _ _ _ H1) as Hs1.
  pose proof (matches_suffix _ _ _ _ _ H2) as Hs2.
  apply matches_text_i in H1 as (m & -> & Hm & _).
  apply matches_newline in H3 as [-> _].
  split; [by apply starts_with_i_app|].
  eapply elem_of_suffix; [|exact Hs1].
  eapply elem_of_suffix; [|exact Hs2].
  apply list_elem_of_here.
Qed.

Lemma search_status_policy_no_newline s :
  LF ∉ s -> search re_status_policy s = None.
Proof.
  intros Hnl. apply search_no_match. intros j. apply match_at_None.
  intros s' c H. apply status_policy_needs_label in H as [_ H].
  apply Hnl. eapply elem_of_suffix; [exact H | apply suffix_drop].
Qed.

End Status.

Section StatusFallback.

Lemma status_words_inv w :
  w ∈ status_words -> w = FAILED \/ w = PASSED \/ w = SKIPPED.
Proof.
  intros Hw. unfold status_words in Hw.
  repeat (apply elem_of_cons in Hw as [->|Hw]; [auto|]).
  by apply elem_of_nil in Hw.
Qed.

Lemma upper_status_word w : w ∈ status_words -> upper w = w.
Proof. intros H. by apply status_words_inv in H as [-> | [-> | ->]]. Qed.

Lemma search_here r s s' c :
  match_at r s = Some (s', c) -> search r s = Some (0, s', c).
Proof. intros H. destruct s; simpl; by rewrite H. Qed.

End StatusFallback.

(** * The table of contents *)

Section Toc.

Lemma digit_not_space x : is_digit x = true -> is_space x = false.
Proof.
  intros Hd. destruct (is_space x) eqn:Hs; [|done].
  unfold is_space in Hs. apply existsb_exists in Hs as (y & Hy & Hxy).
  apply N.eqb_eq in Hxy as <-.
  assert (Hall : forallb (fun c => negb (is_digit c)) space_chars = true)
    by (vm_compute; reflexivity).
  rewrite forallb_forall in Hall. specialize (Hall _ Hy).
  by rewrite Hd in Hall.
Qed.

Lemma go_seq {R} a b s c (k : str -> caps -> option R) :
  go (Seq a b) s c k = go a s c (fun s' c' => go b s' c' k).
Proof. done. Qed.

Lemma go_chr_cons {R} p x s c (k : str -> caps -> option R) :
  go (Chr p) (x :: s) c k = if p x then k s c else None.
Proof. done. Qed.

Lemma go_group {R} n a s c (k : str -> caps -> option R) :
  go (Group n a) s c k =
  go a s c (fun s' c' => k s' ((n, consumed s s') :: c')).
Proof. done. Qed.

(** A match of the entry pattern starts with a digit. *)
Lemma toc_plain_head s c s' c' :
  matches re_toc_plain s c s' c' ->
  exists d t, s = d :: t /\ is_digit d = true /\ s' `suffix_of` t.
Proof.
  intros H. apply matches_seq in H as (s1 & c1 & H1 & H2).
  apply matches_group in H1 as (c2 & H1 & _).
  apply matches_seq in H1 as (s2 & c3 & H1 & H3).
  apply matches_seq in H1 as (s3 & c4 & H1 & H4).
  apply matches_chr in H1 as (d & -> & Hd & _).
  exists d, s3. split; [done|]. split; [done|].
  etrans; [exact (matches_suffix _ _ _ _ _ H2)|].
  etrans; [exact (matches_suffix _ _ _ _ _ H3)|].
  exact (matches_suffix _ _ _ _ _ H4).
Qed.

(** The pattern with the bullet matches only at a bullet. *)
Lemma toc_bullet_head s c s' c' :
  matches re_toc_bullet s c s' c' -> exists t, s = BULLET :: t.
Proof.
  intros H. apply matches_seq in H as (s1 & c1 & H1 & _).
  apply matches_chr in H1 as (x & -> & Hx & _).
  apply N.eqb_eq in Hx as <-. eauto.
Qed.

Lemma toc_bullet_no_match s j :
  BULLET ∉ s -> match_at re_toc_bullet (drop j s) = None.
Proof.
  intros Hs. apply match_at_None. intros s' c H.
  apply toc_bullet_head in H as [t Ht]. apply Hs.
  eapply elem_of_suffix; [|apply (suffix_drop _ j)].
  rewrite Ht. apply list_elem_of_here.
Qed.

Lemma findall_no_bullet s : BULLET ∉ s -> findall re_toc_bullet s = [].
Proof. intros Hs. apply findall_no_match. intros j. by apply toc_bullet_no_match. Qed.

(** After a match that is not empty [re.findall] goes on behind it. *)
Lemma findall_here r x t s' c :
  match_at r (x :: t) = Some (s', c) -> s' `suffix_of` t ->
  findall r (x :: t) = c :: findall r s'.
Proof.
  intros Hm [k ->]. unfold findall. cbn [findall_from]. rewrite Hm. f_equal.
  rewrite findall_from_skip.
  - f_equal. simpl. rewrite length_app.
    replace (pred (S (length k + length s') - length s')) with (length k) by lia.
    by rewrite drop_app_length.
  - simpl. rewrite length_app. lia.
Qed.

(** The pattern with the bullet at a bullet, whitespace and a text at whose
    start the pattern without the bullet matches. *)
Lemma toc_bullet_prefixed ws l s' c :
  Forall (fun x => is_space x = true) ws ->
  match_at re_toc_plain l = Some (s', c) ->
  match_at re_toc_bullet (BULLET :: ws ++ l) = Some (s', c).
Proof.
  intros Hws Hm. unfold match_at, re_toc_bullet.
  rewrite go_seq, go_chr_cons, N.eqb_refl, go_seq.
  unfold spaces. rewrite go_star_greedy_class.
  apply greedy_run_longest; [done| |exact Hm].
  apply match_at_Some, toc_plain_head in Hm as (d & t & -> & Hd & _).
  by apply digit_not_space.
Qed.

End Toc.

(** * Patterns without groups *)

Section Keeps.

Lemma keeps_chr (P : char -> Prop) p :
  (forall x, p x = true -> P x) -> keeps P (Chr p).
Proof.
  intros HP s c s' c' H. apply matches_chr in H as (x & -> & Hx & ->).
  exists [x]. split; [done|]. split; [|done]. constructor; [auto | constructor].
Qed.

Lemma keeps_seq P a b : keeps P a -> keeps P b -> keeps P (Seq a b).
Proof.
  intros Ha Hb s c s' c' H. apply matches_seq in H as (s1 & c1 & H1 & H2).
  apply Ha in H1 as (m1 & -> & Hm1 & ->). apply Hb in H2 as (m2 & -> & Hm2 & ->).
  exists (m1 ++ m2). split; [by rewrite <- app_assoc|].
  split; [by apply Forall_app | done].
Qed.

Lemma keeps_star P g a : keeps P a -> keeps P (Star g a).
Proof.
  intros Ha s c s' c' H. remember (Star g a) as r eqn:Hr.
  induction H; try discriminate; inversion Hr; subst.
  - exists []. by split.
  - apply Ha in H as (m1 & -> & Hm1 & ->).
    destruct (IHmatches2 eq_refl) as (m2 & -> & Hm2 & ->).
    exists (m1 ++ m2). split; [by rewrite <- app_assoc|].
    split; [by apply Forall_app | done].
Qed.

Lemma keeps_plus P g a : keeps P a -> keeps P (plus g a).
Proof. intros Ha. apply keeps_seq; [done | by apply keeps_star]. Qed.

Lemma keeps_at_least P n a : keeps P a -> keeps P (at_least n a).
Proof.
  intros Ha. induction n as [|n IH]; simpl.
  - by apply keeps_star.
  - by apply keeps_seq.
Qed.

Lemma keeps_numeral : keeps path_char re_numeral.
Proof.
  assert (Hd : keeps path_char (Chr is_digit)).
  { apply keeps_chr. intros x Hx. by left. }
  assert (Hdot : keeps path_char (Chr (N.eqb DOT))).
  { apply keeps_chr. intros x Hx. right. by apply N.eqb_eq in Hx. }
  apply keeps_seq; [by apply keeps_plus|].
  apply keeps_plus, keeps_seq; [done | by apply keeps_plus].
Qed.

Lemma keeps_leader : keeps (fun _ => True) re_leader.
Proof.
  assert (Hany : forall p, keeps (fun _ => True) (Chr p)).
  { intros p. by apply keeps_chr. }
  apply keeps_seq; [by apply keeps_star|].
  apply keeps_seq; [by apply keeps_at_least|].
  apply keeps_seq; [by apply keeps_star | by apply keeps_plus].
Qed.

End Keeps.

(** * A line of the table of contents *)

Section TocLine.

Lemma lazy_run_here {R} p s c (k : str -> caps -> option R) r :
  k s c = Some r -> lazy_run p s c k = Some r.
Proof. intros H. destruct s; simpl; by rewrite H. Qed.

Lemma lazy_run_skip {R} p m s c (k : str -> caps -> option R) :
  Forall (fun x => p x = true) m ->
  (forall j, j < length m -> k (drop j m ++ s) c = None) ->
  lazy_run p (m ++ s) c k = lazy_run p s c k.
Proof.
  induction 1 as [|x m Hx Hm IH]; intros Hk; [done|].
  simpl. rewrite (Hk 0 ltac:(simpl; lia) : k (x :: m ++ s) c = None).
  rewrite Hx. apply IH. intros j Hj. apply (Hk (S j)). simpl. lia.
Qed.

Lemma path_char_not_space x : path_char x -> is_space x = false.
Proof. intros [Hd | ->]; [by apply digit_not_space | done]. Qed.

Lemma digit_string_plus g d s c :
  digit_string d -> matches (plus g (Chr is_digit)) (d ++ s) c s c.
Proof.
  intros [Hne Hd]. destruct d as [|x d]; [done|].
  apply Forall_cons in Hd as [Hx Hd]. by apply matches_class_plus_intro.
Qed.

Lemma matches_numeral_more g more s c :
  Forall digit_string more ->
  matches (Star g (Seq (Chr (N.eqb DOT)) digits))
          (concat ((fun d => DOT :: d) <$> more) ++ s) c s c.
Proof.
  induction 1 as [|d more Hd Hmore IH]; simpl; [constructor|].
  rewrite <- app_assoc. eapply m_star_step.
  - eapply m_seq; [constructor; apply N.eqb_refl|].
    by apply digit_string_plus.
  - simpl. rewrite !length_app. lia.
  - exact IH.
Qed.

Lemma matches_numeral first more s c :
  digit_string first -> more <> [] -> Forall digit_string more ->
  matches re_numeral (numeral_path first more ++ s) c s c.
Proof.
  intros Hf Hne Hmore. unfold re_numeral, numeral_path.
  rewrite <- app_assoc. eapply m_seq; [by apply digit_string_plus|].
  destruct more as [|d more]; [done|]. apply Forall_cons in Hmore as [Hd Hmore].
  simpl. rewrite <- app_assoc.
  eapply m_seq; [|by apply matches_numeral_more].
  eapply m_seq; [constructor; apply N.eqb_refl|].
  by apply digit_string_plus.
Qed.

Lemma numeral_path_chars first more :
  digit_string first -> Forall digit_string more ->
  Forall path_char (numeral_path first more).
Proof.
  intros [_ Hf] Hmore. unfold numeral_path. apply Forall_app. split.
  - eapply Forall_impl; [exact Hf|]. intros x Hx. by left.
  - induction Hmore as [|d more [_ Hd] _ IH]; simpl; [constructor|].
    constructor; [by right|]. apply Forall_app. split; [|done].
    eapply Forall_impl; [exact Hd|]. intros x Hx. by left.
Qed.

Lemma numeral_path_head first more :
  digit_string first ->
  exists x t, numeral_path first more = x :: t /\ is_digit x = true.
Proof.
  intros [Hne Hf]. destruct first as [|x first]; [done|].
  apply Forall_cons in Hf as [Hx _]. by eexists x, _.
Qed.

(** Two runs of a class at the start of one text, the second of which ends
    where the class ends: the first is the second, or is followed by a
    character of the class. *)
Lemma prefix_class_cases (P : char -> Prop) g num s' rest :
  Forall P g -> Forall P num -> g ++ s' = num ++ rest ->
  match rest with y :: _ => ~ P y | [] => True end ->
  (g = num /\ s' = rest) \/ (exists y t, s' = y :: t /\ P y).
Proof.
  intros Hg. revert num. induction Hg as [|x g Hx Hg IH]; intros num Hnum Heq Hrest.
  - simpl in Heq. subst s'. destruct Hnum as [|y num Hy Hnum]; [by left|].
    right. by eexists y, _.
  - destruct Hnum as [|y num Hy Hnum].
    + simpl in Heq. subst rest. by destruct Hrest.
    + simpl in Heq. inversion Heq; subst.
      destruct (IH num Hnum) as [[-> ->] | Hr]; [done..| by left | by right].
Qed.

Lemma go_toc_tail_no_space {R} s c (k : str -> caps -> option R) :
  match s with y :: _ => is_space y = false | [] => True end ->
  go re_toc_tail s c k = None.
Proof.
  intros Hs. unfold re_toc_tail, plus. rewrite !go_seq.
  destruct s as [|y t]; [done|]. by rewrite go_chr_cons, Hs.
Qed.

Lemma matches_dots3 n s c :
  3 <= n -> matches dots3 (replicate n DOT ++ s) c s c.
Proof.
  intros Hn. destruct n as [|[|[|n]]]; [lia..|]. unfold dots3. simpl.
  repeat (eapply m_seq; [constructor; apply N.eqb_refl|]).
  apply matches_class_star_intro, Forall_replicate, N.eqb_refl.
Qed.

Lemma matches_leader ws2 n ws3 page s c :
  Forall (fun x => is_space x = true) ws2 -> 3 <= n ->
  Forall (fun x => is_space x = true) ws3 -> digit_string page ->
  matches re_leader (ws2 ++ replicate n DOT ++ ws3 ++ page ++ s) c s c.
Proof.
  intros H2 Hn H3 Hp. unfold re_leader.
  eapply m_seq; [by apply matches_class_star_intro|].
  eapply m_seq; [by apply matches_dots3|].
  eapply m_seq; [by apply matches_class_star_intro|].
  by apply digit_string_plus.
Qed.

Lemma strip_fix s : lstrip s = s -> rstrip s = s -> strip s = s.
Proof. intros Hl Hr. unfold strip. by rewrite Hl. Qed.

Lemma strip_no_space s :
  Forall (fun x => is_space x = false) s -> strip s = s.
Proof.
  intros Hs. apply strip_fix.
  - apply lstrip_fix. by destruct Hs.
  - unfold rstrip. rewrite lstrip_fix; [apply reverse_involutive|].
    apply Forall_reverse in Hs. by destruct Hs.
Qed.

(** The pattern with the bullet consumes the bullet. *)
Lemma toc_bullet_suffix x t c s' c' :
  matches re_toc_bullet (x :: t) c s' c' -> s' `suffix_of` t.
Proof.
  intros H. apply matches_seq in H as (s1 & c1 & H1 & H2).
  apply matches_chr in H1 as (y & Heq & _ & _). inversion Heq; subst.
  exact (matches_suffix _ _ _ _ _ H2).
Qed.

End TocLine.

(** * The groups the source reads are set by every match *)

Section GroupsSet.

Lemma group_cons_kept n m g c :
  is_Some (group n c) -> is_Some (group n ((m, g) :: c)).
Proof. intros H. simpl. by destruct (Nat.eqb n m). Qed.

Lemma star_group_kept n g a :
  (forall s c s' c', matches a s c s' c' ->
     is_Some (group n c) -> is_Some (group n c')) ->
  forall s c s' c', matches (Star g a) s c s' c' ->
    is_Some (group n c) -> is_Some (group n c').
Proof.
  intros IHa s c s' c' H. remember (Star g a) as r eqn:Hr.
  induction H; try discriminate; inversion Hr; subst; [done|].
  intros Hc. apply IHmatches2; [done|]. by eapply IHa.
Qed.

(** A match forgets no group. *)
Lemma matches_group_kept n r : forall s c s' c',
  matches r s c s' c' -> is_Some (group n c) -> is_Some (group n c').
Proof.
  induction r as [|p|a IHa b IHb|a IHa b IHb|g a IHa|m a IHa|a IHa|];
    intros s c s' c' Hm Hc.
  - by inversion Hm; subst.
  - by inversion Hm; subst.
  - apply matches_seq in Hm as (s1 & c1 & H1 & H2).
    eapply IHb; [exact H2|]. by eapply IHa.
  - inversion Hm; subst; [by eapply IHa | by eapply IHb].
  - by eapply star_group_kept.
  - apply matches_group in Hm as (c1 & Hm & ->).
    apply group_cons_kept. by eapply IHa.
  - inversion Hm; subst.
    match goal with
    | H : go a _ _ _ = Some _ |- _ =>
        apply go_sound in H as (s1 & c1 & H1 & Hk)
    end.
    inversion Hk; subst. by eapply IHa.
  - by inversion Hm; subst.
Qed.

Lemma matches_sets_group n r : forall s c s' c',
  matches r s c s' c' -> sets_group n r = true -> is_Some (group n c').
Proof.
  induction r as [|p|a IHa b IHb|a IHa b IHb|g a IHa|m a IHa|a IHa|];
    intros s c s' c' Hm Hset; simpl in Hset; try done.
  - apply matches_seq in Hm as (s1 & c1 & H1 & H2).
    apply orb_prop in Hset as [Hset|Hset].
    + eapply matches_group_kept; [exact H2|]. by eapply IHa.
    + by eapply IHb.
  - apply andb_prop in Hset as [Ha Hb].
    inversion Hm; subst; [by eapply IHa | by eapply IHb].
  - apply matches_group in Hm as (c1 & Hm & ->).
    apply orb_prop in Hset as [Hset|Hset].
    + simpl. by rewrite Hset.
    + apply group_cons_kept. by eapply IHa.
  - inversion Hm; subst.
    match goal with
    | H : go a _ _ _ = Some _ |- _ =>
        apply go_sound in H as (s1 & c1 & H1 & Hk)
    end.
    inversion Hk; subst. by eapply IHa.
Qed.

(** In every match of a pattern of the source, the groups the source reads
    took part: [group_text] never falls back on its default. *)
Lemma groups_read_set r n s s' m :
  (r, n) ∈ groups_read -> match_at r s = Some (s', m) ->
  group n m = Some (group_text n m).
Proof.
  intros Hin Hm. apply match_at_Some in Hm.
  assert (Hset : sets_group n r = true).
  { unfold groups_read in Hin.
    repeat (apply elem_of_cons in Hin as [Hin|Hin];
            [by inversion Hin; subst|]).
    by apply elem_of_nil in Hin. }
  destruct (matches_sets_group n r _ _ _ _ Hm Hset) as [g Hg].
  unfold group_text. by rewrite Hg.
Qed.

End GroupsSet.

(** * The scanned patterns match no empty text *)

Section NotEmpty.

Lemma matches_takes_char r : forall s c s' c',
  matches r s c s' c' -> takes_char r = true -> length s' < length s.
Proof.
  induction r as [|p|a IHa b IHb|a IHa b IHb|g a IHa|m a IHa|a IHa|];
    intros s c s' c' Hm Ht; simpl in Ht; try done.
  - apply matches_chr in Hm as (x & -> & _ & _). simpl. lia.
  - apply matches_seq in Hm as (s1 & c1 & H1 & H2).
    pose proof (suffix_length _ _ (matches_suffix _ _ _ _ _ H1)).
    pose proof (suffix_length _ _ (matches_suffix _ _ _ _ _ H2)).
    apply orb_prop in Ht as [Ht|Ht].
    + specialize (IHa _ _ _ _ H1 Ht). lia.
    + specialize (IHb _ _ _ _ H2 Ht). lia.
  - apply andb_prop in Ht as [Ha Hb].
    inversion Hm; subst; [by eapply IHa | by eapply IHb].
  - apply matches_group in Hm as (c1 & Hm & _). by eapply IHa.
Qed.

(** So the scans of [sub_from] and [findall_from] never meet an empty
    match. *)
Lemma scanned_not_empty r s s' m :
  r ∈ scanned -> match_at r s = Some (s', m) -> length s' < length s.
Proof.
  intros Hin Hm. apply match_at_Some in Hm.
  eapply matches_takes_char; [exact Hm|].
  unfold scanned in Hin.
  repeat (apply elem_of_cons in Hin as [->|Hin]; [done|]).
  by apply elem_of_nil in Hin.
Qed.

End NotEmpty.

(** * Further facts about the normalization *)

Section NormalForm.

Lemma well_spaced_next s i x y :
  well_spaced s = true -> s !! i = Some x -> is_space x = true ->
  s !! S i = Some y -> is_space y = false.
Proof.
  revert i. induction s as [|z t IH]; intros i Hw Hx Hs Hy; [done|].
  destruct i as [|i].
  - simpl in Hx. inversion Hx; subst. simpl in Hw. rewrite Hs in Hw.
    apply andb_prop in Hw as [Hw _]. apply andb_prop in Hw as [_ Hw].
    destruct t as [|y' t]; [done|]. simpl in Hy. inversion Hy; subst.
    by apply negb_true_iff.
  - apply (IH i); [by apply well_spaced_cons in Hw | done..].
Qed.

Lemma strip_head s a : head (strip s) = Some a -> is_space a = false.
Proof.
  unfold strip. intros H.
  destruct (rstrip_prefix (lstrip s)) as [k Hk].
  pose proof (lstrip_head s) as Hh. rewrite Hk in Hh.
  destruct (rstrip (lstrip s)) as [|x r]; [done|].
  simpl in H. inversion H; subst. exact Hh.
Qed.

Lemma rstrip_last s a : last (rstrip s) = Some a -> is_space a = false.
Proof.
  unfold rstrip. rewrite last_reverse. intros H.
  pose proof (lstrip_head (reverse s)) as Hh.
  destruct (lstrip (reverse s)) as [|x r]; [done|].
  simpl in H. inversion H; subst. exact Hh.
Qed.

Lemma strip_last s a : last (strip s) = Some a -> is_space a = false.
Proof. unfold strip. apply rstrip_last. Qed.

End NormalForm.

(** * Which entries get a record *)

Section Kept.

Lemma find_in_occurs p s : is_Some (find_in p s) <-> occurs p s.
Proof.
  split.
  - intros [i Hi]. apply find_in_Some in Hi as [Hi _].
    apply starts_with_prefix in Hi as [t Ht].
    exists (take i s), t. by rewrite <- Ht, take_drop.
  - intros (a & b & ->).
    destruct (find_in p (a ++ p ++ b)) as [i|] eqn:Hf; [done|].
    pose proof (find_in_None _ _ (length a) Hf) as Hn.
    by rewrite drop_app_length, starts_with_app in Hn.
Qed.

Lemma located_occurs text e : located text e <-> occurs (start_string e) text.
Proof. unfold located. rewrite find_0. apply find_in_occurs. Qed.

Lemma loop_body_located stdout text es i e :
  located text e ->
  exists r, loop_body stdout text es i e = Appended r /\ entry_of r = e.
Proof.
  intros [start Hs]. unfold loop_body. rewrite Hs.
  eexists. split; [done|]. by destruct e.
Qed.

Lemma not_located_find text e :
  ~ located text e -> find text (start_string e) 0 = None.
Proof.
  intros Hn. destruct (find text (start_string e) 0) eqn:Hf; [|done].
  destruct Hn. unfold located. by rewrite Hf.
Qed.

Lemma loop_body_round stdout text es i e :
  round_of stdout text e (loop_body stdout text es i e).
Proof.
  destruct (decide (located text e)) as [Hl|Hn].
  - left. split; [done|]. by apply loop_body_located.
  - right. pose proof (not_located_find _ _ Hn) as Hf.
    destruct (print stdout (warning (start_string e))) as [exc|] eqn:Hp.
    + right. split; [done|]. exists exc. split; [done|].
      by apply loop_body_raises.
    + left. split; [done|]. split; [done|]. by apply loop_body_not_found.
Qed.

Lemma omap_cons_Some {A B} (g : A -> option B) x y l :
  g x = Some y -> omap g (x :: l) = y :: omap g l.
Proof. intros H. simpl. by rewrite H. Qed.

Lemma omap_cons_None {A B} (g : A -> option B) x l :
  g x = None -> omap g (x :: l) = omap g l.
Proof. intros H. simpl. by rewrite H. Qed.

(** The rounds of a list of entries, sorted by what they do. *)
Lemma rounds_filter stdout text (f : nat -> toc_entry -> outcome) es :
  (forall i e, round_of stdout text e (f i e)) ->
  entry_of <$> omap appended (imap f es) = filter (located text) es /\
  (omap raised (imap f es) = [] <->
   Forall (printable stdout) (missing text es)) /\
  (omap raised (imap f es) = [] ->
   omap warned (imap f es) = warning_of <$> missing text es).
Proof.
  revert f. induction es as [|e es IH]; intros f Hf; [done|].
  destruct (IH (f ∘ S)) as (IH1 & IH2 & IH3); [intros i; apply Hf|].
  rewrite imap_cons. unfold missing in *. rewrite !filter_cons.
  destruct (Hf 0 e) as [(Hl & r & Hr & He)|[(Hn & Hp & Hw)|(Hn & exc & Hp & Hx)]].
  - rewrite Hr.
    rewrite (omap_cons_Some appended _ r), (omap_cons_None raised),
      (omap_cons_None warned) by done.
    rewrite decide_True by done. rewrite (decide_False (P := ~ located text e))
      by (intros Hn; by apply Hn).
    rewrite fmap_cons, He, IH1. done.
  - rewrite Hw.
    rewrite (omap_cons_None appended), (omap_cons_None raised),
      (omap_cons_Some warned _ (warning (start_string e))) by done.
    rewrite decide_False by done. rewrite decide_True by done.
    split; [done|]. split.
    + rewrite IH2. split.
      * intros H. by apply Forall_cons.
      * intros H. by apply Forall_cons in H as [_ H].
    + intros H. rewrite fmap_cons, IH3 by done. done.
  - rewrite Hx.
    rewrite (omap_cons_None appended), (omap_cons_Some raised _ exc),
      (omap_cons_None warned) by done.
    rewrite decide_False by done. rewrite decide_True by done.
    split; [done|]. split; [|done]. split; [done|].
    intros H. apply Forall_cons in H as [H _]. unfold printable in H.
    congruence.
Qed.

Lemma run_loop_filter stdout text es :
  entry_of <$> extract_sections stdout text es = filter (located text) es /\
  (omap raised (run_loop stdout text es) = [] <->
   Forall (printable stdout) (missing text es)) /\
  (omap raised (run_loop stdout text es) = [] ->
   omap warned (run_loop stdout text es) = warning_of <$> missing text es).
Proof. apply rounds_filter. intros i e. apply loop_body_round. Qed.

(** Where a list of rounds is cut, the list of entries is cut. *)
Lemma imap_split {A B} (f : nat -> A -> B) l a x b :
  imap f l = a ++ x :: b ->
  exists l1 y l2,
    l = l1 ++ y :: l2 /\ a = imap f l1 /\ x = f (length l1) y /\
    b = imap (f ∘ (fun j => S (length l1) + j)) l2.
Proof.
  revert f a. induction l as [|z l IH]; intros f a H.
  - by destruct a.
  - rewrite imap_cons in H. destruct a as [|a0 a].
    + simpl in H. inversion H; subst. by exists [], z, l.
    + simpl in H. inversion H as [[H0 H1]].
      apply IH in H1 as (l1 & y & l2 & -> & -> & -> & ->).
      by exists (z :: l1), y, l2.
Qed.

(** How a call ends: it returns when every warning it has to print can be
    written, and is left by the exception of the first that cannot. *)
Lemma parse_cases stdout toc_text full_text :
  let text := normalize full_text in
  let es := parse_toc toc_text in
  (Forall (printable stdout) (missing text es) /\
   parse_pdf_text_by_toc stdout toc_text full_text
   = (warning_of <$> missing text es,
      Returned (extract_sections stdout text es))) \/
  (exists before e after exc,
     es = before ++ e :: after /\ ~ located text e /\
     print stdout (warning_of e) = Some exc /\
     Forall (printable stdout) (missing text before) /\
     parse_pdf_text_by_toc stdout toc_text full_text
     = (warning_of <$> missing text before, Raise exc)).
Proof.
  intros text es. rewrite parse_settle. fold text es.
  destruct (settle (run_loop stdout text es) [] []) as [printed [data|exc]] eqn:H.
  - left. apply settle_returned in H as (-> & -> & Hr). simpl.
    destruct (run_loop_filter stdout text es) as (_ & Hiff & Hw).
    split; [by apply Hiff|]. by rewrite (Hw Hr).
  - right. apply settle_raise in H as (rb & ra & Hsplit & Hb & ->).
    unfold run_loop in Hsplit.
    apply imap_split in Hsplit as (l1 & y & l2 & Hes & -> & Hy & _).
    destruct (rounds_filter stdout text (loop_body stdout text es) l1)
      as (_ & Hiff & Hw); [intros i e; apply loop_body_round|].
    exists l1, y, l2.
    destruct (loop_body_round stdout text es (length l1) y)
      as [(_ & r & Hr & _)|[(_ & _ & Hr)|(Hn & exc' & Hp & Hr)]];
      rewrite Hr in Hy; try discriminate Hy.
    inversion Hy; subst exc'. exists exc.
    split; [done|]. split; [done|]. split; [done|].
    split; [by apply Hiff|]. simpl. by rewrite (Hw Hb).
Qed.

Lemma filter_split_length {A} (P : A -> Prop) `{!forall x, Decision (P x)} (l : list A) :
  length (filter P l) + length (filter (fun x => ~ P x) l) = length l.
Proof.
  induction l as [|x l IH]; [done|]. rewrite !filter_cons.
  destruct (decide (P x)); destruct (decide (~ P x)); simpl; try done; lia.
Qed.

End Kept.

(** * The bounds of a section *)

Section Bounds.

Lemma start_string_not_nil e : start_string e <> [].
Proof. unfold start_string. by destruct (number e). Qed.

Lemma starts_with_length p s : starts_with p s = true -> length p <= length s.
Proof.
  intros H. apply starts_with_prefix in H as [t ->]. rewrite length_app. lia.
Qed.

(** Where [find] finds the anchor, the text splits around it. *)
Lemma find_in_split p s i :
  p <> [] -> find_in p s = Some i ->
  exists rest, s = take i s ++ p ++ rest /\ length (take i s) = i /\
    drop (i + length p) s = rest.
Proof.
  intros Hp Hf. apply find_in_Some in Hf as [Hf _].
  pose proof (starts_with_length _ _ Hf) as Hlen. rewrite length_drop in Hlen.
  apply starts_with_prefix in Hf as [rest Hr]. exists rest.
  assert (Hi : i < length s).
  { destruct p; [done|]. simpl in Hlen. lia. }
  split; [by rewrite <- Hr, take_drop|]. split; [rewrite length_take; lia|].
  rewrite <- drop_drop, Hr. apply drop_app_length.
Qed.

Lemma slice_to_end s i : slice s i (length s) = drop i s.
Proof. unfold slice. apply take_ge. rewrite length_drop. lia. Qed.

End Bounds.

(** * The bracketed status marker *)

Section Marker.

Lemma matches_text_self w s c : matches (text w) (w ++ s) c s c.
Proof.
  induction w as [|x w IH]; simpl; [constructor|].
  eapply m_seq; [|exact IH]. constructor. apply N.eqb_refl.
Qed.

(** A match of the marker pattern reads a marker and captures its word. *)
Lemma status_match_word s c s' m :
  matches re_status s c s' m ->
  exists w, w ∈ status_words /\ m = (1, w) :: c /\ s = marker w ++ s'.
Proof.
  intros H. apply matches_seq in H as (s1 & c1 & H1 & H).
  apply matches_seq in H as (s2 & c2 & H2 & H3).
  apply matches_text in H1 as [-> ->]. apply matches_text in H3 as [-> ->].
  apply matches_group in H2 as (c3 & H2 & ->).
  assert (Hw : exists w, w ∈ status_words /\
                 s1 = w ++ lit " **" ++ s' /\ c3 = c).
  { apply matches_alt in H2 as [H2|H2]; [|apply matches_alt in H2 as [H2|H2]];
      apply matches_text in H2 as [-> ->]; eexists;
      (split; [|split; reflexivity]); unfold status_words;
      repeat first [apply list_elem_of_here | apply list_elem_of_further]. }
  destruct Hw as (w & Hw & -> & ->). exists w. split; [done|].
  split; [by rewrite consumed_app|].
  unfold marker. by rewrite <- !app_assoc.
Qed.

Lemma marker_inj v w s' post :
  v ∈ status_words -> w ∈ status_words ->
  marker v ++ s' = marker w ++ post -> v = w /\ s' = post.
Proof.
  intros Hv Hw Heq.
  apply status_words_inv in Hv as [-> | [-> | ->]];
    apply status_words_inv in Hw as [-> | [-> | ->]];
    vm_compute in Heq; inversion Heq; subst; done.
Qed.

Lemma matches_marker w post c :
  w ∈ status_words -> matches re_status (marker w ++ post) c post ((1, w) :: c).
Proof.
  intros Hw. unfold re_status, marker. rewrite <- !app_assoc.
  eapply m_seq; [apply matches_text_self|].
  eapply m_seq; [|apply matches_text_self].
  replace ((1, w) :: c)
    with ((1, consumed (w ++ lit " **" ++ post) (lit " **" ++ post)) :: c)
    by (by rewrite consumed_app).
  apply m_group.
  apply status_words_inv in Hw as [-> | [-> | ->]].
  - apply m_alt_l, matches_text_self.
  - apply m_alt_r, m_alt_l, matches_text_self.
  - apply m_alt_r, m_alt_r, matches_text_self.
Qed.

Lemma match_at_marker w post :
  w ∈ status_words ->
  match_at re_status (marker w ++ post) = Some (post, [(1, w)]).
Proof.
  intros Hw. unfold match_at.
  rewrite (go_unique _ _ _ _ post [(1, w)]); [done|by apply matches_marker|].
  intros s' c' Hm Hne. destruct Hne.
  apply status_match_word in Hm as (v & Hv & -> & Heq).
  symmetry in Heq. by destruct (marker_inj v w s' post Hv Hw Heq) as [-> ->].
Qed.

(** A computable test that the anchor does not stand before offset [i]. *)
Lemma not_before p s i j :
  match find_in p s with Some k => Nat.leb i k | None => true end = true ->
  j < i -> starts_with p (drop j s) = false.
Proof.
  intros H Hj. destruct (find_in p s) as [k|] eqn:Hf.
  - apply Nat.leb_le in H. apply find_in_Some in Hf as [_ Hf]. apply Hf. lia.
  - by apply find_in_None.
Qed.

End Marker.

(** * The field patterns *)

Section Fields.

Lemma go_text_app {R} w s c (k : str -> caps -> option R) :
  go (text w) (w ++ s) c k = k s c.
Proof.
  induction w as [|x w IH]; [done|].
  simpl text. rewrite go_seq. simpl app. by rewrite go_chr_cons, N.eqb_refl.
Qed.

Lemma lstrip_split s :
  exists ws, s = ws ++ lstrip s /\ Forall (fun x => is_space x = true) ws.
Proof.
  induction s as [|x t (ws & Ht & Hws)]; simpl.
  - by exists [].
  - destruct (is_space x) eqn:Hx.
    + exists (x :: ws). split; [by rewrite Ht at 1 | by constructor].
    + by exists [].
Qed.

Lemma keeps_stops labels : keeps (fun _ => True) (stops labels).
Proof.
  assert (Hsp : keeps (fun _ => True) spaces).
  { apply keeps_star. by apply keeps_chr. }
  induction labels as [|l labels IH]; intros s c s' c' H; simpl in H.
  - apply matches_seq in H as (s1 & c1 & H1 & H2).
    apply Hsp in H1 as (m & -> & _ & ->). inversion H2; subst.
    exists m. split; [done|]. split; [|done]. by apply Forall_forall.
  - apply matches_alt in H as [H|H]; [|by apply IH].
    apply matches_seq in H as (s1 & c1 & H1 & H2).
    apply Hsp in H1 as (m & -> & _ & ->).
    apply matches_text in H2 as [-> ->].
    exists (m ++ l). split; [by rewrite <- app_assoc|].
    split; [|done]. by apply Forall_forall.
Qed.

Lemma stops_sound labels t c s' c' :
  matches (stops labels) t c s' c' -> stop_follows labels t.
Proof.
  revert t. induction labels as [|l labels IH]; intros t H; simpl in H.
  - apply matches_seq in H as (s1 & c1 & H1 & H2).
    apply matches_class_star in H1 as (m & -> & Hm & _).
    inversion H2; subst. left. apply Forall_app. split; [done|].
    match goal with H : at_end _ = true |- _ => rename H into He end.
    destruct s' as [|x [|y s']]; [done| |done].
    simpl in He. apply N.eqb_eq in He as ->. by constructor.
  - apply matches_alt in H as [H|H].
    + apply matches_seq in H as (s1 & c1 & H1 & H2).
      apply matches_class_star in H1 as (m & -> & Hm & _).
      apply matches_text in H2 as [-> _].
      right. exists m, l, s'. split; [done|]. split; [done|].
      apply list_elem_of_here.
    + destruct (IH _ H) as [Hb | (ws & l' & rest & -> & Hws & Hl)];
        [by left | right].
      exists ws, l', rest. split; [done|]. split; [done|].
      by apply list_elem_of_further.
Qed.

Lemma stops_complete labels t c :
  stop_follows labels t -> exists s', matches (stops labels) t c s' c.
Proof.
  intros [Hb | (ws & l & rest & -> & Hws & Hl)].
  - exists []. induction labels as [|l labels IH]; simpl.
    + eapply m_seq; [|by apply m_eos].
      rewrite <- (app_nil_r t) at 1. by apply matches_class_star_intro.
    + by apply m_alt_r.
  - exists rest. induction labels as [|l' labels IH]; simpl.
    + by apply elem_of_nil in Hl.
    + apply elem_of_cons in Hl as [<-|Hl].
      * apply m_alt_l. eapply m_seq; [by apply matches_class_star_intro|].
        apply matches_text_self.
      * by apply m_alt_r, IH.
Qed.

(** The look-ahead of a field pattern lets the match go on exactly where a
    stop follows, and changes no group. *)
Lemma go_ahead_stops {R} labels t c (k : str -> caps -> option R) :
  stop_follows labels t -> go (Ahead (stops labels)) t c k = k t c.
Proof.
  intros Hs. simpl.
  destruct (stops_complete labels t c Hs) as [s' Hm].
  destruct (go_complete _ _ _ _ _ Hm (fun _ c1 => Some c1) _ eq_refl)
    as [c' Hgo].
  rewrite Hgo. apply go_sound in Hgo as (s1 & c1 & Hm1 & Hk).
  inversion Hk; subst. by apply keeps_stops in Hm1 as (m & _ & _ & ->).
Qed.

Lemma go_ahead_Some {R} labels t c (k : str -> caps -> option R) res :
  go (Ahead (stops labels)) t c k = Some res -> stop_follows labels t.
Proof.
  simpl.
  destruct (go (stops labels) t c (fun _ c1 => Some c1)) as [c'|] eqn:Hgo;
    [|done].
  intros _. apply go_sound in Hgo as (s1 & c1 & Hm1 & _).
  by eapply stops_sound.
Qed.

(** A lazy run of any characters stops at the first place its continuation
    accepts. *)
Lemma lazy_run_any_first {R} u c (k : str -> caps -> option R) :
  is_Some (k [] c) ->
  exists g tail res,
    u = g ++ tail /\ k tail c = Some res /\
    (forall j, j < length g -> k (drop j u) c = None) /\
    lazy_run (fun _ => true) u c k = Some res.
Proof.
  intros [res0 Hnil]. induction u as [|x u IH].
  - exists [], [], res0. simpl. rewrite Hnil.
    split; [done|]. split; [done|]. split; [intros j Hj; simpl in Hj; lia | done].
  - destruct (k (x :: u) c) as [res|] eqn:Hk.
    + exists [], (x :: u), res. simpl. rewrite Hk.
      split; [done|]. split; [done|].
      split; [intros j Hj; simpl in Hj; lia | done].
    + destruct IH as (g & tail & res & -> & Ht & Hmin & Hrun).
      exists (x :: g), tail, res. simpl. rewrite Hk.
      split; [done|]. split; [done|]. split; [|done].
      intros [|j] Hj; [done|]. simpl. apply Hmin. simpl in Hj. lia.
Qed.

(** The match of a field pattern at its label: group 1 is the text from
    behind the label and its whitespace up to the first place at which a
    stop follows. *)
Lemma match_at_field label labels rest :
  exists g tail,
    lstrip rest = g ++ tail /\ stop_follows labels tail /\
    (forall j, j < length g -> ~ stop_follows labels (drop j (lstrip rest))) /\
    match_at (re_field label labels) (label ++ rest) = Some (tail, [(1, g)]).
Proof.
  destruct (lstrip_split rest) as (ws & Hrest & Hws).
  pose proof (lstrip_head rest) as Hhead.
  remember (lstrip rest) as u eqn:Hequ. clear Hequ. subst rest.
  pose (k := fun (s' : str) (c' : caps) =>
               go (Ahead (stops labels)) s' ((1, consumed u s') :: c')
                  (fun s c => Some (s, c))).
  assert (Hstop : forall t c, stop_follows labels t ->
            k t c = Some (t, (1, consumed u t) :: c)).
  { intros t c Ht. unfold k. by rewrite go_ahead_stops. }
  destruct (lazy_run_any_first u [] k) as (g & tail & res & Hu & Hk & Hmin & Hrun).
  { rewrite Hstop; [done|]. left. constructor. }
  assert (Htail : stop_follows labels tail).
  { unfold k in Hk. by eapply go_ahead_Some. }
  rewrite (Hstop _ _ Htail) in Hk. inversion Hk; subst res. clear Hk.
  assert (Hg : consumed u tail = g) by (rewrite Hu; apply consumed_app).
  rewrite Hg in Hrun.
  exists g, tail. split; [done|]. split; [done|]. split.
  - intros j Hj Hs. specialize (Hmin j Hj). rewrite Hstop in Hmin; done.
  - unfold match_at, re_field. rewrite go_seq, go_text_app, go_seq.
    unfold spaces. rewrite go_star_greedy_class.
    apply greedy_run_longest; [done | exact Hhead |].
    rewrite go_seq, go_group. unfold any_char. rewrite go_star_lazy_class.
    exact Hrun.
Qed.

Lemma field_captured label labels pre rest :
  (forall j, j < length pre ->
     starts_with label (drop j (pre ++ label ++ rest)) = false) ->
  exists g tail,
    lstrip rest = g ++ tail /\ stop_follows labels tail /\
    (forall j, j < length g -> ~ stop_follows labels (drop j (lstrip rest))) /\
    field (re_field label labels) (pre ++ label ++ rest) = Some (strip g).
Proof.
  intros Hfirst.
  destruct (match_at_field label labels rest) as (g & tail & Hu & Ht & Hmin & Hm).
  exists g, tail. split; [done|]. split; [done|]. split; [done|].
  unfold field. rewrite search_skip.
  - by rewrite (search_here _ _ _ _ Hm).
  - intros j Hj. apply match_at_None. intros s' c' Hmat.
    apply matches_seq in Hmat as (s1 & c1 & H1 & _).
    apply matches_text in H1 as [H1 _].
    specialize (Hfirst j Hj). by rewrite H1, starts_with_app in Hfirst.
Qed.

Lemma text_fields_inv label labels get :
  (label, labels, get) ∈ text_fields ->
  forall e s, get (extract e s) = default NA (field (re_field label labels) s).
Proof.
  intros Hin e s. unfold text_fields in Hin.
  repeat (apply elem_of_cons in Hin as [Hin|Hin]; [by inversion Hin; subst|]).
  by apply elem_of_nil in Hin.
Qed.

End Fields.

(** * The entries of the table of contents *)

Section Entries.

(** Every element of [re.findall] is the groups of a match somewhere in the
    text. *)
Lemma findall_from_elem r s : forall skip c,
  c ∈ findall_from r skip s ->
  exists j s', match_at r (drop j s) = Some (s', c).
Proof.
  induction s as [|x t IH]; intros skip c Hc.
  - destruct skip as [|n]; simpl in Hc; [|by apply elem_of_nil in Hc].
    destruct (match_at r []) as [[s' c']|] eqn:Hm;
      [|by apply elem_of_nil in Hc].
    apply list_elem_of_singleton in Hc as ->. by exists 0, s'.
  - destruct skip as [|n]; simpl in Hc.
    + destruct (match_at r (x :: t)) as [[s' c']|] eqn:Hm.
      * apply elem_of_cons in Hc as [->|Hc]; [by exists 0, s'|].
        apply IH in Hc as (j & s1 & Hj). by exists (S j), s1.
      * apply IH in Hc as (j & s1 & Hj). by exists (S j), s1.
    + apply IH in Hc as (j & s1 & Hj). by exists (S j), s1.
Qed.

(** A substitution puts nothing into the text but the replacement. *)
Lemma sub_from_elem r repl s : forall skip x,
  x ∈ sub_from r repl skip s -> x ∈ s \/ x ∈ repl.
Proof.
  induction s as [|y t IH]; intros skip x Hx.
  - destruct skip as [|n]; simpl in Hx; [|by apply elem_of_nil in Hx].
    destruct (match_at r []) as [[s' c']|]; [|by apply elem_of_nil in Hx].
    rewrite app_nil_r in Hx. by right.
  - assert (Hrec : forall n, x ∈ sub_from r repl n t ->
                       x ∈ y :: t \/ x ∈ repl).
    { intros n Hn. apply IH in Hn as [Hn|Hn]; [left | by right].
      by apply list_elem_of_further. }
    destruct skip as [|n]; cbn [sub_from] in Hx; [|by eapply Hrec].
    destruct (match_at r (y :: t)) as [[s' c']|].
    + apply elem_of_app in Hx as [Hx|Hx]; [by right|].
      destruct (length (y :: t) - length s') as [|w]; [|by eapply Hrec].
      apply elem_of_cons in Hx as [->|Hx]; [|by eapply Hrec].
      left. apply list_elem_of_here.
    + apply elem_of_cons in Hx as [->|Hx]; [|by eapply Hrec].
      left. apply list_elem_of_here.
Qed.

Lemma sub_delete_subseteq r s : sub r [] s ⊆ s.
Proof.
  intros x Hx. apply sub_from_elem in Hx as [Hx|Hx]; [done|].
  by apply elem_of_nil in Hx.
Qed.

(** The shape of a match of the numeral path. *)
Lemma numeral_shape s c s' c' :
  matches re_numeral s c s' c' ->
  exists x m1 m2,
    s = (x :: m1 ++ DOT :: m2) ++ s' /\ is_digit x = true /\
    Forall path_char m1 /\ Forall path_char m2 /\ c' = c.
Proof.
  assert (Hd : keeps path_char digits).
  { apply keeps_plus, keeps_chr. intros x Hx. by left. }
  assert (Hbody : keeps path_char (Seq (Chr (N.eqb DOT)) digits)).
  { apply keeps_seq; [|done]. apply keeps_chr. intros x Hx. right.
    by apply N.eqb_eq in Hx. }
  intros H. apply matches_seq in H as (s1 & c1 & H1 & H2).
  apply matches_class_plus in H1 as (x & m & -> & Hx & Hm & ->).
  apply matches_seq in H2 as (s2 & c2 & H2 & H3).
  apply matches_seq in H2 as (s3 & c3 & H2 & H4).
  apply matches_chr in H2 as (y & -> & Hy & ->). apply N.eqb_eq in Hy as <-.
  apply Hd in H4 as (m' & -> & Hm' & ->).
  apply (keeps_star _ true) in Hbody.
  apply Hbody in H3 as (m'' & -> & Hm'' & ->).
  exists x, m, (m' ++ m''). split; [|split; [done|split; [|split; [|done]]]].
  - simpl. f_equal. rewrite <- app_assoc. simpl. by rewrite <- app_assoc.
  - eapply Forall_impl; [exact Hm|]. intros z Hz. by left.
  - by apply Forall_app.
Qed.

(** The groups of a match of an entry pattern: group 1 is a numeral path
    and group 2 has no newline. *)
Lemma toc_plain_groups s c s' c' :
  matches re_toc_plain s c s' c' ->
  exists x m1 m2 T,
    c' = (2, T) :: (1, x :: m1 ++ DOT :: m2) :: c /\ is_digit x = true /\
    Forall path_char m1 /\ Forall path_char m2 /\ (LF ∉ T).
Proof.
  intros H. apply matches_seq in H as (s1 & c1 & H1 & H).
  apply matches_group in H1 as (c2 & H1 & ->).
  apply numeral_shape in H1 as (x & m1 & m2 & -> & Hx & Hm1 & Hm2 & ->).
  rewrite consumed_app in H.
  apply matches_seq in H as (s2 & c3 & H2 & H).
  apply matches_class_plus in H2 as (y & m & _ & _ & _ & ->).
  apply matches_seq in H as (s3 & c4 & H3 & H4).
  apply matches_group in H3 as (c5 & H3 & ->).
  apply matches_class_plus in H3 as (z & m' & -> & Hz & Hm' & ->).
  apply keeps_leader in H4 as (m'' & _ & _ & ->).
  exists x, m1, m2, (z :: m').
  split; [f_equal; f_equal; exact (consumed_app (z :: m') s3)|].
  split; [done|]. split; [done|]. split; [done|].
  intros Hin. rewrite Forall_forall in Hm'.
  apply elem_of_cons in Hin as [<-|Hin].
  - by rewrite N.eqb_refl in Hz.
  - specialize (Hm' _ Hin). by rewrite N.eqb_refl in Hm'.
Qed.

Lemma toc_bullet_groups s c s' c' :
  matches re_toc_bullet s c s' c' ->
  exists x m1 m2 T,
    c' = (2, T) :: (1, x :: m1 ++ DOT :: m2) :: c /\ is_digit x = true /\
    Forall path_char m1 /\ Forall path_char m2 /\ (LF ∉ T).
Proof.
  intros H. apply matches_seq in H as (s1 & c1 & H1 & H).
  apply matches_chr in H1 as (y & _ & _ & ->).
  apply matches_seq in H as (s2 & c2 & H2 & H).
  apply matches_class_star in H2 as (m & _ & _ & ->).
  by apply toc_plain_groups in H.
Qed.

Lemma toc_lines_elem toc_text c :
  c ∈ toc_lines toc_text ->
  exists x m1 m2 T,
    c = [(2, T); (1, x :: m1 ++ DOT :: m2)] /\ is_digit x = true /\
    Forall path_char m1 /\ Forall path_char m2 /\ (LF ∉ T).
Proof.
  unfold toc_lines. intros Hc.
  destruct (findall re_toc_bullet toc_text) as [|c0 l] eqn:Hb.
  - apply findall_from_elem in Hc as (j & s' & Hm).
    apply match_at_Some in Hm. by apply toc_plain_groups in Hm.
  - rewrite <- Hb in Hc. apply findall_from_elem in Hc as (j & s' & Hm).
    apply match_at_Some in Hm. by apply toc_bullet_groups in Hm.
Qed.

End Entries.

(** * Blank texts and texts without leader dots *)

Section Blank.

Lemma lstrip_blank s : Forall (fun x => is_space x = true) s -> lstrip s = [].
Proof. induction 1 as [|x s Hx _ IH]; simpl; [done|]. by rewrite Hx. Qed.

Lemma strip_blank s : Forall (fun x => is_space x = true) s -> strip s = [].
Proof. intros H. unfold strip. by rewrite (lstrip_blank s H). Qed.

Lemma dot_break_needs_dot s c s' c' :
  matches re_dot_break s c s' c' -> DOT ∈ s.
Proof.
  intros H. apply matches_seq in H as (s1 & c1 & H1 & H).
  apply matches_seq in H as (s2 & c2 & H2 & H).
  apply matches_seq in H as (s3 & c3 & H3 & H).
  apply matches_seq in H as (s4 & c4 & H4 & _).
  apply matches_chr in H4 as (x & -> & Hx & _). apply N.eqb_eq in Hx as <-.
  eapply elem_of_suffix; [|exact (matches_suffix _ _ _ _ _ H1)].
  eapply elem_of_suffix; [|exact (matches_suffix _ _ _ _ _ H2)].
  eapply elem_of_suffix; [|exact (matches_suffix _ _ _ _ _ H3)].
  apply list_elem_of_here.
Qed.

Lemma sub_dot_break_no_dot s : (DOT ∉ s) -> sub re_dot_break [DOT] s = s.
Proof.
  intros Hs. apply sub_no_match. intros j. apply match_at_None.
  intros s' c Hm. apply Hs.
  eapply elem_of_suffix; [by eapply dot_break_needs_dot | apply suffix_drop].
Qed.

Lemma sub_blank r repl s :
  Forall (fun x => is_space x = true) repl ->
  Forall (fun x => is_space x = true) s ->
  Forall (fun x => is_space x = true) (sub r repl s).
Proof.
  intros Hrepl Hs. apply Forall_forall. intros x Hx.
  rewrite Forall_forall in Hrepl, Hs.
  apply sub_from_elem in Hx as [Hx|Hx]; auto.
Qed.

Lemma normalize_blank s :
  Forall (fun x => is_space x = true) s -> normalize s = [].
Proof.
  intros Hs. unfold normalize. apply strip_blank.
  rewrite sub_dot_break_no_dot.
  - repeat apply sub_blank; try done; by repeat constructor.
  - intros Hin. rewrite Forall_forall in Hs. by specialize (Hs _ Hin).
Qed.

Lemma missing_empty_text es : missing [] es = es.
Proof.
  unfold missing. induction es as [|e es IH]; [done|].
  rewrite filter_cons_True; [by rewrite IH|].
  intros Hl. apply located_occurs in Hl as (a & b & Hab).
  pose proof (start_string_not_nil e) as Hne.
  destruct a; [|done]. by destruct (start_string e).
Qed.

Lemma extract_sections_empty_text stdout es : extract_sections stdout [] es = [].
Proof.
  induction es as [|e es IH]; [done|].
  rewrite extract_sections_cons, IH, appended_not_found; [done|].
  rewrite find_0. pose proof (start_string_not_nil e) as Hne.
  by destruct (start_string e).
Qed.

(** A match of the leader dots starts with three dots. *)
Lemma dots3_head s c s' c' :
  matches dots3 s c s' c' -> exists t, s = DOT :: DOT :: DOT :: t.
Proof.
  unfold dots3. simpl. intros H.
  apply matches_seq in H as (s1 & c1 & H1 & H).
  apply matches_seq in H as (s2 & c2 & H2 & H).
  apply matches_seq in H as (s3 & c3 & H3 & _).
  apply matches_chr in H1 as (x1 & -> & Hx1 & _).
  apply matches_chr in H2 as (x2 & -> & Hx2 & _).
  apply matches_chr in H3 as (x3 & -> & Hx3 & _).
  apply N.eqb_eq in Hx1 as <-. apply N.eqb_eq in Hx2 as <-.
  apply N.eqb_eq in Hx3 as <-. by exists s3.
Qed.

Lemma occurs_suffix p s t : occurs p s -> s `suffix_of` t -> occurs p t.
Proof.
  intros (a & b & ->) [k ->]. exists (k ++ a), b. by rewrite <- app_assoc.
Qed.

Lemma toc_plain_needs_dots s c s' c' :
  matches re_toc_plain s c s' c' -> occurs [DOT; DOT; DOT] s.
Proof.
  intros H. apply matches_seq in H as (s1 & c1 & H1 & H).
  apply matches_seq in H as (s2 & c2 & H2 & H).
  apply matches_seq in H as (s3 & c3 & H3 & H).
  unfold re_leader in H.
  apply matches_seq in H as (s4 & c4 & H4 & H).
  apply matches_seq in H as (s5 & c5 & H5 & _).
  apply dots3_head in H5 as [t ->].
  eapply occurs_suffix; [by exists [], t|].
  etrans; [exact (matches_suffix _ _ _ _ _ H4)|].
  etrans; [exact (matches_suffix _ _ _ _ _ H3)|].
  etrans; [exact (matches_suffix _ _ _ _ _ H2)|].
  exact (matches_suffix _ _ _ _ _ H1).
Qed.

Lemma toc_bullet_needs_dots s c s' c' :
  matches re_toc_bullet s c s' c' -> occurs [DOT; DOT; DOT] s.
Proof.
  intros H. apply matches_seq in H as (s1 & c1 & H1 & H).
  apply matches_seq in H as (s2 & c2 & H2 & H).
  eapply occurs_suffix; [by eapply toc_plain_needs_dots|].
  etrans; [exact (matches_suffix _ _ _ _ _ H2)|].
  exact (matches_suffix _ _ _ _ _ H1).
Qed.

End Blank.

(** * What normalization leaves alone *)

Section Solid.

Lemma filter_solid_nil m :
  Forall (fun x => is_space x = true \/ x = HYPHEN) m -> filter solid m = [].
Proof.
  induction 1 as [|x m Hx _ IH]; [done|].
  rewrite filter_cons_False; [done|].
  intros [Hs Hh]. destruct Hx as [Hx|Hx]; [congruence | done].
Qed.

Lemma filter_solid_blank m :
  Forall (fun x => is_space x = true) m -> filter solid m = [].
Proof.
  intros H. apply filter_solid_nil. eapply Forall_impl; [exact H|].
  intros x Hx. by left.
Qed.

Lemma rstrip_split s :
  exists ws, s = rstrip s ++ ws /\ Forall (fun x => is_space x = true) ws.
Proof.
  destruct (lstrip_split (reverse s)) as (ws & Hs & Hws).
  exists (reverse ws). split.
  - unfold rstrip. rewrite <- reverse_app, <- Hs. by rewrite reverse_involutive.
  - by apply Forall_reverse.
Qed.

Lemma filter_solid_strip s : filter solid (strip s) = filter solid s.
Proof.
  unfold strip.
  destruct (lstrip_split s) as (ws & Hs & Hws).
  destruct (rstrip_split (lstrip s)) as (ws' & Hs' & Hws').
  transitivity (filter solid (lstrip s)).
  - transitivity (filter solid (rstrip (lstrip s) ++ ws')); [|by rewrite <- Hs'].
    by rewrite filter_app, (filter_solid_blank ws' Hws'), app_nil_r.
  - transitivity (filter solid (ws ++ lstrip s)); [|by rewrite <- Hs].
    by rewrite filter_app, (filter_solid_blank ws Hws).
Qed.

(** A substitution whose matches hold the same solid characters as the
    replacement keeps the solid characters of the text. *)
Lemma sub_from_filter_solid r repl :
  (forall s s' c, match_at r s = Some (s', c) ->
     filter solid (consumed s s') = filter solid repl) ->
  forall s skip,
    filter solid (sub_from r repl skip s) = filter solid (drop skip s).
Proof.
  unfold str in *. intros Hr. induction s as [|x t IH]; intros skip.
  - destruct skip as [|n]; simpl; [|done].
    destruct (match_at r []) as [[s' c]|] eqn:Hm; [|done].
    apply Hr in Hm. unfold consumed in Hm. rewrite take_nil in Hm.
    by rewrite app_nil_r, <- Hm.
  - destruct skip as [|n]; cbn [sub_from drop]; [|apply IH].
    destruct (match_at r (x :: t)) as [[s' c]|] eqn:Hm.
    + apply Hr in Hm. unfold consumed in Hm. rewrite filter_app.
      destruct (length (x :: t) - length s')%nat as [|w].
      * rewrite take_0 in Hm. rewrite <- Hm. simpl.
        rewrite !(filter_cons solid x). specialize (IH 0%nat).
        rewrite drop_0 in IH. by rewrite IH.
      * rewrite <- Hm, IH. rewrite <- filter_app. f_equal.
        rewrite firstn_cons. simpl. f_equal. apply take_drop.
    + rewrite !(filter_cons solid x). specialize (IH 0%nat).
      rewrite drop_0 in IH. by rewrite IH.
Qed.

Lemma sub_filter_solid r repl s :
  (forall s s' c, match_at r s = Some (s', c) ->
     filter solid (consumed s s') = filter solid repl) ->
  filter solid (sub r repl s) = filter solid s.
Proof.
  intros Hr. unfold sub. by rewrite (sub_from_filter_solid r repl Hr s 0).
Qed.

Lemma keeps_consumed P r s s' c :
  keeps P r -> match_at r s = Some (s', c) ->
  Forall P (consumed s s').
Proof.
  intros Hk Hm. apply match_at_Some, Hk in Hm as (m & -> & Hm & _).
  by rewrite consumed_app.
Qed.

Lemma keeps_space_spaces : keeps (fun x => is_space x = true) spaces.
Proof. apply keeps_star, keeps_chr. auto. Qed.

Lemma keeps_space_newline : keeps (fun x => is_space x = true) newline.
Proof. apply keeps_chr. intros x Hx. by apply N.eqb_eq in Hx as <-. Qed.

Lemma keeps_space_line_break : keeps (fun x => is_space x = true) re_line_break.
Proof.
  apply keeps_seq; [apply keeps_space_spaces|].
  apply keeps_seq; [apply keeps_space_newline | apply keeps_space_spaces].
Qed.

Lemma keeps_weaken (P Q : char -> Prop) r :
  (forall x, P x -> Q x) -> keeps P r -> keeps Q r.
Proof.
  intros HPQ Hk s c s' c' Hm. apply Hk in Hm as (m & -> & Hm & ->).
  exists m. split; [done|]. split; [|done]. by eapply Forall_impl.
Qed.

Lemma keeps_hyphen_break :
  keeps (fun x => is_space x = true \/ x = HYPHEN) re_hyphen_break.
Proof.
  apply keeps_seq.
  - apply keeps_chr. intros x Hx. right. by apply N.eqb_eq in Hx.
  - apply (keeps_weaken (fun x => is_space x = true)); [by left|].
    apply keeps_space_line_break.
Qed.

Lemma dot_break_solid s s' c :
  match_at re_dot_break s = Some (s', c) ->
  filter solid (consumed s s') = [DOT].
Proof.
  intros Hm. apply match_at_Some in Hm.
  apply matches_seq in Hm as (s1 & c1 & H1 & H).
  apply matches_seq in H as (s2 & c2 & H2 & H).
  apply matches_seq in H as (s3 & c3 & H3 & H).
  apply matches_seq in H as (s4 & c4 & H4 & H5).
  apply keeps_space_spaces in H1 as (m1 & -> & Hm1 & _).
  apply keeps_space_newline in H2 as (m2 & -> & Hm2 & _).
  apply keeps_space_spaces in H3 as (m3 & -> & Hm3 & _).
  apply matches_chr in H4 as (x & -> & Hx & _). apply N.eqb_eq in Hx as <-.
  apply keeps_space_spaces in H5 as (m5 & -> & Hm5 & _).
  unfold str in *.
  replace (m1 ++ m2 ++ m3 ++ DOT :: m5 ++ s')
    with ((m1 ++ m2 ++ m3 ++ DOT :: m5) ++ s')
    by (by rewrite <- !app_assoc; simpl; rewrite <- ?app_assoc).
  rewrite consumed_app, !filter_app, (filter_cons solid DOT).
  rewrite (filter_solid_blank m1), (filter_solid_blank m2),
    (filter_solid_blank m3), (filter_solid_blank m5) by done.
  by vm_compute.
Qed.

Lemma filter_solid_normalize s : filter solid (normalize s) = filter solid s.
Proof.
  unfold normalize. rewrite filter_solid_strip.
  rewrite (sub_filter_solid re_spaces).
  2:{ intros t t' c Hm. etrans; [apply filter_solid_blank|done].
      eapply keeps_consumed; [|exact Hm]. apply keeps_plus, keeps_chr. auto. }
  rewrite (sub_filter_solid re_line_break).
  2:{ intros t t' c Hm. etrans; [apply filter_solid_blank|done].
      eapply keeps_consumed; [|exact Hm]. apply keeps_space_line_break. }
  rewrite (sub_filter_solid re_hyphen_break).
  2:{ intros t t' c Hm. etrans; [apply filter_solid_nil|done].
      eapply keeps_consumed; [|exact Hm]. apply keeps_hyphen_break. }
  apply sub_filter_solid. intros t t' c Hm.
  by rewrite (dot_break_solid _ _ _ Hm).
Qed.

Lemma normalize_elem s x : x ∈ normalize s -> x ∈ s \/ x = SP.
Proof.
  intros Hx. destruct (decide (solid x)) as [Hs|Hs].
  - left. assert (Hf : x ∈ filter solid (normalize s))
      by (by apply list_elem_of_filter).
    rewrite filter_solid_normalize in Hf.
    by apply list_elem_of_filter in Hf as [_ Hf].
  - unfold normalize in Hx. apply strip_subseteq in Hx.
    apply sub_from_elem in Hx as [Hx|Hx];
      [|apply list_elem_of_singleton in Hx; by right].
    apply sub_from_elem in Hx as [Hx|Hx];
      [|apply list_elem_of_singleton in Hx; by right].
    apply sub_from_elem in Hx as [Hx|Hx]; [|by apply elem_of_nil in Hx].
    apply sub_from_elem in Hx as [Hx|Hx]; [by left|].
    apply list_elem_of_singleton in Hx as ->. destruct Hs. by vm_compute.
Qed.

End Solid.

(** * The handler *)

Section Handler.

Lemma truth_string s : truth (JString s) = true <-> s <> [].
Proof. simpl. by rewrite bool_decide_eq_true. Qed.

Lemma get_string data key s :
  s <> [] -> get data key = JString s -> data !! key = Some (JString s).
Proof.
  unfold get. intros Hs H. destruct (data !! key) as [v|]; simpl in H.
  - by subst.
  - inversion H; subst. done.
Qed.

Lemma process_pdf_valid stdout request toc_text pdf_text :
  valid request toc_text pdf_text ->
  process_pdf stdout request
  = answer (parse_pdf_text_by_toc stdout toc_text pdf_text).
Proof.
  intros (data & -> & Ht & Hp & Hte & Hpe). unfold process_pdf, get.
  rewrite Ht, Hp. cbn [default from_option id truth].
  by rewrite !bool_decide_eq_true_2.
Qed.

Lemma valid_unique request t p t' p' :
  valid request t p -> valid request t' p' -> t' = t /\ p' = p.
Proof.
  intros (d & -> & Ht & Hp & _) (d' & Hd & Ht' & Hp' & _).
  inversion Hd; subst d'. split; congruence.
Qed.

Lemma process_pdf_cases stdout request :
  (exists toc_text pdf_text, valid request toc_text pdf_text /\
     process_pdf stdout request
     = answer (parse_pdf_text_by_toc stdout toc_text pdf_text)) \/
  (exists data, request = JObject data /\
     (falsy data (lit "toc_text") \/ falsy data (lit "pdf_text")) /\
     (forall toc_text pdf_text, ~ valid request toc_text pdf_text) /\
     process_pdf stdout request = ([], (ErrorEmpty, 400%N))) \/
  ((forall toc_text pdf_text, ~ valid request toc_text pdf_text) /\
   (forall data, request = JObject data ->
      ~ (falsy data (lit "toc_text") \/ falsy data (lit "pdf_text"))) /\
   process_pdf stdout request = ([], (ErrorRaised, 500%N))).
Proof.
  destruct request as [data|].
  2:{ right. right. split; [by intros t p (data & Hd & _)|].
      split; [|done]. by intros data Hd. }
  destruct (truth (get data (lit "toc_text"))) eqn:Ht.
  2:{ right. left. exists data. split; [done|]. split; [by left|].
      split; [|by unfold process_pdf; rewrite Ht].
      intros t p (d & Hd & Ht' & _ & Hte & _). inversion Hd; subst d.
      unfold get in Ht. rewrite Ht' in Ht. cbn in Ht.
      by rewrite bool_decide_eq_true_2 in Ht. }
  destruct (truth (get data (lit "pdf_text"))) eqn:Hp.
  2:{ right. left. exists data. split; [done|]. split; [by right|].
      split; [|by unfold process_pdf; rewrite Ht, Hp].
      intros t p (d & Hd & _ & Hp' & _ & Hpe). inversion Hd; subst d.
      unfold get in Hp. rewrite Hp' in Hp. cbn in Hp.
      by rewrite bool_decide_eq_true_2 in Hp. }
  assert (Hnf : forall d, JObject data = JObject d ->
            ~ (falsy d (lit "toc_text") \/ falsy d (lit "pdf_text"))).
  { intros d Hd. inversion Hd; subst d. unfold falsy.
    intros [H|H]; congruence. }
  destruct (get data (lit "toc_text")) as [t|bt] eqn:Hgt.
  - destruct (get data (lit "pdf_text")) as [p|bp] eqn:Hgp.
    + left. exists t, p.
      assert (Hv : valid (JObject data) t p).
      { exists data. apply truth_string in Ht, Hp.
        split; [done|]. split; [by apply get_string|].
        split; [by apply get_string | done]. }
      split; [done|]. by apply process_pdf_valid.
    + right. right. split; [|split; [done|]].
      * intros t' p' (d & Hd & _ & Hp' & _). inversion Hd; subst d.
        unfold get in Hgp. by rewrite Hp' in Hgp.
      * unfold process_pdf. by rewrite Hgt, Hgp, Ht, Hp.
  - right. right. split; [|split; [done|]].
    + intros t' p' (d & Hd & Ht' & _). inversion Hd; subst d.
      unfold get in Hgt. by rewrite Ht' in Hgt.
    + unfold process_pdf. rewrite Hgt, Ht, Hp.
      by destruct (get data (lit "pdf_text")).
Qed.

End Handler.

(** * Where the fields come from *)

Section Pieces.

Lemma occurs_nil S : occurs [] S.
Proof. by exists [], S. Qed.

Lemma occurs_trans a b d : occurs a b -> occurs b d -> occurs a d.
Proof.
  intros (k1 & k2 & ->) (h1 & h2 & ->). exists (h1 ++ k1), (k2 ++ h2).
  by rewrite <- !app_assoc.
Qed.

Lemma occurs_consumed s s' S :
  s' `suffix_of` s -> s `suffix_of` S -> occurs (consumed s s') S.
Proof.
  intros [m ->] [k ->]. rewrite consumed_app. by exists k, s'.
Qed.

Lemma star_caps_occur g a :
  (forall s c s' c' S, matches a s c s' c' -> s `suffix_of` S ->
     caps_occur S c -> caps_occur S c') ->
  forall s c s' c' S, matches (Star g a) s c s' c' ->
    s `suffix_of` S -> caps_occur S c -> caps_occur S c'.
Proof.
  intros IHa s c s' c' S H. remember (Star g a) as r eqn:Hr.
  induction H; try discriminate; inversion Hr; subst; intros Hs Hc; [done|].
  apply IHmatches2; [done| |by eapply IHa].
  etrans; [by eapply matches_suffix | done].
Qed.

(** The groups of a match stand in the matched text. *)
Lemma matches_caps_occur r : forall s c s' c' S,
  matches r s c s' c' -> s `suffix_of` S -> caps_occur S c -> caps_occur S c'.
Proof.
  induction r as [|p|a IHa b IHb|a IHa b IHb|g a IHa|n a IHa|a IHa|];
    intros s c s' c' S Hm Hs Hc.
  - by inversion Hm; subst.
  - by inversion Hm; subst.
  - apply matches_seq in Hm as (s1 & c1 & H1 & H2).
    eapply IHb; [exact H2| |by eapply IHa].
    etrans; [by eapply matches_suffix | done].
  - inversion Hm; subst; [by eapply IHa | by eapply IHb].
  - by eapply star_caps_occur.
  - inversion Hm; subst. intros m g Hg.
    apply elem_of_cons in Hg as [Hg|Hg].
    + inversion Hg; subst. apply occurs_consumed; [|done].
      by eapply matches_suffix.
    + match goal with
      | H : matches a _ _ _ _ |- _ => by apply (IHa _ _ _ _ S H Hs Hc m)
      end.
  - inversion Hm; subst.
    match goal with
    | H : go a _ _ _ = Some _ |- _ =>
        apply go_sound in H as (s1 & c1 & H1 & Hk)
    end.
    inversion Hk; subst. by eapply IHa.
  - by inversion Hm; subst.
Qed.

Lemma occurs_strip s : occurs (strip s) s.
Proof.
  destruct (lstrip_split s) as (ws & Hs & _).
  destruct (rstrip_split (lstrip s)) as (ws' & Hs' & _).
  exists ws, ws'. unfold strip. by rewrite <- Hs', <- Hs.
Qed.

Lemma occurs_slice s i j : occurs (slice s i j) s.
Proof.
  unfold slice. exists (take i s), (drop (j - i) (drop i s)).
  by rewrite take_drop, take_drop.
Qed.

Lemma field_occurs r s g : field r s = Some g -> occurs g s /\ strip g = g.
Proof.
  unfold field. destruct (search r s) as [[[i s'] m]|] eqn:Hs; [|done].
  intros H. inversion H; subst. split; [|apply strip_idemp].
  eapply occurs_trans; [apply occurs_strip|].
  unfold group_text. destruct (group 1 m) as [g|] eqn:Hg; [|apply occurs_nil].
  apply group_elem in Hg. apply search_Some in Hs as [Hs _].
  apply match_at_Some in Hs.
  eapply (matches_caps_occur _ _ _ _ _ s Hs); [apply suffix_drop| |exact Hg].
  intros n h Hh. by apply elem_of_nil in Hh.
Qed.

End Pieces.

(** * Anchors that the normalized text cannot hold *)

Section Irregular.

Lemma well_spaced_occurs p S :
  occurs p S -> well_spaced S = true -> well_spaced p = true.
Proof.
  intros (a & b & ->) H. rewrite app_assoc in H.
  apply well_spaced_prefix in H.
  apply (well_spaced_suffix (a ++ p)); [by apply suffix_app_r | done].
Qed.

Lemma located_well_spaced full_text e :
  located (normalize full_text) e -> well_spaced (description e) = true.
Proof.
  intros H. apply located_occurs in H.
  destruct (normalize_normalized full_text) as [Hw _].
  pose proof (well_spaced_occurs _ _ H Hw) as Hs.
  apply (well_spaced_suffix (start_string e)); [|done].
  unfold start_string. rewrite app_assoc. by apply suffix_app_r.
Qed.

Lemma record_entry_located stdout text es r :
  r ∈ extract_sections stdout text es -> located text (entry_of r).
Proof.
  intros H. assert (He : entry_of r ∈ entry_of <$> extract_sections stdout text es)
    by (by apply list_elem_of_fmap_2).
  destruct (run_loop_filter stdout text es) as [Hf _]. rewrite Hf in He.
  by apply list_elem_of_filter in He as [He _].
Qed.

End Irregular.

(** * The lines of a table of contents, one after the other *)

Section Rows.

(** A lazy run stops at the first place at which the continuation
    succeeds. *)
Lemma lazy_run_first {R} p m s c (k : str -> caps -> option R) :
  Forall (fun x => p x = true) m -> is_Some (k s c) ->
  exists j, j <= length m /\
    lazy_run p (m ++ s) c k = k (drop j m ++ s) c /\
    is_Some (k (drop j m ++ s) c) /\
    forall i, i < j -> k (drop i m ++ s) c = None.
Proof.
  intros Hm Hk. induction Hm as [|x m Hx Hm IH].
  - exists 0. split; [done|]. destruct Hk as [r Hr]. simpl.
    rewrite (lazy_run_here p s c k r Hr). split; [done|].
    split; [by rewrite Hr|]. intros i Hi. lia.
  - destruct (k (x :: m ++ s) c) as [r|] eqn:Hhere.
    + exists 0. simpl. rewrite Hhere. split; [lia|]. split; [done|].
      split; [done|]. intros i Hi. lia.
    + destruct IH as (j & Hj & Hrun & Hsome & Hmin).
      exists (S j). simpl. rewrite Hhere, Hx. split; [lia|]. split; [done|].
      split; [done|]. intros [|i] Hi; [done|]. apply Hmin. lia.
Qed.

(** The shape of what the leader pattern takes. *)
Lemma leader_shape s c s' c' :
  matches re_leader s c s' c' ->
  exists a n c0 e,
    s = a ++ replicate n DOT ++ c0 ++ e ++ s' /\
    blank a /\ 3 <= n /\ blank c0 /\ e <> [] /\
    Forall (fun x => is_digit x = true) e /\ c' = c.
Proof.
  intros H. unfold re_leader in H.
  apply matches_seq in H as (s1 & c1 & H1 & H).
  apply matches_class_star in H1 as (a & -> & Ha & ->).
  apply matches_seq in H as (s2 & c2 & H2 & H).
  unfold dots3 in H2. simpl in H2.
  apply matches_seq in H2 as (t1 & d1 & Hd1 & H2).
  apply matches_seq in H2 as (t2 & d2 & Hd2 & H2).
  apply matches_seq in H2 as (t3 & d3 & Hd3 & H2).
  apply matches_chr in Hd1 as (x1 & -> & Hx1 & ->).
  apply matches_chr in Hd2 as (x2 & -> & Hx2 & ->).
  apply matches_chr in Hd3 as (x3 & -> & Hx3 & ->).
  apply N.eqb_eq in Hx1 as <-. apply N.eqb_eq in Hx2 as <-.
  apply N.eqb_eq in Hx3 as <-.
  apply matches_class_star in H2 as (m & -> & Hm & ->).
  apply matches_seq in H as (s3 & c3 & H3 & H).
  apply matches_class_star in H3 as (c0 & -> & Hc0 & ->).
  apply matches_class_plus in H as (y & e & -> & Hy & He & ->).
  assert (Hrep : m = replicate (length m) DOT).
  { clear -Hm. induction Hm as [|z m Hz _ IH]; [done|].
    apply N.eqb_eq in Hz as <-. simpl. by rewrite <- IH. }
  exists a, (3 + length m), c0, (y :: e).
  split; [|split; [done|split; [lia|split; [done|split; [done|split; [|done]]]]]].
  - simpl. by rewrite <- Hrep.
  - by constructor.
Qed.

(** Digits stand at the end of what a pattern of the shape "no digits, then
    digits" takes: it cannot reach past a digit that a character that is no
    digit follows. *)
Lemma class_boundary (M e s' X0 Y B : str) p0 :
  M ++ e ++ s' = X0 ++ p0 :: Y ++ B ->
  no_digit M -> Forall (fun x => is_digit x = true) e ->
  is_digit p0 = true -> stops_digits B ->
  length (M ++ e) <= length (X0 ++ p0 :: Y).
Proof.
  intros Heq HM He Hp0 HB.
  destruct (decide (length (M ++ e) <= length (X0 ++ p0 :: Y))) as [|Hgt];
    [done|]. exfalso.
  destruct B as [|y B].
  { apply (f_equal length) in Heq. rewrite app_nil_r in Heq.
    rewrite !length_app in Heq. rewrite !length_app in Hgt.
    simpl in Heq, Hgt. lia. }
  simpl in HB.
  assert (HL : (M ++ e ++ s') !! length (X0 ++ p0 :: Y) = Some y).
  { rewrite Heq.
    replace (X0 ++ p0 :: Y ++ y :: B) with ((X0 ++ p0 :: Y) ++ y :: B)
      by (by rewrite <- app_assoc).
    by rewrite list_lookup_middle. }
  assert (HX : (M ++ e ++ s') !! length X0 = Some p0).
  { rewrite Heq. by rewrite list_lookup_middle. }
  assert (Hlen : length X0 < length (X0 ++ p0 :: Y)).
  { rewrite length_app. simpl. lia. }
  assert (HMX : length M <= length X0).
  { destruct (decide (length M <= length X0)) as [|Hlt]; [done|]. exfalso.
    rewrite lookup_app_l in HX by lia.
    apply list_elem_of_lookup_2 in HX.
    unfold no_digit in HM. rewrite Forall_forall in HM.
    specialize (HM _ HX). congruence. }
  rewrite app_assoc in HL. rewrite lookup_app_l in HL by lia.
  rewrite lookup_app_r in HL by lia.
  apply list_elem_of_lookup_2 in HL.
  rewrite Forall_forall in He. specialize (He _ HL). congruence.
Qed.


(** In a clean title the leader cannot start. *)
Lemma leader_not_in_clean title u rest c s' c' :
  clean title -> u `suffix_of` title -> u <> [] ->
  ~ matches re_leader (u ++ rest) c s' c'.
Proof.
  intros (Hr & Hno & Hlast) [k Hk] Hne Hm.
  apply leader_shape in Hm as (a & n & c0 & e & Heq & Ha & Hn & _).
  destruct n as [|[|[|n]]]; [lia..|]. simpl in Heq.
  assert (Hx : exists x, last title = Some x /\ x ∈ u).
  { destruct (last u) as [x|] eqn:Hu.
    - exists x. split; [|by apply last_Some_elem_of].
      by rewrite Hk, last_app, Hu.
    - by apply last_None in Hu. }
  destruct Hx as (x & Hxl & Hxu).
  replace (a ++ DOT :: DOT :: DOT :: replicate n DOT ++ c0 ++ e ++ s')
    with ((a ++ [DOT; DOT; DOT]) ++ replicate n DOT ++ c0 ++ e ++ s') in Heq
    by (by rewrite <- app_assoc).
  apply app_eq_inv in Heq as [(k' & Hk' & _)|(k' & Hk' & _)].
  - apply Hno. exists (k ++ a), k'. rewrite Hk, Hk'.
    by rewrite <- !app_assoc.
  - assert (Hin : x ∈ a ++ [DOT; DOT; DOT]).
    { rewrite Hk'. apply elem_of_app. by left. }
    apply elem_of_app in Hin as [Hin|Hin].
    + unfold blank in Ha. rewrite Forall_forall in Ha. specialize (Ha _ Hin).
      rewrite <- Hr in Hxl. apply rstrip_last in Hxl. congruence.
    + assert (x = DOT) as ->.
      { repeat (apply elem_of_cons in Hin as [Hin|Hin]; [done|]).
        by apply elem_of_nil in Hin. }
      done.
Qed.

(** Behind a clean title nothing of the page-number suffix is cut. *)
Lemma page_suffix_clean s :
  ~ occurs [DOT; DOT; DOT] s -> sub re_page_suffix [] s = s.
Proof.
  intros Hs. apply sub_no_match. intros j. apply match_at_None.
  intros s' c Hm. unfold re_page_suffix in Hm.
  apply matches_seq in Hm as (s1 & c1 & Hm & _).
  apply dots3_head in Hm as [t Ht]. apply Hs.
  exists (take j s), t. simpl. by rewrite <- Ht, take_drop.
Qed.

(** The leader pattern on the leader of a line: it takes all of it when no
    digit follows the page number. *)
Lemma go_leader_exact {R} fill n page_gap page rest c
    (k : str -> caps -> option R) res :
  blank fill -> 3 <= n -> blank page_gap -> digit_string page ->
  stops_digits rest ->
  k rest c = Some res ->
  go re_leader (fill ++ replicate n DOT ++ page_gap ++ page ++ rest) c k
  = Some res.
Proof.
  intros Hfill Hn Hgap [Hpne Hpage] Hrest Hk.
  destruct page as [|p0 page]; [done|].
  apply Forall_cons in Hpage as [Hp0 Hpage].
  destruct n as [|[|[|n]]]; [lia..|].
  unfold re_leader, spaces, dots3, digits, plus. cbn [at_least].
  rewrite go_seq, (@go_star_greedy_class R).
  apply greedy_run_longest; [done|done|].
  cbn [replicate app]. rewrite go_seq.
  do 3 (rewrite go_seq, go_chr_cons, N.eqb_refl; cbv beta).
  rewrite (@go_star_greedy_class R).
  apply greedy_run_longest.
  { apply Forall_replicate, N.eqb_refl. }
  { destruct page_gap as [|g page_gap]; cbn [app].
    - destruct (N.eqb_spec DOT p0) as [<-|]; [by vm_compute in Hp0|done].
    - apply Forall_cons in Hgap as [Hg _].
      destruct (N.eqb_spec DOT g) as [<-|]; [by vm_compute in Hg|done]. }
  rewrite go_seq, (@go_star_greedy_class R).
  apply greedy_run_longest; [done| |].
  { simpl. by apply digit_not_space. }
  rewrite go_seq. simpl app.
  rewrite go_chr_cons, Hp0, (@go_star_greedy_class R).
  apply greedy_run_longest; [done| |done].
  destruct rest; [done|]. exact Hrest.
Qed.


Lemma space_not_digit x : is_space x = true -> is_digit x = false.
Proof.
  intros Hs. destruct (is_digit x) eqn:Hd; [|done].
  apply digit_not_space in Hd. congruence.
Qed.

(** The title and the leader of a line, behind the whitespace that follows
    the numeral path. Group 2 is the start of the title up to the first place
    at which the leader pattern matches; the match ends inside the line or
    in what follows it, before [B], whose head is no digit. With a clean
    title group 2 is the title, and the match ends behind the page number
    when no digit follows it. *)
Lemma toc_title_row title fill n page_gap page A B c :
  title <> [] -> (LF ∉ title) ->
  blank fill -> 3 <= n -> blank page_gap -> digit_string page ->
  stops_digits B ->
  exists T junk,
    go (Seq (Group 2 (plus false not_newline)) re_leader)
       (title ++ fill ++ replicate n DOT ++ page_gap ++ page ++ A ++ B) c
       (fun s c => Some (s, c))
      = Some (junk ++ B, (2, T) :: c) /\
    junk `suffix_of`
      (title ++ fill ++ replicate n DOT ++ page_gap ++ page ++ A) /\
    (clean title -> T = title /\ (stops_digits (A ++ B) -> junk = A)).
Proof.
  intros Hnet Hnl Hfill Hn Hgap Hpage HB.
  set (rest := fill ++ replicate n DOT ++ page_gap ++ page ++ A ++ B).
  destruct title as [|t0 title']; [done|].
  assert (Hnn : forall x, x ∈ t0 :: title' -> negb (N.eqb x LF) = true).
  { intros x Hx. apply negb_true_iff, N.eqb_neq. intros ->. done. }
  pose (K2 := fun (s : str) (c' : caps) =>
          go re_leader s ((2, consumed ((t0 :: title') ++ rest) s) :: c')
             (fun s c => Some (s, c))).
  assert (Hgo : go (Seq (Group 2 (plus false not_newline)) re_leader)
                   ((t0 :: title') ++ rest) c (fun s c => Some (s, c))
                = lazy_run (fun x => negb (N.eqb x LF)) (title' ++ rest) c K2).
  { rewrite go_seq, go_group. unfold plus, not_newline.
    rewrite go_seq. simpl app.
    rewrite go_chr_cons, (Hnn t0) by apply list_elem_of_here.
    by rewrite go_star_lazy_class. }
  assert (Hend : is_Some (K2 rest c)).
  { unfold K2.
    pose proof (matches_leader fill n page_gap page (A ++ B)
                  ((2, consumed ((t0 :: title') ++ rest) rest) :: c)
                  Hfill Hn Hgap Hpage) as Hm.
    destruct (go_complete _ _ _ _ _ Hm (fun s c => Some (s, c)) _ eq_refl)
      as [res Hres].
    by exists res. }
  destruct (lazy_run_first (fun x => negb (N.eqb x LF)) title' rest c K2)
    as (j & Hj & Hrun & [res Hres] & _); [|done|].
  { apply Forall_forall. intros x Hx. apply Hnn. by apply list_elem_of_further. }
  remember (drop j title') as u eqn:Hu0.
  assert (HT : consumed ((t0 :: title') ++ rest) (u ++ rest)
               = t0 :: take j title').
  { rewrite <- (consumed_app (t0 :: take j title') (u ++ rest)). f_equal.
    rewrite Hu0. simpl. by rewrite app_assoc, take_drop. }
  pose proof Hres as Hres'. unfold K2 in Hres'. rewrite HT in Hres'.
  apply go_sound in Hres' as (s' & c' & Hm & Hk).
  inversion Hk; subst res. clear Hk.
  pose proof (leader_shape _ _ _ _ Hm) as (a & n' & c0 & e & Heq & Ha & Hn' & Hc0 & Hene & He & ->).
  destruct Hpage as [Hpne Hpd].
  destruct page as [|p0 page']; [done|].
  apply Forall_cons in Hpd as [Hp0 Hpd].
  (* the match does not reach [B] *)
  set (M := a ++ replicate n' DOT ++ c0).
  set (X0 := u ++ fill ++ replicate n DOT ++ page_gap).
  assert (HMe : (M ++ e) ++ s' = (X0 ++ p0 :: page' ++ A) ++ B).
  { unfold M, X0, rest in *. rewrite <- !app_assoc. rewrite <- Heq.
    simpl. by rewrite <- !app_assoc. }
  assert (Hle : length (M ++ e) <= length (X0 ++ p0 :: page' ++ A)).
  { apply (class_boundary M e s' X0 (page' ++ A) B p0); [| |done|done|done].
    - revert HMe. rewrite <- !app_assoc. simpl. by rewrite <- !app_assoc.
    - unfold M, no_digit. rewrite !Forall_app. split; [|split].
      + eapply Forall_impl; [exact Ha|]. apply space_not_digit.
      + by apply Forall_replicate.
      + eapply Forall_impl; [exact Hc0|]. apply space_not_digit. }
  assert (Hs' : s' = drop (length (M ++ e)) (X0 ++ p0 :: page' ++ A) ++ B).
  { rewrite <- drop_app_le by done. rewrite <- HMe.
    by rewrite drop_app_length. }
  exists (t0 :: take j title'), (drop (length (M ++ e)) (X0 ++ p0 :: page' ++ A)).
  split; [|split].
  - fold rest. rewrite Hgo, Hrun, Hres. by rewrite Hs'.
  - etrans; [apply suffix_drop|]. unfold X0.
    rewrite <- !app_assoc.
    apply (suffix_app u (t0 :: title')).
    rewrite Hu0. apply suffix_cons_r, suffix_drop.
  - intros Hclean.
    assert (Hu : u = []).
    { destruct u as [|x u']; [done|]. exfalso.
      revert Hm.
      apply (leader_not_in_clean (t0 :: title')); [done| |done].
      rewrite Hu0. apply suffix_cons_r, suffix_drop. }
    assert (Hjl : take j title' = title').
    { apply take_ge. rewrite Hu0 in Hu.
      apply (f_equal length) in Hu. rewrite length_drop in Hu.
      simpl in Hu. lia. }
    split; [by rewrite Hjl|].
    intros HAB.
    assert (Hex : K2 rest c = Some (A ++ B, (2, t0 :: take j title') :: c)).
    { unfold K2. rewrite <- HT. rewrite Hu. simpl.
      unfold rest at 2. apply go_leader_exact; try done.
      split; [done|]. by constructor. }
    rewrite Hu in Hres. simpl in Hres. rewrite Hex in Hres.
    inversion Hres as [Hjunk]. rewrite Hs' in Hjunk.
    by apply app_inv_tail in Hjunk.
Qed.


Lemma toc_tail_row gap title fill n page_gap page A B c :
  gap <> [] -> blank gap ->
  title <> [] -> (LF ∉ title) -> lstrip title = title ->
  blank fill -> 3 <= n -> blank page_gap -> digit_string page ->
  stops_digits B ->
  exists T junk,
    go re_toc_tail
       (gap ++ title ++ fill ++ replicate n DOT ++ page_gap ++ page ++ A ++ B)
       c (fun s c => Some (s, c))
      = Some (junk ++ B, (2, T) :: c) /\
    junk `suffix_of`
      (title ++ fill ++ replicate n DOT ++ page_gap ++ page ++ A) /\
    (clean title -> T = title /\ (stops_digits (A ++ B) -> junk = A)).
Proof.
  intros Hne Hblank Hnet Hnl Hl Hfill Hn Hpg Hpage HB.
  destruct (toc_title_row title fill n page_gap page A B c)
    as (T & junk & Hgo & Hsuf & Hclean); [done..|].
  exists T, junk. split; [|done].
  unfold re_toc_tail, plus. rewrite !go_seq.
  destruct gap as [|w gap']; [done|].
  apply Forall_cons in Hblank as [Hw Hgap']. simpl app.
  rewrite go_chr_cons, Hw, go_star_greedy_class.
  apply greedy_run_longest; [done| |exact Hgo].
  destruct title as [|t0 title']; [done|]. simpl. simpl in Hl.
  destruct (is_space t0) eqn:Ht0; [|done].
  pose proof (suffix_length _ _ (lstrip_suffix title')) as Hlen.
  rewrite Hl in Hlen. simpl in Hlen. lia.
Qed.

(** At a numeral path that whitespace follows, the pattern without the
    bullet takes the whole numeral path as group 1 and goes on behind it. *)
Lemma toc_plain_numeral first more rest res :
  digit_string first -> more <> [] -> Forall digit_string more ->
  match rest with y :: _ => is_space y = true | [] => True end ->
  go re_toc_tail rest [(1, numeral_path first more)]
     (fun s c => Some (s, c)) = Some res ->
  match_at re_toc_plain (numeral_path first more ++ rest) = Some res.
Proof.
  intros Hf Hne Hmore Hrest Hres.
  set (num := numeral_path first more) in *.
  unfold match_at.
  change re_toc_plain with (Seq (Group 1 re_numeral) re_toc_tail).
  rewrite go_seq.
  rewrite (go_unique (Group 1 re_numeral) _ _ _ rest [(1, num)]); [exact Hres| |].
  - replace [(1, num)] with [(1, consumed (num ++ rest) rest)]
      by (by rewrite consumed_app).
    apply m_group. by apply matches_numeral.
  - intros s' c' Hm Hne'.
    apply matches_group in Hm as (c1 & Hm & ->).
    apply keeps_numeral in Hm as (g & Heq & Hg & ->).
    destruct (prefix_class_cases path_char g num s' rest) as [[-> ->] | Hr];
      [done | by apply numeral_path_chars | done | | |].
    + destruct rest as [|y t]; [done|]. intros Hy.
      apply path_char_not_space in Hy. congruence.
    + destruct Hne'. by rewrite consumed_app.
    + destruct Hr as (y & t & -> & Hy).
      apply go_toc_tail_no_space. by apply path_char_not_space.
Qed.

(** The pattern without the bullet at the start of a line that [A] and [B]
    follow. *)
Lemma match_plain_line r A B :
  row_shape r -> stops_digits B ->
  exists T junk,
    match_at re_toc_plain (row_line r ++ A ++ B)
      = Some (junk ++ B, [(2, T); (1, row_number r)]) /\
    junk `suffix_of`
      (row_title r ++ row_fill r ++ replicate (row_dots r) DOT
         ++ row_page_gap r ++ row_page r ++ A) /\
    (clean (row_title r) ->
     T = row_title r /\ (stops_digits (A ++ B) -> junk = A)).
Proof.
  intros (Hind & Hf & Hmne & Hmore & Hgne & Hgap & Htne & Hnl & Hl & Hfill
          & Hn & Hpg & Hpage) HB.
  destruct (toc_tail_row (row_gap r) (row_title r) (row_fill r) (row_dots r)
              (row_page_gap r) (row_page r) A B [(1, row_number r)])
    as (T & junk & Hgo & Hsuf & Hclean); [done..|].
  exists T, junk. split; [|done].
  unfold row_line. rewrite <- !app_assoc. unfold row_number in *.
  apply toc_plain_numeral; [done..| |exact Hgo].
  destruct (row_gap r) as [|w g]; [done|].
  by apply Forall_cons in Hgap as [Hw _].
Qed.

(** The same behind the bullet and its whitespace. *)
Lemma match_bulleted_line r A B :
  row_shape r -> stops_digits B ->
  exists T junk,
    match_at re_toc_bullet (BULLET :: row_indent r ++ row_line r ++ A ++ B)
      = Some (junk ++ B, [(2, T); (1, row_number r)]) /\
    junk `suffix_of`
      (row_title r ++ row_fill r ++ replicate (row_dots r) DOT
         ++ row_page_gap r ++ row_page r ++ A) /\
    (clean (row_title r) ->
     T = row_title r /\ (stops_digits (A ++ B) -> junk = A)).
Proof.
  intros Hr HB.
  destruct (match_plain_line r A B Hr HB) as (T & junk & Hm & Hsuf & Hclean).
  exists T, junk. split; [|done].
  apply toc_bullet_prefixed; [|exact Hm]. by destruct Hr as (Hind & _).
Qed.

(** The entry made of the groups of a line. *)
Lemma toc_entry_of_row r T :
  row_shape r ->
  (clean (row_title r) -> T = row_title r) ->
  row_parsed r (toc_entry_of [(2, T); (1, row_number r)]).
Proof.
  intros (Hind & Hf & Hmne & Hmore & Hgne & Hgap & Htne & Hnl & Hl & _) HT.
  split.
  - unfold toc_entry_of. simpl.
    change (group_text 1 [(2, T); (1, row_number r)]) with (row_number r).
    apply strip_no_space. unfold row_number.
    eapply Forall_impl; [by apply numeral_path_chars|].
    intros x Hx. by apply path_char_not_space.
  - intros Hclean. unfold toc_entry_of. simpl.
    change (group_text 2 [(2, T); (1, row_number r)]) with T.
    rewrite (HT Hclean). destruct Hclean as (Hr & Hno & _).
    rewrite page_suffix_clean by done. by apply strip_fix.
Qed.

Lemma bullet_not_digit : is_digit BULLET = false.
Proof. by vm_compute. Qed.

Lemma bullet_not_space : is_space BULLET = false.
Proof. by vm_compute. Qed.

(** Before the first bullet the pattern with the bullet finds nothing. *)
Lemma findall_bullet_skip pre s :
  BULLET ∉ pre ->
  findall re_toc_bullet (pre ++ s) = findall re_toc_bullet s.
Proof.
  intros Hpre. apply findall_skip.
  intros j Hj. apply match_at_None. intros s1 c1 Hb.
  apply toc_bullet_head in Hb as [t Ht]. apply Hpre.
  rewrite drop_app_le in Ht by lia.
  eapply elem_of_suffix; [|apply (suffix_drop _ j)].
  destruct (drop j pre) as [|y r] eqn:Hd.
  - apply (f_equal length) in Hd. rewrite length_drop in Hd. simpl in Hd. lia.
  - simpl in Ht. inversion Ht; subst. apply list_elem_of_here.
Qed.

(** Where no digit stands the pattern without the bullet finds nothing. *)
Lemma findall_plain_skip pre s :
  no_digit pre ->
  findall re_toc_plain (pre ++ s) = findall re_toc_plain s.
Proof.
  intros Hpre. apply findall_skip.
  intros j Hj. apply match_at_None. intros s1 c1 Hb.
  apply toc_plain_head in Hb as (d & t & Ht & Hd & _).
  rewrite drop_app_le in Ht by lia.
  destruct (drop j pre) as [|y r] eqn:Hdrop.
  - apply (f_equal length) in Hdrop. rewrite length_drop in Hdrop.
    simpl in Hdrop. lia.
  - simpl in Ht. inversion Ht; subst.
    assert (Hin : d ∈ pre).
    { eapply elem_of_suffix; [|apply (suffix_drop _ j)].
      rewrite Hdrop. apply list_elem_of_here. }
    unfold no_digit in Hpre. rewrite Forall_forall in Hpre.
    specialize (Hpre _ Hin). congruence.
Qed.

Lemma findall_no_digit s : no_digit s -> findall re_toc_plain s = [].
Proof.
  intros Hs. rewrite <- (app_nil_r s), findall_plain_skip by done.
  by vm_compute.
Qed.

(** The text of the lines starts with a bullet or is empty. *)
Lemma bulleted_rows_head rows : stops_digits (concat (bulleted <$> rows)).
Proof. destruct rows as [|r rows]; [done|]. simpl. apply bullet_not_digit. Qed.

(** No bullet stands in the parts of a line behind the numeral path. *)
Lemma line_tail_no_bullet r :
  row_shape r -> (BULLET ∉ row_title r) -> (BULLET ∉ row_after r) ->
  BULLET ∉ row_title r ++ row_fill r ++ replicate (row_dots r) DOT
             ++ row_page_gap r ++ row_page r ++ row_after r.
Proof.
  intros (Hind & Hf & Hmne & Hmore & Hgne & Hgap & Htne & Hnl & Hl & Hfill
          & Hn & Hpg & Hpne & Hpage) Ht Ha Hin.
  unfold blank in *. rewrite Forall_forall in Hfill, Hpg, Hpage.
  repeat (apply elem_of_app in Hin as [Hin|Hin]); try done.
  - apply Hfill in Hin. by rewrite bullet_not_space in Hin.
  - by apply elem_of_replicate in Hin as [Hin _].
  - apply Hpg in Hin. by rewrite bullet_not_space in Hin.
  - apply Hpage in Hin. by rewrite bullet_not_digit in Hin.
Qed.

(** The pattern with the bullet on a text of bulleted lines: one match for
    every line, in order. *)
Lemma findall_bulleted rows : forall pre,
  (BULLET ∉ pre) -> Forall row_shape rows ->
  Forall (fun r => (BULLET ∉ row_title r) /\ (BULLET ∉ row_after r)) rows ->
  Forall2 row_parsed rows
    (toc_entry_of <$> findall re_toc_bullet (bulleted_text pre rows)).
Proof.
  induction rows as [|r rows IH]; intros pre Hpre Hshape Hnb.
  - unfold bulleted_text. simpl. rewrite app_nil_r.
    rewrite findall_no_bullet by done. constructor.
  - apply Forall_cons in Hshape as [Hr Hshape].
    apply Forall_cons in Hnb as [[Ht Ha] Hnb].
    unfold bulleted_text. rewrite fmap_cons.
    change (concat (bulleted r :: (bulleted <$> rows)))
      with (bulleted r ++ concat (bulleted <$> rows)).
    rewrite findall_bullet_skip by done.
    set (B := concat (bulleted <$> rows)).
    destruct (match_bulleted_line r (row_after r) B Hr (bulleted_rows_head rows))
      as (T & junk & Hm & Hsuf & Hclean).
    assert (Htext : bulleted r ++ B
              = BULLET :: row_indent r ++ row_line r ++ row_after r ++ B).
    { unfold bulleted. simpl. by rewrite <- !app_assoc. }
    rewrite Htext, (findall_here _ _ _ _ _ Hm).
    + rewrite fmap_cons. constructor.
      * apply toc_entry_of_row; [done|]. intros Hc. by apply Hclean.
      * apply (IH junk); [|done|done].
        intros Hin. apply (line_tail_no_bullet r Hr Ht Ha).
        by eapply elem_of_suffix.
    + apply match_at_Some in Hm. by apply toc_bullet_suffix in Hm.
Qed.

(** The pattern without the bullet on a text of lines with clean titles that
    text without digits separates: one match for every line, in order. *)
Lemma findall_plain rows : forall pre,
  no_digit pre -> Forall row_shape rows ->
  Forall (fun r => clean (row_title r) /\ no_digit (row_after r)) rows ->
  separated rows ->
  toc_entry_of <$> findall re_toc_plain (plain_text pre rows)
  = row_entry <$> rows.
Proof.
  induction rows as [|r rows IH]; intros pre Hpre Hshape Hclean Hsep.
  - unfold plain_text. simpl. rewrite app_nil_r.
    by rewrite findall_no_digit.
  - apply Forall_cons in Hshape as [Hr Hshape].
    apply Forall_cons in Hclean as [[Hc Ha] Hclean].
    unfold plain_text. rewrite fmap_cons.
    change (concat (plain r :: (plain <$> rows)))
      with (plain r ++ concat (plain <$> rows)).
    rewrite findall_plain_skip by done.
    set (B := concat (plain <$> rows)).
    assert (Hstop : stops_digits ((row_after r ++ B) ++ [])).
    { rewrite app_nil_r. destruct (row_after r) as [|y after] eqn:Hafter.
      - destruct rows as [|r' rows']; [done|]. by destruct Hsep as [Hsep _].
      - by apply Forall_cons in Ha as [Hy _]. }
    destruct (match_plain_line r (row_after r ++ B) [] Hr I)
      as (T & junk & Hm & Hsuf & Hex).
    destruct (Hex Hc) as [-> Hjunk]. rewrite (Hjunk Hstop) in Hm.
    rewrite !app_nil_r in Hm.
    assert (Htext : plain r ++ B = row_line r ++ row_after r ++ B).
    { unfold plain. by rewrite <- app_assoc. }
    rewrite Htext.
    assert (Hline : exists x l, row_line r = x :: l).
    { destruct Hr as (_ & Hf & _).
      destruct (numeral_path_head (row_first r) (row_more r) Hf)
        as (x & t & Hx & _).
      unfold row_line, row_number. rewrite Hx. by eexists _, _. }
    destruct Hline as (x & l & Hline). rewrite Hline in Hm |- *.
    simpl app in Hm |- *.
    rewrite (findall_here _ _ _ _ _ Hm) by (apply suffix_app_r; reflexivity).
    rewrite !fmap_cons. f_equal.
    + pose proof (toc_entry_of_row r (row_title r) Hr (fun _ => eq_refl))
        as [Hnum Hdesc].
      specialize (Hdesc Hc).
      destruct (toc_entry_of [(2, row_title r); (1, row_number r)]) as [nu de].
      cbn [number description] in Hnum, Hdesc. subst nu de. reflexivity.
    + apply (IH (row_after r)); [done..|].
      destruct rows as [|r' rows']; [done|]. by destruct Hsep as [_ Hsep].
Qed.


Lemma row_parsed_clean rows l :
  Forall2 row_parsed rows l ->
  Forall (fun r => clean (row_title r)) rows ->
  l = row_entry <$> rows.
Proof.
  induction 1 as [|r e rows l [Hnum Hdesc] _ IH]; intros Hclean; [done|].
  apply Forall_cons in Hclean as [Hc Hclean].
  rewrite fmap_cons, <- (IH Hclean). f_equal.
  specialize (Hdesc Hc). destruct e as [nu de].
  cbn [number description] in Hnum, Hdesc. by subst.
Qed.

(** The titles and what follows the lines stand in the text. *)
Lemma row_parts_in_plain pre rows r x :
  r ∈ rows -> x ∈ row_title r \/ x ∈ row_after r ->
  x ∈ plain_text pre rows.
Proof.
  intros Hr Hx. unfold plain_text. apply elem_of_app. right.
  induction rows as [|r' rows IH]; [by apply elem_of_nil in Hr|].
  rewrite fmap_cons.
  change (concat (plain r' :: (plain <$> rows)))
    with (plain r' ++ concat (plain <$> rows)).
  apply elem_of_app. apply elem_of_cons in Hr as [->|Hr]; [left|right; auto].
  unfold plain, row_line. rewrite !elem_of_app. tauto.
Qed.

End Rows.
(** * The properties of the specification *)

(** C1 as stated fails: with the table of contents 1.1 A, 1.2 B and a text
    in which the anchor of 1.2 B stands at offsets 0 and 34 and the anchor of
    1.1 A at offset 17, the previous anchor ends at offset 22 and a search
    from there finds 1.2 B at 34; the round of 1.2 B builds its record on the
    section that starts at offset 0. *)
Lemma search_from_previous_anchor_fails :
  let text := normalize body_b_twice in
  let es := parse_toc toc_ab in
  es = [entry_a; entry_b] /\
  find text (start_string entry_a) 0 = Some 17 /\
  find text (start_string entry_b) (17 + length (start_string entry_a))
    = Some 34 /\
  loop_body utf8 text es 1 entry_b
    = Appended (extract entry_b (slice text 0 (length text))) /\
  loop_body utf8 text es 1 entry_b
    <> Appended (extract entry_b (slice text 34 (length text))).
Proof.
  vm_compute. repeat split; try reflexivity. intros H. discriminate H.
Qed.

(** C1, amended: in every round, whatever its position in the table of
    contents, the anchor is searched from offset 0 of the normalized text:
    the section of an appended record starts at the first offset of the whole
    text at which the anchor stands. *)
Theorem anchor_searched_from_start stdout text es i e r :
  loop_body stdout text es i e = Appended r ->
  exists start,
    starts_with (start_string e) (drop start text) = true /\
    (forall j, j < start -> starts_with (start_string e) (drop j text) = false) /\
    r = extract e (slice text start (section_end text (es !! (i + 1)) e start)).
Proof.
  unfold loop_body. rewrite find_0.
  destruct (find_in (start_string e) text) as [start|] eqn:Hf;
    [|by destruct (print stdout (warning (start_string e)))].
  intros H. inversion H; subst. exists start.
  apply find_in_Some in Hf as [H1 H2]. done.
Qed.

Lemma anchor_searched_from_start_witness :
  exists r start,
    loop_body utf8 body_b_twice [entry_a; entry_b] 1 entry_b = Appended r /\
    starts_with (start_string entry_b) (drop start body_b_twice) = true /\
    (forall j, j < start ->
       starts_with (start_string entry_b) (drop j body_b_twice) = false) /\
    r = extract entry_b
          (slice body_b_twice start
             (section_end body_b_twice ([entry_a; entry_b] !! (1 + 1))
                entry_b start)).
Proof.
  eexists.
  destruct (anchor_searched_from_start utf8 body_b_twice [entry_a; entry_b] 1
              entry_b _ eq_refl) as (start & H1 & H2 & H3).
  exists start. split; [reflexivity|]. split; [exact H1|].
  split; [exact H2 | exact H3].
Defined.

(** C2 as stated fails: the call on the example returns, and the record it
    returns does not have the references the specification lists. *)
Lemma end_to_end_example_as_stated_fails :
  exists data,
    parse_pdf_text_by_toc utf8 ex_toc ex_body = ([], Returned data) /\
    data <> [ex_stated].
Proof.
  eexists. split; [vm_compute; reflexivity|]. intros H. discriminate H.
Qed.

(** C2, amended: the example returns exactly one record, with the fields the
    specification lists except that the references are the one string
    "http://a References": the References pattern stops only at "Audit File"
    or at the end of the section. Nothing is printed, so this holds whatever
    the output stream. *)
Theorem end_to_end_example stdout :
  parse_pdf_text_by_toc stdout ex_toc ex_body = ([], Returned [ex_returned]).
Proof. vm_compute. reflexivity. Qed.

(** C3 as stated fails: 1.2 B is not in the text, so the next located anchor
    after 1.1 A is that of 1.3 C, at offset 13 of both texts; the texts agree
    from the anchor of 1.1 A to there, and the records of 1.1 A differ. *)
Lemma section_to_next_located_anchor_fails :
  parse_toc toc_abc = [entry_a; entry_b; entry_c] /\
  normalize body_ac = body_ac /\ normalize body_ac' = body_ac' /\
  find body_ac (start_string entry_a) 0 = Some 0 /\
  find body_ac' (start_string entry_a) 0 = Some 0 /\
  find body_ac (start_string entry_b) 0 = None /\
  find body_ac' (start_string entry_b) 0 = None /\
  find body_ac (start_string entry_c) 0 = Some 13 /\
  find body_ac' (start_string entry_c) 0 = Some 13 /\
  slice body_ac 0 13 = slice body_ac' 0 13 /\
  (exists printed data,
     parse_pdf_text_by_toc utf8 toc_abc body_ac = (printed, Returned data) /\
     info <$> data = [lit "a 1.3 C Info c"; lit "c"]) /\
  (exists printed data,
     parse_pdf_text_by_toc utf8 toc_abc body_ac' = (printed, Returned data) /\
     info <$> data = [lit "a 1.3 C Info d"; lit "d"]).
Proof.
  repeat split; try (vm_compute; reflexivity);
    eexists _, _; split; vm_compute; reflexivity.
Qed.

(** C3, amended: the record of an entry depends only on the entry and on the
    section of the text that starts at the first anchor of the entry and ends
    where the anchor of the entry that follows it in the table of contents is
    found after it, or at the end of the text when there is no following
    entry or its anchor is not found there: two runs with the same section
    append the same record. *)
Theorem record_depends_on_section stdout1 stdout2 text1 text2 es1 es2 i1 i2
    e start1 start2 :
  find text1 (start_string e) 0 = Some start1 ->
  find text2 (start_string e) 0 = Some start2 ->
  slice text1 start1 (section_end text1 (es1 !! (i1 + 1)) e start1)
    = slice text2 start2 (section_end text2 (es2 !! (i2 + 1)) e start2) ->
  loop_body stdout1 text1 es1 i1 e = loop_body stdout2 text2 es2 i2 e.
Proof.
  intros H1 H2 Hs. unfold loop_body. rewrite H1, H2. simpl. by rewrite Hs.
Qed.

Lemma record_depends_on_section_witness :
  loop_body utf8 body_ac [entry_a; entry_c] 0 entry_a
    = loop_body utf8 body_ac' [entry_a; entry_c] 0 entry_a.
Proof.
  apply (record_depends_on_section utf8 utf8 body_ac body_ac' _ _ 0 0
           entry_a 0 0);
    vm_compute; reflexivity.
Defined.

(** C4: the entries of the records a call returns form a subsequence of the
    parsed table of contents, so the records keep its order, and there are
    at most as many records as entries. *)
Theorem records_follow_toc stdout toc_text full_text printed data :
  parse_pdf_text_by_toc stdout toc_text full_text = (printed, Returned data) ->
  sublist (entry_of <$> data) (parse_toc toc_text) /\
  length data <= length (parse_toc toc_text).
Proof.
  intros Hrun. apply parse_returned in Hrun as [-> _].
  assert (H : sublist
                (entry_of <$> extract_sections stdout (normalize full_text)
                                (parse_toc toc_text))
                (parse_toc toc_text)).
  { apply extract_sections_sublist. }
  split; [exact H|].
  apply sublist_length in H. by rewrite length_fmap in H.
Qed.

Lemma records_follow_toc_witness :
  sublist (entry_of <$> [ex_returned]) (parse_toc ex_toc) /\
  length [ex_returned] <= length (parse_toc ex_toc).
Proof.
  apply (records_follow_toc utf8 ex_toc ex_body []).
  vm_compute. reflexivity.
Defined.

(** C5 as stated fails: the text has no anchor of 1.2 B; with 1.2 B in the
    table of contents the record of 1.1 A is not the record it has without
    that entry. *)
Lemma missing_anchor_changes_previous_record :
  parse_toc toc_abc = [entry_a; entry_b; entry_c] /\
  parse_toc toc_ac = [entry_a; entry_c] /\
  find (normalize body_ac) (start_string entry_b) 0 = None /\
  (exists printed data,
     parse_pdf_text_by_toc utf8 toc_abc body_ac = (printed, Returned data) /\
     info <$> data = [lit "a 1.3 C Info c"; lit "c"]) /\
  (exists printed data,
     parse_pdf_text_by_toc utf8 toc_ac body_ac = (printed, Returned data) /\
     info <$> data = [lit "a"; lit "c"]).
Proof.
  repeat split; try (vm_compute; reflexivity);
    eexists _, _; split; vm_compute; reflexivity.
Qed.

(** C5, amended: an entry whose anchor is not in the text, and whose warning
    the output stream can take, gets the warning and no record, and the loop
    goes on with the next round: nothing is raised there. A loop that returns
    returns the records of the rounds that append one. Among these, the
    records of the entries after the missing one, and of the entries before
    the one that precedes it, are those of the table of contents without the
    entry. The entry [p] that precedes it gets the record it would have as
    the last entry (its section runs to the end of the text), which without
    the entry is the record of [p] followed by the rest. *)
Theorem missing_anchor_dropped stdout text e post :
  find text (start_string e) 0 = None ->
  print stdout (warning (start_string e)) = None ->
  (forall es i data printed,
     for_loop stdout text es i (e :: post) data printed
     = for_loop stdout text es (S i) post data
                (printed ++ [warning (start_string e)])) /\
  (forall es printed data,
     for_loop stdout text es 0 es [] [] = (printed, Returned data) ->
     data = extract_sections stdout text es) /\
  extract_sections stdout text (e :: post) = extract_sections stdout text post /\
  (forall pre p,
     let before :=
       omap appended (imap (loop_body stdout text (pre ++ [p])) pre) in
     extract_sections stdout text (pre ++ p :: e :: post)
       = before ++ option_list (appended (loop_body stdout text [p] 0 p))
                ++ extract_sections stdout text post /\
     extract_sections stdout text (pre ++ p :: post)
       = before
           ++ option_list (appended (loop_body stdout text (p :: post) 0 p))
           ++ extract_sections stdout text post).
Proof.
  intros He Hp.
  assert (Hdrop : extract_sections stdout text (e :: post)
                  = extract_sections stdout text post).
  { rewrite extract_sections_cons. by rewrite appended_not_found. }
  split; [|split; [|split; [exact Hdrop|]]].
  - intros es i data printed. cbn [for_loop].
    by rewrite loop_body_not_found.
  - intros es printed data H. rewrite for_loop_settle in H.
    by apply settle_returned in H as (-> & _ & _).
  - intros pre p before. split.
    + rewrite extract_sections_app.
      rewrite (imap_loop_body_before stdout text pre p (e :: post) []).
      fold before. f_equal.
      rewrite extract_sections_cons, Hdrop. f_equal. f_equal. f_equal.
      unfold loop_body.
      change ((p :: e :: post) !! (0 + 1)) with (Some e).
      change ([p] !! (0 + 1)) with (@None toc_entry).
      destruct (find text (start_string p) 0) as [start|]; [|done].
      by rewrite section_end_not_found.
    + rewrite extract_sections_app.
      rewrite (imap_loop_body_before stdout text pre p post []).
      fold before. f_equal.
      by rewrite extract_sections_cons.
Qed.

Lemma missing_anchor_dropped_witness :
  (forall es i data printed,
     for_loop utf8 body_ac es i (entry_b :: [entry_c]) data printed
     = for_loop utf8 body_ac es (S i) [entry_c] data
                (printed ++ [warning (start_string entry_b)])) /\
  (forall es printed data,
     for_loop utf8 body_ac es 0 es [] [] = (printed, Returned data) ->
     data = extract_sections utf8 body_ac es) /\
  extract_sections utf8 body_ac (entry_b :: [entry_c])
    = extract_sections utf8 body_ac [entry_c] /\
  (forall pre p,
     let before :=
       omap appended (imap (loop_body utf8 body_ac (pre ++ [p])) pre) in
     extract_sections utf8 body_ac (pre ++ p :: entry_b :: [entry_c])
       = before ++ option_list (appended (loop_body utf8 body_ac [p] 0 p))
                ++ extract_sections utf8 body_ac [entry_c] /\
     extract_sections utf8 body_ac (pre ++ p :: [entry_c])
       = before
           ++ option_list
                (appended (loop_body utf8 body_ac (p :: [entry_c]) 0 p))
           ++ extract_sections utf8 body_ac [entry_c]).
Proof.
  apply (missing_anchor_dropped utf8 body_ac entry_b [entry_c]);
    vm_compute; reflexivity.
Defined.

(** C8: the normalization is idempotent. Its result has single spaces for
    all whitespace and none at the ends; on such a text the three line-break
    substitutions find no newline, the substitution of whitespace runs puts a
    space for each space, and [strip] removes nothing. *)
Theorem normalize_idempotent s : normalize (normalize s) = normalize s.
Proof. apply normalized_fix, normalize_normalized. Qed.

(** C10: every record a call returns is extracted from a section that has no
    newline, since the normalization leaves none; so its references are a
    list of exactly one string, and where the References label does not
    stand in the section that string is "N/A". *)
Theorem references_single stdout toc_text full_text printed data r :
  parse_pdf_text_by_toc stdout toc_text full_text = (printed, Returned data) ->
  r ∈ data ->
  exists e section,
    r = extract e section /\
    (LF ∉ section) /\
    length (references r) = 1 /\
    (label_absent (lit "References") section -> references r = [NA]).
Proof.
  intros Hrun H. apply parse_returned in Hrun as [-> _].
  apply extract_sections_elem in H as (e & i & j & _ & ->).
  exists e, (slice (normalize full_text) i j).
  assert (Hnl : LF ∉ slice (normalize full_text) i j).
  { intros Hin. apply (normalize_no_newline full_text).
    by apply (slice_subseteq _ i j). }
  split; [done|]. split; [done|]. split.
  - simpl. destruct (field re_references _) as [g|] eqn:Hg; [|done].
    rewrite split_on_absent; [done|].
    intros Hin. apply Hnl. by apply (field_subseteq _ _ _ Hg).
  - intros Habs. simpl. unfold re_references.
    by rewrite field_label_absent.
Qed.

Lemma references_single_witness :
  exists e section,
    ex_returned = extract e section /\
    (LF ∉ section) /\
    length (references ex_returned) = 1 /\
    (label_absent (lit "References") section ->
     references ex_returned = [NA]).
Proof.
  apply (references_single utf8 ex_toc ex_body [] [ex_returned] ex_returned).
  - vm_compute. reflexivity.
  - apply list_elem_of_here.
Defined.

(** C6: the code misses what the claim says. The second search looks for the
    label "Policy Value", a newline and a status word, and on the raw text
    of the example it finds FAILED; but every section is cut from the
    normalized text, in which step 1 has put a space for the newline, so in
    the function the second search finds nothing and the record of the
    example has the type "N/A". *)
Lemma policy_value_status_lost stdout :
  let toc_text := BULLET :: lit " 1.1 A ... 5" in
  let full_text := lit "1.1 A Policy Value" ++ LF :: lit "FAILED" in
  search re_status full_text = None /\
  status_type full_text = FAILED /\
  normalize full_text = lit "1.1 A Policy Value FAILED" /\
  exists r,
    parse_pdf_text_by_toc stdout toc_text full_text = ([], Returned [r]) /\
    type_ r = NA /\ policyValue r = FAILED.
Proof.
  repeat split; try (vm_compute; reflexivity).
  eexists. split; [vm_compute; reflexivity|]. split; reflexivity.
Qed.

(** The second search of the status is dead in the function: it finds nothing
    in the section of any record a call returns. *)
Lemma status_fallback_never_found stdout toc_text full_text printed data r :
  parse_pdf_text_by_toc stdout toc_text full_text = (printed, Returned data) ->
  r ∈ data ->
  exists e section,
    r = extract e section /\ search re_status_policy section = None.
Proof.
  intros Hrun H. apply parse_returned in Hrun as [-> _].
  apply extract_sections_elem in H as (e & i & j & _ & ->).
  exists e, (slice (normalize full_text) i j). split; [done|].
  apply search_status_policy_no_newline. intros Hin.
  apply (normalize_no_newline full_text). by apply (slice_subseteq _ i j).
Qed.




(** C9 as stated fails. With a bullet before each of the two entries of
    "1.1 A ...5" "1.2 B ...6", which follow one another at once, the parser
    finds both; in the same text without the bullets the page number of the
    first runs into the numeral path of the second, and the fallback finds
    one. With "3.4 see " before the line "1.1 A ...5" the fallback starts at
    3.4 and takes the line into the title, and behind the bullet the parser
    finds 1.1 A. And where one bullet stands before the line
    1.1 A ... 5 2.2 B ... 6, which holds two entries, the fallback finds both
    in the line without the bullet and the parser finds one behind the
    bullet. *)
Lemma fallback_entries_differ :
  (BULLET ∉ plain_text [] adjacent_rows) /\
  parse_toc (bulleted_text [] adjacent_rows) = [entry_a; entry_b] /\
  parse_toc (plain_text [] adjacent_rows) = [entry_a] /\
  parse_toc (plain_text [] adjacent_rows)
    <> parse_toc (bulleted_text [] adjacent_rows) /\
  parse_toc (bulleted_text (lit "3.4 see ") (take 1 adjacent_rows))
    = [entry_a] /\
  parse_toc (plain_text (lit "3.4 see ") (take 1 adjacent_rows))
    = [ {| number := lit "3.4"; description := lit "see 1.1 A" |} ] /\
  (BULLET ∉ toc_line) /\
  parse_toc toc_line
    = [ {| number := lit "1.1"; description := lit "A" |};
        {| number := lit "2.2"; description := lit "B" |} ] /\
  parse_toc (BULLET :: SP :: toc_line)
    = [ {| number := lit "1.1"; description := lit "A" |} ] /\
  parse_toc toc_line <> parse_toc (BULLET :: SP :: toc_line).
Proof.
  assert (Hnb : forall s : str, forallb (fun x => negb (N.eqb x BULLET)) s = true ->
                  BULLET ∉ s).
  { intros s Hs Hin. rewrite forallb_forall in Hs.
    apply list_elem_of_In in Hin. specialize (Hs _ Hin).
    by rewrite N.eqb_refl in Hs. }
  split; [apply Hnb; vm_compute; reflexivity|].
  split; [vm_compute; reflexivity|].
  split; [vm_compute; reflexivity|].
  split; [vm_compute; intros H; discriminate H|].
  split; [vm_compute; reflexivity|].
  split; [vm_compute; reflexivity|].
  split; [apply Hnb; vm_compute; reflexivity|].
  split; [vm_compute; reflexivity|].
  split; [vm_compute; reflexivity|].
  vm_compute. intros H. discriminate H.
Qed.

(** C9, amended: for a table of contents without bullets that is made of
    entry lines, each a numeral path with at least one dot, whitespace, a
    title, optional whitespace, three or more dots, optional whitespace and
    a page number, in which every title is clean (no newline, no three dots
    in a row, no whitespace at its ends, no dot at its end), no digit stands
    before the first line or behind a line, and two lines have at least one
    character between them, the parser gives the same entries, in the same
    order, as for the text in which a bullet and optional whitespace stand
    before every entry line: the numeral path and the title of every line. *)
Theorem fallback_same_entries pre rows :
  (BULLET ∉ plain_text pre rows) ->
  no_digit pre ->
  Forall row_shape rows ->
  Forall (fun r => clean (row_title r) /\ no_digit (row_after r)) rows ->
  separated rows ->
  parse_toc (plain_text pre rows) = row_entry <$> rows /\
  parse_toc (bulleted_text pre rows) = row_entry <$> rows.
Proof.
  intros Hnb Hpre Hshape Hclean Hsep. split.
  - unfold parse_toc, toc_lines. rewrite findall_no_bullet by done.
    by apply findall_plain.
  - assert (Hb : BULLET ∉ pre).
    { intros Hin. apply Hnb. unfold plain_text. apply elem_of_app. by left. }
    assert (Hparts : Forall (fun r => (BULLET ∉ row_title r) /\
                                      (BULLET ∉ row_after r)) rows).
    { apply Forall_forall. intros r Hr.
      split; intros Hin; apply Hnb;
        apply (row_parts_in_plain pre rows r); auto. }
    pose proof (findall_bulleted rows pre Hb Hshape Hparts) as H.
    assert (Hc : Forall (fun r => clean (row_title r)) rows).
    { eapply Forall_impl; [exact Hclean|]. by intros r [Hc _]. }
    unfold parse_toc, toc_lines.
    destruct (findall re_toc_bullet (bulleted_text pre rows)) as [|m ms] eqn:Hf.
    + apply Forall2_nil_inv_r in H. subst rows. simpl.
      unfold bulleted_text. simpl. rewrite app_nil_r.
      by rewrite findall_no_digit.
    + by apply row_parsed_clean.
Qed.

Lemma fallback_same_entries_witness :
  parse_toc (plain_text [] ex_rows) = row_entry <$> ex_rows /\
  parse_toc (bulleted_text [] ex_rows) = row_entry <$> ex_rows.
Proof.
  assert (Hnb : forall s : str, forallb (fun x => negb (N.eqb x BULLET)) s = true ->
                  BULLET ∉ s).
  { intros s Hs Hin. rewrite forallb_forall in Hs.
    apply list_elem_of_In in Hin. specialize (Hs _ Hin).
    by rewrite N.eqb_refl in Hs. }
  apply fallback_same_entries.
  - apply Hnb. vm_compute. reflexivity.
  - constructor.
  - repeat constructor; try discriminate;
      try (intros H; vm_compute in H;
           repeat (apply elem_of_cons in H as [H|H]; [discriminate H|]);
           by apply elem_of_nil in H);
      try (vm_compute; lia).
  - repeat constructor; try discriminate;
      try (intros H; apply find_in_occurs in H as [k Hk];
           vm_compute in Hk; discriminate Hk).
  - simpl. split; [discriminate | done].
Defined.

(** * Further properties of the code *)

(** X1: the shape of every normalized text. The only whitespace left is the
    space; a space is never followed by a space; the text neither starts nor
    ends with whitespace; so it has no newline, tab or other line break. *)
Theorem normalize_shape s :
  (forall x, x ∈ normalize s -> is_space x = true -> x = SP) /\
  (forall i, normalize s !! i = Some SP -> normalize s !! S i <> Some SP) /\
  (forall a, head (normalize s) = Some a -> is_space a = false) /\
  (forall a, last (normalize s) = Some a -> is_space a = false).
Proof.
  destruct (normalize_normalized s) as [Hw Hs].
  split; [|split; [|split]].
  - intros x. by apply well_spaced_space.
  - intros i Hi Hnext.
    by pose proof (well_spaced_next _ _ _ _ Hw Hi eq_refl Hnext).
  - intros a. unfold normalize. apply strip_head.
  - intros a. unfold normalize. apply strip_last.
Qed.

(** X2: which entries of the table of contents get a record, and how a call
    ends. A call returns exactly when the warning of every parsed entry
    whose anchor "<number> <description>" stands nowhere in the normalized
    text can be written to the output stream. The entries of the records it
    then returns are, in order, exactly the parsed entries whose anchor
    stands in the text, and the lines it has printed are, in order, the
    warnings of all the others; so every entry gives one record or one
    warning. A call that does not return is left by the exception of the
    first warning that cannot be written, after the warnings of the missing
    entries before it. *)
Theorem records_are_located_entries stdout toc_text full_text :
  let text := normalize full_text in
  let entries := parse_toc toc_text in
  (forall printed data,
     parse_pdf_text_by_toc stdout toc_text full_text = (printed, Returned data) ->
     entry_of <$> data = filter (located text) entries /\
     printed = warning_of <$> missing text entries /\
     length data + length printed = length entries) /\
  ((exists printed data,
      parse_pdf_text_by_toc stdout toc_text full_text = (printed, Returned data))
   <-> Forall (printable stdout) (missing text entries)) /\
  (forall printed exc,
     parse_pdf_text_by_toc stdout toc_text full_text = (printed, Raise exc) ->
     exists before e after,
       entries = before ++ e :: after /\ ~ located text e /\
       print stdout (warning_of e) = Some exc /\
       Forall (printable stdout) (missing text before) /\
       printed = warning_of <$> missing text before) /\
  (forall e, located text e <-> occurs (start_string e) text).
Proof.
  intros text entries.
  destruct (run_loop_filter stdout text entries) as (Hrec & _ & _).
  destruct (parse_cases stdout toc_text full_text)
    as [[Hall Hrun]|(before & e & after & exc & Hes & Hn & Hp & Hb & Hrun)];
    fold text entries in Hrun |- *.
  - split; [|split; [|split]].
    + intros printed data H. rewrite Hrun in H. inversion H; subst.
      split; [exact Hrec|]. split; [done|].
      rewrite length_fmap, <- (length_fmap entry_of), Hrec.
      apply filter_split_length.
    + split; [done|]. intros _. eauto.
    + intros printed exc H. by rewrite Hrun in H.
    + intros e. apply located_occurs.
  - fold entries in Hes. split; [|split; [|split]].
    + intros printed data H. by rewrite Hrun in H.
    + split.
      * intros (printed & data & H). by rewrite Hrun in H.
      * intros Hall. exfalso. rewrite Hes in Hall. unfold missing in Hall.
        rewrite filter_app, filter_cons, decide_True in Hall by done.
        apply Forall_app in Hall as [_ Hall].
        apply Forall_cons in Hall as [Hall _].
        unfold printable in Hall. unfold warning_of in Hp. congruence.
    + intros printed exc' H. rewrite Hrun in H. inversion H; subst.
      by exists before, e, after.
    + intros e'. apply located_occurs.
Qed.

(** X3: the bounds of a section. The section of every appended record is a
    piece of the text that starts with the anchor of its entry. When the
    table of contents has no next entry, or the anchor of the next entry does
    not stand behind the anchor of this one, the section runs to the end of
    the text; otherwise it ends just before the first place behind the anchor
    of this entry at which the anchor of the next entry stands. *)
Theorem section_bounds stdout text es i e r :
  loop_body stdout text es i e = Appended r ->
  exists before tail after,
    text = before ++ start_string e ++ tail ++ after /\
    r = extract e (start_string e ++ tail) /\
    match es !! (i + 1) with
    | None => after = []
    | Some next =>
        (after = [] /\ ~ occurs (start_string next) tail) \/
        (starts_with (start_string next) after = true /\
         forall k, k < length tail ->
           starts_with (start_string next) (drop k (tail ++ after)) = false)
    end.
Proof.
  unfold loop_body. rewrite find_0.
  destruct (find_in (start_string e) text) as [start|] eqn:Hf;
    [|by destruct (print stdout (warning (start_string e)))].
  intros H. inversion H; subst. clear H.
  destruct (find_in_split _ _ _ (start_string_not_nil e) Hf)
    as (rest & Htext & Hlen & Hdrop).
  assert (Hstart : drop start text = start_string e ++ rest).
  { rewrite Htext at 1. rewrite <- Hlen at 1. by rewrite drop_app_length. }
  assert (Hend : slice text start (length text) = start_string e ++ rest).
  { by rewrite slice_to_end. }
  assert (Hle : start + length (start_string e) <= length text).
  { rewrite Htext, !length_app, Hlen. lia. }
  exists (take start text).
  destruct (es !! (i + 1)) as [next|] eqn:Hnext; simpl.
  - unfold find. destruct (Nat.leb_spec (start + length (start_string e))
                             (length text)) as [_|]; [|lia].
    rewrite Hdrop.
    destruct (find_in (start_string next) rest) as [k|] eqn:Hk; simpl.
    + pose proof (find_in_split _ _ _ (start_string_not_nil next) Hk)
        as (rest' & Hrest & Hklen & _).
      apply find_in_Some in Hk as [Hk1 Hk2].
      exists (take k rest), (drop k rest). split; [|split].
      * by rewrite take_drop.
      * f_equal. unfold slice. rewrite Hstart.
        replace (start + length (start_string e) + k - start)
          with (length (start_string e) + k) by lia.
        by rewrite take_app_add.
      * right. split; [done|]. intros k' Hk'. rewrite take_drop.
        apply Hk2. lia.
    + exists rest, []. rewrite app_nil_r. split; [done|].
      split; [by rewrite Hend|]. left. split; [done|].
      intros Hocc. apply find_in_occurs in Hocc as [k' Hk']. congruence.
  - exists rest, []. rewrite app_nil_r. split; [done|].
    split; [by rewrite Hend | done].
Qed.

Lemma section_bounds_witness :
  exists r before tail after,
    loop_body utf8 body_b_twice [entry_a; entry_b] 0 entry_a = Appended r /\
    body_b_twice = before ++ start_string entry_a ++ tail ++ after /\
    r = extract entry_a (start_string entry_a ++ tail) /\
    ((after = [] /\ ~ occurs (start_string entry_b) tail) \/
     (starts_with (start_string entry_b) after = true /\
      forall k, k < length tail ->
        starts_with (start_string entry_b) (drop k (tail ++ after)) = false)).
Proof.
  eexists.
  destruct (section_bounds utf8 body_b_twice [entry_a; entry_b] 0 entry_a _
              eq_refl)
    as (before & tail & after & H1 & H2 & H3).
  exists before, tail, after. split; [reflexivity|]. split; [exact H1|].
  split; [exact H2 | exact H3].
Defined.

(** X4: the type of every record a call returns is one of "FAILED",
    "PASSED", "SKIPPED" and "N/A". (The sections are cut from the normalized
    text, which has no newline, so only the bracketed marker can give a
    status word.) *)
Theorem type_enumerated stdout toc_text full_text printed data r :
  parse_pdf_text_by_toc stdout toc_text full_text = (printed, Returned data) ->
  r ∈ data ->
  type_ r ∈ [FAILED; PASSED; SKIPPED; NA].
Proof.
  intros Hrun H. apply parse_returned in Hrun as [-> _].
  apply extract_sections_elem in H as (e & i & j & _ & ->).
  change (type_ (extract e (slice (normalize full_text) i j)))
    with (status_type (slice (normalize full_text) i j)).
  assert (Hnl : LF ∉ slice (normalize full_text) i j).
  { intros Hin. apply (normalize_no_newline full_text).
    by apply (slice_subseteq _ i j). }
  unfold status_type.
  destruct (search re_status _) as [[[k s'] m]|] eqn:Hs.
  - apply search_Some in Hs as [Hs _]. apply match_at_Some in Hs.
    apply status_match_word in Hs as (w & Hw & -> & _).
    change (group_text 1 [(1, w)]) with w. rewrite (upper_status_word w Hw).
    apply status_words_inv in Hw as [-> | [-> | ->]];
      repeat first [apply list_elem_of_here | apply list_elem_of_further].
  - rewrite (search_status_policy_no_newline _ Hnl).
    repeat first [apply list_elem_of_here | apply list_elem_of_further].
Qed.

Lemma type_enumerated_witness :
  type_ ex_returned ∈ [FAILED; PASSED; SKIPPED; NA].
Proof.
  apply (type_enumerated utf8 ex_toc ex_body [] [ex_returned] ex_returned).
  - vm_compute. reflexivity.
  - apply list_elem_of_here.
Defined.

(** X5: a section's type is the status word of its first bracketed marker:
    when a marker "** w **" stands in the section and no marker stands
    before it, the type of the record is [w]. *)
Theorem type_of_first_marker e pre w post :
  w ∈ status_words ->
  (forall j v, j < length pre -> v ∈ status_words ->
     starts_with (marker v) (drop j (pre ++ marker w ++ post)) = false) ->
  type_ (extract e (pre ++ marker w ++ post)) = w.
Proof.
  intros Hw Hfirst.
  change (type_ (extract e (pre ++ marker w ++ post)))
    with (status_type (pre ++ marker w ++ post)).
  unfold status_type. rewrite search_skip.
  - rewrite (search_here _ _ _ _ (match_at_marker w post Hw)).
    change (group_text 1 [(1, w)]) with w. by apply upper_status_word.
  - intros j Hj. apply match_at_None. intros s' c' Hm.
    apply status_needs_marker in Hm as (v & Hv & Hm).
    by rewrite (Hfirst j v Hj Hv) in Hm.
Qed.

Lemma type_of_first_marker_witness :
  type_ (extract entry_a (lit "1.1 A Policy Value " ++ marker PASSED
                          ++ lit " later ** FAILED **")) = PASSED.
Proof.
  apply type_of_first_marker.
  - apply list_elem_of_further, list_elem_of_here.
  - intros j v Hj Hv. apply not_before with (i := 19); [|exact Hj].
    apply status_words_inv in Hv as [-> | [-> | ->]]; vm_compute; reflexivity.
Defined.

(** X6: what a text field holds. For each of info, solution, auditFile and
    policyValue: in a section in which the label of the field first stands
    behind [pre], the field is the stripped text [g] that runs from behind
    the label and the whitespace after it up to the first place at which a
    stop follows, that is, at which only whitespace is left or whitespace
    and one of the stop labels of the field come next. *)
Theorem text_field_captured label labels get e pre rest :
  (label, labels, get) ∈ text_fields ->
  (forall j, j < length pre ->
     starts_with label (drop j (pre ++ label ++ rest)) = false) ->
  exists g tail,
    lstrip rest = g ++ tail /\ stop_follows labels tail /\
    (forall j, j < length g -> ~ stop_follows labels (drop j (lstrip rest))) /\
    get (extract e (pre ++ label ++ rest)) = strip g.
Proof.
  intros Hin Hfirst.
  destruct (field_captured label labels pre rest Hfirst)
    as (g & tail & Hu & Ht & Hmin & Hf).
  exists g, tail. split; [done|]. split; [done|]. split; [done|].
  by rewrite (text_fields_inv _ _ _ Hin), Hf.
Qed.

Lemma text_field_captured_witness :
  exists g tail,
    lstrip (lit " Do Y.  See Also z References r") = g ++ tail /\
    stop_follows [lit "See Also"; lit "References"] tail /\
    (forall j, j < length g ->
       ~ stop_follows [lit "See Also"; lit "References"]
           (drop j (lstrip (lit " Do Y.  See Also z References r")))) /\
    solution (extract entry_a
                (lit "1.1 A Info x " ++ lit "Solution"
                 ++ lit " Do Y.  See Also z References r")) = strip g.
Proof.
  apply (text_field_captured (lit "Solution")
           [lit "See Also"; lit "References"] solution entry_a
           (lit "1.1 A Info x ") (lit " Do Y.  See Also z References r")).
  - apply list_elem_of_further, list_elem_of_here.
  - intros j Hj. apply not_before with (i := 13); [|exact Hj].
    vm_compute. reflexivity.
Defined.

(** X7: what the references hold. In a section in which the label
    "References" first stands behind [pre], the references are the pieces
    between newlines of the stripped text that runs from behind the label
    and its whitespace up to the first place at which only whitespace is
    left or whitespace and "Audit File" come next. *)
Theorem references_captured e pre rest :
  (forall j, j < length pre ->
     starts_with (lit "References")
       (drop j (pre ++ lit "References" ++ rest)) = false) ->
  exists g tail,
    lstrip rest = g ++ tail /\ stop_follows [lit "Audit File"] tail /\
    (forall j, j < length g ->
       ~ stop_follows [lit "Audit File"] (drop j (lstrip rest))) /\
    references (extract e (pre ++ lit "References" ++ rest))
      = split_on LF (strip g).
Proof.
  intros Hfirst.
  destruct (field_captured (lit "References") [lit "Audit File"] pre rest Hfirst)
    as (g & tail & Hu & Ht & Hmin & Hf).
  exists g, tail. split; [done|]. split; [done|]. split; [done|].
  change (references (extract e (pre ++ lit "References" ++ rest)))
    with (match field re_references (pre ++ lit "References" ++ rest) with
          | Some g => split_on LF g
          | None => [NA]
          end).
  unfold re_references. by rewrite Hf.
Qed.

Lemma references_captured_witness :
  exists g tail,
    lstrip (lit " http://a References Audit File cmd") = g ++ tail /\
    stop_follows [lit "Audit File"] tail /\
    (forall j, j < length g ->
       ~ stop_follows [lit "Audit File"]
           (drop j (lstrip (lit " http://a References Audit File cmd")))) /\
    references (extract entry_a
                  (lit "Solution Do Y. " ++ lit "References"
                   ++ lit " http://a References Audit File cmd"))
      = split_on LF (strip g).
Proof.
  apply (references_captured entry_a (lit "Solution Do Y. ")
           (lit " http://a References Audit File cmd")).
  intros j Hj. apply not_before with (i := 15); [|exact Hj].
  vm_compute. reflexivity.
Defined.

(** X8: the sentinel of a text field. For each of info, solution, auditFile
    and policyValue: in a section in which the label of the field stands
    nowhere, the field is exactly "N/A". *)
Theorem text_field_sentinel label labels get e section :
  (label, labels, get) ∈ text_fields ->
  label_absent label section ->
  get (extract e section) = NA.
Proof.
  intros Hin Habs.
  by rewrite (text_fields_inv _ _ _ Hin), field_label_absent.
Qed.

Lemma text_field_sentinel_witness :
  policyValue (extract entry_a (lit "1.1 A Info x Policy value y")) = NA.
Proof.
  apply (text_field_sentinel (lit "Policy Value") [lit "Hosts"] policyValue).
  - repeat first [apply list_elem_of_here | apply list_elem_of_further].
  - intros j. apply find_in_None. vm_compute. reflexivity.
Defined.

(** X9: the shape of every parsed entry. Its number starts with a digit,
    consists of digits and dots and has a dot; its description has no
    whitespace at its ends and no newline. *)
Theorem parsed_entry_shape toc_text e :
  e ∈ parse_toc toc_text ->
  (exists d t, number e = d :: t /\ is_digit d = true) /\
  Forall path_char (number e) /\
  (DOT ∈ number e) /\
  strip (description e) = description e /\
  (LF ∉ description e).
Proof.
  unfold parse_toc. intros He.
  apply list_elem_of_fmap in He as (c & -> & Hc).
  apply toc_lines_elem in Hc as (x & m1 & m2 & T & -> & Hx & Hm1 & Hm2 & HT).
  assert (Hpath : Forall path_char (x :: m1 ++ DOT :: m2)).
  { constructor; [by left|]. apply Forall_app. split; [done|].
    constructor; [by right | done]. }
  assert (Hnum : strip (x :: m1 ++ DOT :: m2) = x :: m1 ++ DOT :: m2).
  { apply strip_no_space. eapply Forall_impl; [exact Hpath|].
    intros z Hz. by apply path_char_not_space. }
  unfold toc_entry_of.
  change (group_text 1 [(2, T); (1, x :: m1 ++ DOT :: m2)])
    with (x :: m1 ++ DOT :: m2).
  change (group_text 2 [(2, T); (1, x :: m1 ++ DOT :: m2)]) with T.
  cbn [number description]. rewrite Hnum.
  split; [by eexists _, _|]. split; [done|]. split; [|split].
  - apply list_elem_of_further, elem_of_app. right. apply list_elem_of_here.
  - apply strip_idemp.
  - intros Hin. apply HT. by apply (sub_delete_subseteq re_page_suffix),
      strip_subseteq.
Qed.

Lemma parsed_entry_shape_witness :
  (exists d t, number entry_b = d :: t /\ is_digit d = true) /\
  Forall path_char (number entry_b) /\
  (DOT ∈ number entry_b) /\
  strip (description entry_b) = description entry_b /\
  (LF ∉ description entry_b).
Proof.
  apply (parsed_entry_shape toc_ab entry_b).
  vm_compute. apply list_elem_of_further, list_elem_of_here.
Defined.

(** X10: a blank text. When the text holds only whitespace, its normal form
    is the empty string and no anchor is found in it: a call that returns
    returns no record, whatever the table of contents, and it returns when
    the warnings of all the entries can be written. *)
Theorem blank_text_no_records stdout toc_text full_text :
  Forall (fun x => is_space x = true) full_text ->
  normalize full_text = [] /\
  (forall printed data,
     parse_pdf_text_by_toc stdout toc_text full_text = (printed, Returned data) ->
     data = []) /\
  (Forall (printable stdout) (parse_toc toc_text) ->
   parse_pdf_text_by_toc stdout toc_text full_text
   = (warning_of <$> parse_toc toc_text, Returned [])).
Proof.
  intros H. pose proof (normalize_blank _ H) as Hn. split; [done|].
  pose proof (missing_empty_text (parse_toc toc_text)) as Hmiss.
  split.
  - intros printed data Hrun. apply parse_returned in Hrun as [-> _].
    rewrite Hn. apply extract_sections_empty_text.
  - intros Hall.
    destruct (parse_cases stdout toc_text full_text)
      as [[_ Hrun]|(before & e & after & exc & Hes & _ & Hp & _ & _)].
    + rewrite Hrun, Hn, Hmiss. by rewrite extract_sections_empty_text.
    + exfalso. rewrite Hes in Hall. apply Forall_app in Hall as [_ Hall].
      apply Forall_cons in Hall as [Hall _].
      unfold printable in Hall. unfold warning_of in Hp. congruence.
Qed.

Lemma blank_text_no_records_witness :
  normalize [SP; LF; 9%N] = [] /\
  (forall printed data,
     parse_pdf_text_by_toc utf8 toc_ab [SP; LF; 9%N] = (printed, Returned data) ->
     data = []) /\
  (Forall (printable utf8) (parse_toc toc_ab) ->
   parse_pdf_text_by_toc utf8 toc_ab [SP; LF; 9%N]
   = (warning_of <$> parse_toc toc_ab, Returned [])).
Proof.
  apply blank_text_no_records. repeat constructor.
Defined.

(** X11: no entry without leader dots. When the table of contents has no
    three dots in a row, neither pattern matches anywhere in it: the parser
    gives no entry, and the call prints nothing and returns no record. *)
Theorem no_leader_dots_no_entries stdout toc_text full_text :
  ~ occurs [DOT; DOT; DOT] toc_text ->
  parse_toc toc_text = [] /\
  parse_pdf_text_by_toc stdout toc_text full_text = ([], Returned []).
Proof.
  intros Hno.
  assert (Hsuf : forall j, ~ occurs [DOT; DOT; DOT] (drop j toc_text)).
  { intros j Hocc. apply Hno. eapply occurs_suffix; [exact Hocc|].
    apply suffix_drop. }
  assert (Hp : parse_toc toc_text = []).
  { unfold parse_toc, toc_lines.
    rewrite (findall_no_match re_toc_bullet), (findall_no_match re_toc_plain);
      [done| |].
    - intros j. apply match_at_None. intros s' c Hm.
      by apply toc_plain_needs_dots, Hsuf in Hm.
    - intros j. apply match_at_None. intros s' c Hm.
      by apply toc_bullet_needs_dots, Hsuf in Hm. }
  split; [done|]. unfold parse_pdf_text_by_toc. by rewrite Hp.
Qed.

Lemma no_leader_dots_no_entries_witness :
  parse_toc (BULLET :: lit " 1.1 Ensure Test Item .. 5") = [] /\
  parse_pdf_text_by_toc utf8 (BULLET :: lit " 1.1 Ensure Test Item .. 5")
    ex_body = ([], Returned []).
Proof.
  apply no_leader_dots_no_entries.
  intros Hocc. apply find_in_occurs in Hocc as [k Hk].
  vm_compute in Hk. discriminate Hk.
Defined.

(** X12: normalization changes only whitespace and hyphens. The characters
    of the normalized text that are neither whitespace nor a hyphen are those
    of the raw text, in the same order and number; and every character of
    the normalized text is a character of the raw text or the space. *)
Theorem normalize_keeps_content full_text :
  filter solid (normalize full_text) = filter solid full_text /\
  forall x, x ∈ normalize full_text -> x ∈ full_text \/ x = SP.
Proof.
  split; [apply filter_solid_normalize|]. intros x. apply normalize_elem.
Qed.

(** X13: the answers of the handler. [process_pdf] answers with results
    exactly when the body is an object whose [toc_text] and [pdf_text] are
    strings that are not empty and the parser returns on them; the results
    are then what the parser returns and the status is 200. It answers with
    the message of the empty input, and status 400, exactly when the body is
    an object in which one of the two fields is missing or false; the parser
    is then not called and nothing is printed. Every other request is
    answered with status 500, among them a request on whose strings the
    parser raises; no other status occurs. *)
Theorem process_pdf_answers stdout request :
  (forall printed results code,
     process_pdf stdout request = (printed, (Results results, code)) <->
     code = 200%N /\
     exists toc_text pdf_text, valid request toc_text pdf_text /\
       parse_pdf_text_by_toc stdout toc_text pdf_text
       = (printed, Returned results)) /\
  (forall printed code,
     process_pdf stdout request = (printed, (ErrorEmpty, code)) <->
     code = 400%N /\ printed = [] /\
     exists data, request = JObject data /\
       (falsy data (lit "toc_text") \/ falsy data (lit "pdf_text"))) /\
  (forall printed code,
     process_pdf stdout request = (printed, (ErrorRaised, code)) ->
     code = 500%N) /\
  (forall toc_text pdf_text printed exc,
     valid request toc_text pdf_text ->
     parse_pdf_text_by_toc stdout toc_text pdf_text = (printed, Raise exc) ->
     process_pdf stdout request = (printed, (ErrorRaised, 500%N))) /\
  (process_pdf stdout request).2.2 ∈ [200%N; 400%N; 500%N].
Proof.
  destruct (process_pdf_cases stdout request)
    as [(t & p & Hv & Hr)|[(data & -> & Hf & Hnv & Hr)|(Hv & Hnf & Hr)]].
  - destruct (parse_pdf_text_by_toc stdout t p) as [pr [rs|exc]] eqn:Hrun;
      cbn [answer] in Hr; (split; [|split; [|split; [|split]]]).
    + intros printed results code. rewrite Hr. split.
      * intros H. inversion H; subst. split; [done|]. by exists t, p.
      * intros (-> & t' & p' & Hv' & Hrun').
        destruct (valid_unique _ _ _ _ _ Hv Hv') as [-> ->].
        rewrite Hrun in Hrun'. by inversion Hrun'; subst.
    + intros printed code. rewrite Hr. split; [done|].
      intros (_ & _ & data & -> & Hf). exfalso.
      destruct Hv as (d & Hd & Ht & Hp & Hte & Hpe). inversion Hd; subst d.
      unfold falsy, get in Hf. rewrite Ht, Hp in Hf.
      cbn [default from_option id truth] in Hf.
      rewrite !bool_decide_eq_true_2 in Hf by done. by destruct Hf.
    + intros printed code. by rewrite Hr.
    + intros t' p' printed exc Hv' Hrun'.
      destruct (valid_unique _ _ _ _ _ Hv Hv') as [-> ->].
      rewrite Hrun in Hrun'. done.
    + rewrite Hr. cbn. repeat constructor.
    + intros printed results code. rewrite Hr. split; [done|].
      intros (_ & t' & p' & Hv' & Hrun').
      destruct (valid_unique _ _ _ _ _ Hv Hv') as [-> ->].
      rewrite Hrun in Hrun'. done.
    + intros printed code. rewrite Hr. split; [done|].
      intros (_ & _ & data & -> & Hf). exfalso.
      destruct Hv as (d & Hd & Ht & Hp & Hte & Hpe). inversion Hd; subst d.
      unfold falsy, get in Hf. rewrite Ht, Hp in Hf.
      cbn [default from_option id truth] in Hf.
      rewrite !bool_decide_eq_true_2 in Hf by done. by destruct Hf.
    + intros printed code. rewrite Hr. intros H. by inversion H.
    + intros t' p' printed exc' Hv' Hrun'.
      destruct (valid_unique _ _ _ _ _ Hv Hv') as [-> ->].
      rewrite Hrun in Hrun'. rewrite Hr. by inversion Hrun'; subst.
    + rewrite Hr. cbn. repeat constructor.
  - split; [|split; [|split; [|split]]].
    + intros printed rs code. rewrite Hr. split; [done|].
      intros (_ & t & p & Hv & _). by apply Hnv in Hv.
    + intros printed code. rewrite Hr. split.
      * intros H. inversion H; subst. split; [done|]. split; [done|].
        by exists data.
      * by intros (-> & -> & _).
    + intros printed code. by rewrite Hr.
    + intros t p printed exc Hv _. by apply Hnv in Hv.
    + rewrite Hr. cbn. repeat constructor.
  - split; [|split; [|split; [|split]]].
    + intros printed rs code. rewrite Hr. split; [done|].
      intros (_ & t & p & Hv' & _). by apply Hv in Hv'.
    + intros printed code. rewrite Hr. split; [done|].
      intros (_ & _ & data & Hd & Hf). exfalso. by apply (Hnf data Hd).
    + intros printed code. rewrite Hr. intros H. by inversion H.
    + intros t p printed exc Hv' _. by apply Hv in Hv'.
    + rewrite Hr. cbn. repeat constructor.
Qed.

(** X14: where the fields of a record come from. In every record a call
    returns, each of info, solution, auditFile and policyValue is "N/A" or a
    piece of the normalized text, standing in it as it is and with no
    whitespace at its ends; and the references are ["N/A"] or one such
    piece. *)
Theorem fields_are_pieces_of_text stdout toc_text full_text printed data r :
  parse_pdf_text_by_toc stdout toc_text full_text = (printed, Returned data) ->
  r ∈ data ->
  (forall label labels get, (label, labels, get) ∈ text_fields ->
     get r = NA \/
     occurs (get r) (normalize full_text) /\ strip (get r) = get r) /\
  (references r = [NA] \/
   exists g, references r = [g] /\
     occurs g (normalize full_text) /\ strip g = g).
Proof.
  intros Hrun H. apply parse_returned in Hrun as [-> _].
  apply extract_sections_elem in H as (e & i & j & _ & ->).
  pose proof (occurs_slice (normalize full_text) i j) as Hsl.
  split.
  - intros label labels get Hin. rewrite (text_fields_inv _ _ _ Hin).
    destruct (field _ _) as [g|] eqn:Hg; [|by left].
    right. apply field_occurs in Hg as [Hg Hs]. split; [|done].
    by eapply occurs_trans.
  - change (references (extract e (slice (normalize full_text) i j)))
      with (match field re_references (slice (normalize full_text) i j) with
            | Some g => split_on LF g
            | None => [NA]
            end).
    destruct (field re_references _) as [g|] eqn:Hg; [|by left].
    right. exists g. split.
    + apply split_on_absent. intros Hin.
      apply (normalize_no_newline full_text).
      apply (slice_subseteq _ i j). by apply (field_subseteq _ _ _ Hg).
    + apply field_occurs in Hg as [Hg Hs]. split; [|done].
      by eapply occurs_trans.
Qed.

Lemma fields_are_pieces_of_text_witness :
  (forall label labels get, (label, labels, get) ∈ text_fields ->
     get ex_returned = NA \/
     occurs (get ex_returned) (normalize ex_body) /\
     strip (get ex_returned) = get ex_returned) /\
  (references ex_returned = [NA] \/
   exists g, references ex_returned = [g] /\
     occurs g (normalize ex_body) /\ strip g = g).
Proof.
  apply (fields_are_pieces_of_text utf8 ex_toc ex_body [] [ex_returned]
           ex_returned).
  - vm_compute. reflexivity.
  - apply list_elem_of_here.
Defined.

(** X15: a title with irregular whitespace is never found. The normalized
    text holds no whitespace but single spaces, so an entry whose description
    holds another whitespace character, or two spaces in a row, has its
    anchor nowhere in it, whatever the text: no record a call returns is for
    the entry, the warning of the entry is among the lines a returning call
    has printed, and where that warning cannot be written the call does not
    return. *)
Theorem irregular_title_never_located stdout toc_text full_text e :
  e ∈ parse_toc toc_text ->
  well_spaced (description e) = false ->
  ~ occurs (start_string e) (normalize full_text) /\
  (forall printed data,
     parse_pdf_text_by_toc stdout toc_text full_text = (printed, Returned data) ->
     (forall r, r ∈ data -> entry_of r <> e) /\
     warning_of e ∈ printed /\ printable stdout e).
Proof.
  intros He Hw.
  assert (Hno : ~ located (normalize full_text) e).
  { intros H. apply located_well_spaced in H. congruence. }
  split; [by rewrite <- located_occurs|].
  intros printed data Hrun.
  assert (Hin : e ∈ missing (normalize full_text) (parse_toc toc_text)).
  { unfold missing. by apply list_elem_of_filter. }
  destruct (parse_cases stdout toc_text full_text)
    as [[Hall Hrun']|(before & y & after & exc & _ & _ & _ & _ & Hrun')];
    rewrite Hrun in Hrun'; [|done].
  inversion Hrun'; subst. split; [|split].
  - intros r Hr <-. by apply record_entry_located in Hr.
  - by apply list_elem_of_fmap_2.
  - rewrite Forall_forall in Hall. by apply Hall.
Qed.

Lemma irregular_title_never_located_witness :
  ~ occurs (start_string entry_wide) (normalize body_wide) /\
  (forall printed data,
     parse_pdf_text_by_toc utf8 toc_wide body_wide = (printed, Returned data) ->
     (forall r, r ∈ data -> entry_of r <> entry_wide) /\
     warning_of entry_wide ∈ printed /\ printable utf8 entry_wide).
Proof.
  apply (irregular_title_never_located utf8 toc_wide body_wide entry_wide).
  - vm_compute. apply list_elem_of_here.
  - vm_compute. reflexivity.
Defined.
